(** * vietsub-ai-app: history, region editor, subtitle resolver, SRT glue

    A shallow embedding of the stateful core of the application
    ([src/App.tsx], [src/components/VideoWorkspace.tsx],
    [src/components/SubtitleEditor.tsx], [src/utils/srt.ts],
    [src/services/geminiService.ts]) together with the properties the
    specification states about it and further properties of the code.

    Conventions.
    - A JavaScript [number] is an exact rational ([Q]); [NaN], the
      infinities and binary rounding are outside the model.  Integer
      indices ([historyIndex], loop counters) are [Z].
    - A JavaScript string is a [string] of 8-bit code units.
    - React state setters are modelled as pure state transformers on the
      value they replace; an uncaught [TypeError] is [None].
    - Values are compared by content ([History]); where the identity of
      arrays and objects matters the same code is modelled again over a
      store of references ([Refs]) and shown to read as the first model.
    - Timers, [Math.random], [Date.now] and the outcome of remote calls
      are inputs of the functions that use them; what a function does to
      the outside is returned as a list of effects. *)

From Stdlib Require Import ZArith QArith Qround Qabs Qminmax.
From Stdlib Require Import List String Ascii Bool Lia Lqa Permutation Sorted.
From Stdlib Require Import DecimalString DecimalZ DecimalPos.
From stdpp Require Import gmap strings.
Import ListNotations.

#[local] Open Scope Z_scope.

(** ** Data model ([src/types.ts]) *)

(** [SubtitleEntry]; the field [id] is spelled [sub_id]. *)
Record SubtitleEntry := mkSubtitleEntry {
  sub_id : string;
  startTime : Q;
  endTime : Q;
  originalText : string;
  translatedText : string;
  audioUrl : option string
}.

Record BlurRegion := mkBlurRegion {
  x : Q;
  y : Q;
  width : Q;
  height : Q
}.

Inductive ProcessStatus :=
| IDLE | EXTRACTING | TRANSLATING | GENERATING_VOICE | EXPORTING | COMPLETED | ERROR.

Record HistoryState := mkHistoryState {
  hs_subtitles : list SubtitleEntry;
  hs_blurRegions : list BlurRegion
}.

(** [VideoQueueItem], without the fields no modelled operation reads
    ([file], [url], [progress], the progress counters). *)
Record VideoQueueItem := mkVideoQueueItem {
  status : ProcessStatus;
  subtitles : list SubtitleEntry;
  blurRegions : list BlurRegion;
  fontFamily : string;
  fontSize : Q;
  history : list HistoryState;
  historyIndex : Z
}.

(** [Partial<VideoQueueItem>] as far as the callers of
    [updateActiveVideo] fill it in. *)
Record Updates := mkUpdates {
  u_status : option ProcessStatus;
  u_subtitles : option (list SubtitleEntry);
  u_blurRegions : option (list BlurRegion);
  u_fontFamily : option string;
  u_fontSize : option Q
}.

(** ** JavaScript array primitives *)

(** [arr[i]]: [undefined] (here [None]) outside [0 .. length-1]. *)
Definition js_index {A} (arr : list A) (i : Z) : option A :=
  if i <? 0 then None else nth_error arr (Z.to_nat i).

(** [arr.slice(0, e)]; a negative [e] counts from the end. *)
Definition slice0 {A} (arr : list A) (e : Z) : list A :=
  if e <? 0
  then firstn (Z.to_nat (Z.max (Z.of_nat (length arr) + e) 0)) arr
  else firstn (Z.to_nat e) arr.

(** [arr.shift()]: drops the first element, leaves [[]] alone. *)
Definition shift {A} (arr : list A) : list A := tl arr.

(** [a || b] on an optional array: every array is truthy. *)
Definition or_else {A} (a : option A) (b : A) : A :=
  match a with Some v => v | None => b end.

(** ** Structural comparison through [JSON.stringify]

    Two arrays print to the same JSON text exactly when they agree
    field by field, as long as corresponding objects list their keys in
    the same order; an absent [audioUrl] prints no key.  The records
    below carry no key order: the arrays the program compares are built
    from the current one by [map], [filter], [sort] and object spread,
    which keep the order of the keys, or by [parseSRT], whose ids no
    other constructor produces. *)

Definition option_string_eqb (a b : option string) : bool :=
  match a, b with
  | Some s, Some t => String.eqb s t
  | None, None => true
  | _, _ => false
  end.

Definition SubtitleEntry_eqb (a b : SubtitleEntry) : bool :=
  String.eqb (sub_id a) (sub_id b)
  && Qeq_bool (startTime a) (startTime b)
  && Qeq_bool (endTime a) (endTime b)
  && String.eqb (originalText a) (originalText b)
  && String.eqb (translatedText a) (translatedText b)
  && option_string_eqb (audioUrl a) (audioUrl b).

Definition BlurRegion_eqb (a b : BlurRegion) : bool :=
  Qeq_bool (x a) (x b) && Qeq_bool (y a) (y b)
  && Qeq_bool (width a) (width b) && Qeq_bool (height a) (height b).

Fixpoint list_eqb {A} (eqb : A -> A -> bool) (l1 l2 : list A) : bool :=
  match l1, l2 with
  | [], [] => true
  | a :: l1', b :: l2' => eqb a b && list_eqb eqb l1' l2'
  | _, _ => false
  end.

(** [JSON.stringify(a) === JSON.stringify(b)] on subtitle arrays. *)
Definition json_eq_subtitles : list SubtitleEntry -> list SubtitleEntry -> bool :=
  list_eqb SubtitleEntry_eqb.

(** [JSON.stringify(a) === JSON.stringify(b)] on region arrays. *)
Definition json_eq_regions : list BlurRegion -> list BlurRegion -> bool :=
  list_eqb BlurRegion_eqb.

(** Structural equality as a relation: numbers by value, strings by
    content. *)
Definition SubtitleEntry_equiv (a b : SubtitleEntry) : Prop :=
  sub_id a = sub_id b /\ (startTime a == startTime b)%Q /\ (endTime a == endTime b)%Q
  /\ originalText a = originalText b /\ translatedText a = translatedText b
  /\ audioUrl a = audioUrl b.

Definition BlurRegion_equiv (a b : BlurRegion) : Prop :=
  (x a == x b)%Q /\ (y a == y b)%Q /\ (width a == width b)%Q /\ (height a == height b)%Q.

(** ** History manager ([src/App.tsx]) *)

Module History.

(** The item [handleFilesUpload] enqueues. *)
Definition initialItem (globalFontFamily : string) (globalFontSize : Q) : VideoQueueItem :=
  {| status := IDLE; subtitles := []; blurRegions := [];
     fontFamily := globalFontFamily; fontSize := globalFontSize;
     history := [ {| hs_subtitles := []; hs_blurRegions := [] |} ];
     historyIndex := 0 |}.

(** The body shared by [pushToHistory] and [updateActiveVideo]:
    truncate past the cursor, drop the oldest entry at the cap, append. *)
Definition pushed (item : VideoQueueItem)
    (subs : list SubtitleEntry) (regions : list BlurRegion) : list HistoryState * Z :=
  let newState := {| hs_subtitles := subs; hs_blurRegions := regions |} in
  let newHistory := slice0 (history item) (historyIndex item + 1) in
  let newHistory :=
    if 50 <=? Z.of_nat (length newHistory) then shift newHistory else newHistory in
  (newHistory ++ [newState], Z.of_nat (length newHistory)).

(** [pushToHistory(index, subtitles, blurRegions)] on the item at [index]. *)
Definition pushToHistory (item : VideoQueueItem)
    (subs : list SubtitleEntry) (regions : list BlurRegion) : VideoQueueItem :=
  let '(h, i) := pushed item subs regions in
  {| status := status item; subtitles := subtitles item; blurRegions := blurRegions item;
     fontFamily := fontFamily item; fontSize := fontSize item;
     history := h; historyIndex := i |}.

(** The guard of [updateActiveVideo]: the update carries subtitles or
    regions and one of the two prints differently from the current one. *)
Definition changes (item : VideoQueueItem) (updates : Updates) : bool :=
  match u_subtitles updates, u_blurRegions updates with
  | None, None => false
  | _, _ =>
      let subs := or_else (u_subtitles updates) (subtitles item) in
      let regions := or_else (u_blurRegions updates) (blurRegions item) in
      negb (json_eq_subtitles subs (subtitles item))
      || negb (json_eq_regions regions (blurRegions item))
  end.

(** [updateActiveVideo(updates)] on the active item. *)
Definition updateActiveVideo (item : VideoQueueItem) (updates : Updates) : VideoQueueItem :=
  let subs := or_else (u_subtitles updates) (subtitles item) in
  let regions := or_else (u_blurRegions updates) (blurRegions item) in
  let '(h, i) :=
    if changes item updates then pushed item subs regions
    else (history item, historyIndex item) in
  {| status := or_else (u_status updates) (status item);
     subtitles := subs; blurRegions := regions;
     fontFamily := or_else (u_fontFamily updates) (fontFamily item);
     fontSize := or_else (u_fontSize updates) (fontSize item);
     history := h; historyIndex := i |}.

(** [commit(subtitles, regions)] of the specification: an update that
    carries both arrays. *)
Definition commit (item : VideoQueueItem)
    (subs : list SubtitleEntry) (regions : list BlurRegion) : VideoQueueItem :=
  updateActiveVideo item
    {| u_status := None; u_subtitles := Some subs; u_blurRegions := Some regions;
       u_fontFamily := None; u_fontSize := None |}.

(** Moving the cursor to [newIdx] and loading the snapshot found there;
    reading a field of [undefined] throws. *)
Definition restore (item : VideoQueueItem) (newIdx : Z) : option VideoQueueItem :=
  match js_index (history item) newIdx with
  | Some state =>
      Some {| status := status item;
              subtitles := hs_subtitles state; blurRegions := hs_blurRegions state;
              fontFamily := fontFamily item; fontSize := fontSize item;
              history := history item; historyIndex := newIdx |}
  | None => None
  end.

Definition undo (item : VideoQueueItem) : option VideoQueueItem :=
  if historyIndex item <=? 0 then Some item
  else restore item (historyIndex item - 1).

Definition redo (item : VideoQueueItem) : option VideoQueueItem :=
  if Z.of_nat (length (history item)) - 1 <=? historyIndex item then Some item
  else restore item (historyIndex item + 1).

(** [updateStatus] of [processVideo] and the final [setQueue]: they write
    [subtitles] straight into the item, past the history. *)
Definition writeSubtitles (item : VideoQueueItem) (st : ProcessStatus)
    (subs : list SubtitleEntry) : VideoQueueItem :=
  {| status := st; subtitles := subs; blurRegions := blurRegions item;
     fontFamily := fontFamily item; fontSize := fontSize item;
     history := history item; historyIndex := historyIndex item |}.

(** The operations that reach one item of the queue. *)
Inductive Op :=
| OpUpdate (updates : Updates)
| OpPush (subs : list SubtitleEntry) (regions : list BlurRegion)
| OpUndo
| OpRedo
| OpWrite (st : ProcessStatus) (subs : list SubtitleEntry).

Definition step (item : VideoQueueItem) (op : Op) : option VideoQueueItem :=
  match op with
  | OpUpdate updates => Some (updateActiveVideo item updates)
  | OpPush subs regions => Some (pushToHistory item subs regions)
  | OpUndo => undo item
  | OpRedo => redo item
  | OpWrite st subs => Some (writeSubtitles item st subs)
  end.

Fixpoint run (item : VideoQueueItem) (ops : list Op) : option VideoQueueItem :=
  match ops with
  | [] => Some item
  | op :: ops' =>
      match step item op with
      | Some item' => run item' ops'
      | None => None
      end
  end.

(** The cursor addresses a snapshot and the cap is respected. *)
Definition wf (item : VideoQueueItem) : Prop :=
  0 <= historyIndex item < Z.of_nat (length (history item))
  /\ (length (history item) <= 50)%nat.

(** The snapshot under the cursor. *)
Definition current (item : VideoQueueItem) : option HistoryState :=
  js_index (history item) (historyIndex item).

(** The specification's wording of a value-changing commit, for
    comparison with [pushed]: truncate the snapshots past the cursor,
    append, advance the cursor, and only then, if the cap of 50 is
    exceeded, evict the oldest snapshot and decrement the cursor. *)
Definition spec_commit (h : list HistoryState) (cursor : Z) (newState : HistoryState)
    : list HistoryState * Z :=
  let appended := firstn (Z.to_nat (cursor + 1)) h ++ [newState] in
  let advanced := cursor + 1 in
  if 50 <? Z.of_nat (length appended) then (tl appended, advanced - 1)
  else (appended, advanced).

(** Successive commits of pairs, as [commit] makes them. *)
Fixpoint commits (item : VideoQueueItem)
    (pairs : list (list SubtitleEntry * list BlurRegion)) : VideoQueueItem :=
  match pairs with
  | [] => item
  | (subs, regions) :: pairs' => commits (commit item subs regions) pairs'
  end.

(** Every one of the commits changes the value current when it is made. *)
Fixpoint allChange (item : VideoQueueItem)
    (pairs : list (list SubtitleEntry * list BlurRegion)) : bool :=
  match pairs with
  | [] => true
  | (subs, regions) :: pairs' =>
      changes item
        {| u_status := None; u_subtitles := Some subs; u_blurRegions := Some regions;
           u_fontFamily := None; u_fontSize := None |}
      && allChange (commit item subs regions) pairs'
  end.

(** The snapshot a committed pair is stored as. *)
Definition snapshotOf (pair : list SubtitleEntry * list BlurRegion) : HistoryState :=
  {| hs_subtitles := fst pair; hs_blurRegions := snd pair |}.

(** The last [n] elements of a list. *)
Definition lastn {A} (n : nat) (l : list A) : list A := skipn (length l - n) l.

End History.

(** ** The history manager on object references

    The same [updateActiveVideo], now with the identity of arrays and
    objects: an array is a reference into [arrays], its elements are
    references to subtitle or region objects, and [[...arr]] allocates a
    new array holding the same element references. *)

Module Refs.

Record Store := mkStore {
  subtitleObjects : gmap nat SubtitleEntry;
  regionObjects : gmap nat BlurRegion;
  arrays : gmap nat (list nat)
}.

(** A [HistoryState]: two array references. *)
Record Snapshot := mkSnapshot {
  r_subtitles : nat;
  r_blurRegions : nat
}.

Record Item := mkItem {
  subtitlesRef : nat;
  blurRegionsRef : nat;
  historyRefs : list Snapshot;
  historyIndexRef : Z
}.

Record UpdatesRef := mkUpdatesRef {
  ur_subtitles : option nat;
  ur_blurRegions : option nat
}.

(** The element references of an array. *)
Definition elems (store : Store) (arr : nat) : list nat :=
  default [] (arrays store !! arr).

(** The values an array of subtitles, or of regions, holds now. *)
Definition readSubtitles (store : Store) (arr : nat) : list SubtitleEntry :=
  omap (fun o => subtitleObjects store !! o) (elems store arr).

Definition readRegions (store : Store) (arr : nat) : list BlurRegion :=
  omap (fun o => regionObjects store !! o) (elems store arr).

(** [[...arr]]. *)
Definition spread (store : Store) (arr : nat) : Store * nat :=
  let copy := fresh (dom (arrays store)) in
  ({| subtitleObjects := subtitleObjects store; regionObjects := regionObjects store;
      arrays := <[copy := elems store arr]> (arrays store) |}, copy).

(** The guard of [updateActiveVideo]. *)
Definition changes (store : Store) (item : Item) (updates : UpdatesRef) : bool :=
  match ur_subtitles updates, ur_blurRegions updates with
  | None, None => false
  | _, _ =>
      let subs := or_else (ur_subtitles updates) (subtitlesRef item) in
      let regions := or_else (ur_blurRegions updates) (blurRegionsRef item) in
      negb (json_eq_subtitles (readSubtitles store subs)
              (readSubtitles store (subtitlesRef item)))
      || negb (json_eq_regions (readRegions store regions)
                 (readRegions store (blurRegionsRef item)))
  end.

Definition updateActiveVideo (store : Store) (item : Item) (updates : UpdatesRef)
    : Store * Item :=
  let subs := or_else (ur_subtitles updates) (subtitlesRef item) in
  let regions := or_else (ur_blurRegions updates) (blurRegionsRef item) in
  if changes store item updates
  then
    let '(store1, subsCopy) := spread store subs in
    let '(store2, regionsCopy) := spread store1 regions in
    let newState := {| r_subtitles := subsCopy; r_blurRegions := regionsCopy |} in
    let newHistory := slice0 (historyRefs item) (historyIndexRef item + 1) in
    let newHistory :=
      if 50 <=? Z.of_nat (length newHistory) then shift newHistory else newHistory in
    (store2,
     {| subtitlesRef := subs; blurRegionsRef := regions;
        historyRefs := newHistory ++ [newState];
        historyIndexRef := Z.of_nat (length newHistory) |})
  else
    (store,
     {| subtitlesRef := subs; blurRegionsRef := regions;
        historyRefs := historyRefs item; historyIndexRef := historyIndexRef item |}).


(** An assignment to a field of a region object, in place. *)
Definition mutateRegion (store : Store) (obj : nat)
    (f : BlurRegion -> BlurRegion) : Store :=
  {| subtitleObjects := subtitleObjects store;
     regionObjects := alter f obj (regionObjects store); arrays := arrays store |}.


(** The value a snapshot reads as. *)
Definition readSnapshot (store : Store) (s : Snapshot) : HistoryState :=
  {| hs_subtitles := readSubtitles store (r_subtitles s);
     hs_blurRegions := readRegions store (r_blurRegions s) |}.

(** The item as the value-level model sees it. *)
Definition readItem (store : Store) (st : ProcessStatus) (ff : string) (fs : Q)
    (item : Item) : VideoQueueItem :=
  {| status := st;
     subtitles := readSubtitles store (subtitlesRef item);
     blurRegions := readRegions store (blurRegionsRef item);
     fontFamily := ff; fontSize := fs;
     history := List.map (readSnapshot store) (historyRefs item);
     historyIndex := historyIndexRef item |}.

(** The update as the value-level model sees it. *)
Definition readUpdates (store : Store) (updates : UpdatesRef) : Updates :=
  {| u_status := None;
     u_subtitles := readSubtitles store <$> ur_subtitles updates;
     u_blurRegions := readRegions store <$> ur_blurRegions updates;
     u_fontFamily := None; u_fontSize := None |}.

(** Every array the item or its history mentions exists. *)
Definition allocated (store : Store) (item : Item) : Prop :=
  subtitlesRef item ∈ dom (arrays store)
  /\ blurRegionsRef item ∈ dom (arrays store)
  /\ Forall (fun s => r_subtitles s ∈ dom (arrays store)
                      /\ r_blurRegions s ∈ dom (arrays store)) (historyRefs item).

End Refs.

(** The setters [src/App.tsx] hands to the two editors: a functional
    update is applied to the active item's current array and the result
    goes through [updateActiveVideo]. *)
Definition setSubtitles (item : VideoQueueItem)
    (val : list SubtitleEntry -> list SubtitleEntry) : VideoQueueItem :=
  History.updateActiveVideo item
    {| u_status := None; u_subtitles := Some (val (subtitles item));
       u_blurRegions := None; u_fontFamily := None; u_fontSize := None |}.

Definition setBlurRegions (item : VideoQueueItem)
    (val : list BlurRegion -> list BlurRegion) : VideoQueueItem :=
  History.updateActiveVideo item
    {| u_status := None; u_subtitles := None;
       u_blurRegions := Some (val (blurRegions item));
       u_fontFamily := None; u_fontSize := None |}.

(** ** The queue ([src/App.tsx]) *)

Module Queue.

(** [arr.map((item, idx) => ...)]. *)
Fixpoint mapi {A B} (f : A -> Z -> B) (arr : list A) (idx : Z) : list B :=
  match arr with
  | [] => []
  | a :: arr' => f a idx :: mapi f arr' (idx + 1)
  end.

(** [activeVideo = currentIndex >= 0 ? queue[currentIndex] : null]. *)
Definition activeVideo (queue : list VideoQueueItem) (currentIndex : Z)
    : option VideoQueueItem :=
  if 0 <=? currentIndex then js_index queue currentIndex else None.

(** [setQueue(prev => prev.map((item, idx) => idx !== currentIndex ? item
    : f(item)))], the shape of every write to the active item. *)
Definition onActive (queue : list VideoQueueItem) (currentIndex : Z)
    (f : VideoQueueItem -> VideoQueueItem) : list VideoQueueItem :=
  mapi (fun item idx => if idx =? currentIndex then f item else item) queue 0.

Definition updateActiveVideo (queue : list VideoQueueItem) (currentIndex : Z)
    (updates : Updates) : list VideoQueueItem :=
  onActive queue currentIndex (fun item => History.updateActiveVideo item updates).

(** [undo]: the guard reads [activeVideo]; the updater loads the
    snapshot below the cursor. *)
Definition undo (queue : list VideoQueueItem) (currentIndex : Z)
    : option (list VideoQueueItem) :=
  match activeVideo queue currentIndex with
  | None => Some queue
  | Some active =>
      match History.undo active with
      | Some item' => Some (onActive queue currentIndex (fun _ => item'))
      | None => None
      end
  end.

Definition redo (queue : list VideoQueueItem) (currentIndex : Z)
    : option (list VideoQueueItem) :=
  match activeVideo queue currentIndex with
  | None => Some queue
  | Some active =>
      match History.redo active with
      | Some item' => Some (onActive queue currentIndex (fun _ => item'))
      | None => None
      end
  end.

End Queue.

(** ** Active subtitle resolver ([src/components/VideoWorkspace.tsx]) *)

Module Resolver.

(** [Array.prototype.find]. *)
Fixpoint find {A} (p : A -> bool) (arr : list A) : option A :=
  match arr with
  | [] => None
  | a :: arr' => if p a then Some a else find p arr'
  end.

(** [currentTime >= s.startTime && currentTime <= s.endTime]. *)
Definition covers (currentTime : Q) (s : SubtitleEntry) : bool :=
  Qle_bool (startTime s) currentTime && Qle_bool currentTime (endTime s).

(** [activeSub], computed on every render of the workspace. *)
Definition activeSub (subs : list SubtitleEntry) (currentTime : Q) : option SubtitleEntry :=
  find (covers currentTime) subs.

(** [currentSub], computed per region and frame by [exportVideo] from
    [video.currentTime]. *)
Definition currentSub (subs : list SubtitleEntry) (videoCurrentTime : Q)
    : option SubtitleEntry :=
  find (covers videoCurrentTime) subs.

(** The interval test as a proposition. *)
Definition within (t : Q) (s : SubtitleEntry) : Prop :=
  (startTime s <= t)%Q /\ (t <= endTime s)%Q.

End Resolver.

(** ** Subtitle editor ([src/components/SubtitleEditor.tsx]) *)

Module SubtitleEditor.

(** [Array.prototype.sort(compareFn)] is stable; with a consistent
    comparator its result is the one a stable insertion sort gives. *)
Fixpoint sort_insert {A} (compareFn : A -> A -> Q) (a : A) (sorted : list A) : list A :=
  match sorted with
  | [] => [a]
  | b :: sorted' =>
      if Qle_bool (compareFn a b) 0 then a :: b :: sorted'
      else b :: sort_insert compareFn a sorted'
  end.

Fixpoint sort {A} (compareFn : A -> A -> Q) (arr : list A) : list A :=
  match arr with
  | [] => []
  | a :: arr' => sort_insert compareFn a (sort compareFn arr')
  end.

(** [(a, b) => a.startTime - b.startTime]. *)
Definition byStartTime (a b : SubtitleEntry) : Q := (startTime a - startTime b)%Q.

(** The entry [addSub] builds; [now] is [Date.now().toString()].  The
    two placeholder texts stand here as their UTF-8 bytes. *)
Definition newSub (now : string) (currentTime : Q) : SubtitleEntry :=
  {| sub_id := now;
     startTime := currentTime;
     endTime := (currentTime + 2)%Q;
     originalText := "Văn bản gốc mới";
     translatedText := "Bản dịch mới";
     audioUrl := None |}.

(** The functional update [addSub] passes to [setSubtitles]. *)
Definition addSub (now : string) (currentTime : Q) (prev : list SubtitleEntry)
    : list SubtitleEntry :=
  sort byStartTime (prev ++ [newSub now currentTime]).

(** [removeSub]. *)
Definition removeSub (id : string) (prev : list SubtitleEntry) : list SubtitleEntry :=
  List.filter (fun sub => negb (String.eqb (sub_id sub) id)) prev.

(** Ascending start times. *)
Definition ascending (a b : SubtitleEntry) : Prop := (startTime a <= startTime b)%Q.

(** The [field] and [value] of an [updateSub] call, for the four calls
    the editor makes: the two number inputs and the two text areas. *)
Inductive FieldValue :=
| StartTimeValue (value : Q)
| EndTimeValue (value : Q)
| OriginalTextValue (value : string)
| TranslatedTextValue (value : string).

(** [{ ...sub, [field]: value }]. *)
Definition assign (sub : SubtitleEntry) (fv : FieldValue) : SubtitleEntry :=
  match fv with
  | StartTimeValue value =>
      {| sub_id := sub_id sub; startTime := value; endTime := endTime sub;
         originalText := originalText sub; translatedText := translatedText sub;
         audioUrl := audioUrl sub |}
  | EndTimeValue value =>
      {| sub_id := sub_id sub; startTime := startTime sub; endTime := value;
         originalText := originalText sub; translatedText := translatedText sub;
         audioUrl := audioUrl sub |}
  | OriginalTextValue value =>
      {| sub_id := sub_id sub; startTime := startTime sub; endTime := endTime sub;
         originalText := value; translatedText := translatedText sub;
         audioUrl := audioUrl sub |}
  | TranslatedTextValue value =>
      {| sub_id := sub_id sub; startTime := startTime sub; endTime := endTime sub;
         originalText := originalText sub; translatedText := value;
         audioUrl := audioUrl sub |}
  end.

(** The functional update [updateSub] passes to [setSubtitles]. *)
Definition updateSub (id : string) (fv : FieldValue) (prev : list SubtitleEntry)
    : list SubtitleEntry :=
  List.map (fun sub => if String.eqb (sub_id sub) id then assign sub fv else sub) prev.

(** Two calls write the same field. *)
Definition sameField (a b : FieldValue) : bool :=
  match a, b with
  | StartTimeValue _, StartTimeValue _
  | EndTimeValue _, EndTimeValue _
  | OriginalTextValue _, OriginalTextValue _
  | TranslatedTextValue _, TranslatedTextValue _ => true
  | _, _ => false
  end.

(** The entries that start no later than [t], and those that start
    after it. *)
Definition startsBy (t : Q) (sub : SubtitleEntry) : bool := Qle_bool (startTime sub) t.
Definition startsAfter (t : Q) (sub : SubtitleEntry) : bool := negb (Qle_bool (startTime sub) t).

End SubtitleEditor.

(** ** Region editor ([src/components/VideoWorkspace.tsx]) *)

Module RegionEditor.

(** A pointer position in percent of the frame ([getRelativeCoords]). *)
Record Point := mkPoint { pt_x : Q; pt_y : Q }.

Inductive EditAction := move | resize.

(** The active item together with the component state of the workspace
    and the [isDrawing] flag it receives. *)
Record State := mkState {
  item : VideoQueueItem;
  isDrawing : bool;
  startPos : option Point;
  currentDrag : option BlurRegion;
  editingIdx : option nat;
  editAction : option EditAction;
  dragOffset : option Point
}.

Definition with_item (st : State) (it : VideoQueueItem) : State :=
  {| item := it; isDrawing := isDrawing st; startPos := startPos st;
     currentDrag := currentDrag st; editingIdx := editingIdx st;
     editAction := editAction st; dragOffset := dragOffset st |}.

Definition with_editingIdx (st : State) (i : option nat) : State :=
  {| item := item st; isDrawing := isDrawing st; startPos := startPos st;
     currentDrag := currentDrag st; editingIdx := i;
     editAction := editAction st; dragOffset := dragOffset st |}.

(** [a > b] on numbers. *)
Definition Qgtb (a b : Q) : bool := negb (Qle_bool a b).

(** [prev.filter((_, i) => i !== idx)]. *)
Fixpoint remove_at {A} (idx : nat) (arr : list A) : list A :=
  match arr, idx with
  | [], _ => []
  | _ :: arr', O => arr'
  | a :: arr', S idx' => a :: remove_at idx' arr'
  end.

(** [handleMouseDown]; [onRegion] is
    [target.closest('.blur-region-item')] being found. *)
Definition handleMouseDown (st : State) (coords : Point) (onRegion : bool) : State :=
  let st1 :=
    match editingIdx st with
    | Some _ =>
        if negb (isDrawing st) && negb onRegion then with_editingIdx st None else st
    | None => st
    end in
  if negb (isDrawing st) then st1
  else {| item := item st1; isDrawing := isDrawing st1; startPos := Some coords;
          currentDrag := currentDrag st1; editingIdx := editingIdx st1;
          editAction := editAction st1; dragOffset := dragOffset st1 |}.

(** The region a drag from [start] to [coords] spans. *)
Definition dragged (start coords : Point) : BlurRegion :=
  {| x := Qmin (pt_x start) (pt_x coords);
     y := Qmin (pt_y start) (pt_y coords);
     width := Qabs (pt_x coords - pt_x start);
     height := Qabs (pt_y coords - pt_y start) |}.

(** The [move] branch of [handleMouseMove]. *)
Definition moved (region : BlurRegion) (coords offset : Point) : BlurRegion :=
  {| x := Qmax 0 (Qmin (100 - width region) (pt_x coords - pt_x offset));
     y := Qmax 0 (Qmin (100 - height region) (pt_y coords - pt_y offset));
     width := width region;
     height := height region |}.

(** The [resize] branch of [handleMouseMove]. *)
Definition resized (region : BlurRegion) (coords : Point) : BlurRegion :=
  {| x := x region;
     y := y region;
     width := Qmax 1 (pt_x coords - x region);
     height := Qmax 1 (pt_y coords - y region) |}.

(** The functional update of [handleMouseMove] on the region list.  An
    index past the array would spread [undefined] into a region of [NaN]
    fields, which the model has no value for: [None]. *)
Definition edited (regionIdx : nat) (moveAction : EditAction) (offset : option Point)
    (coords : Point) (prev : list BlurRegion) : option (list BlurRegion) :=
  match prev !! regionIdx with
  | None => None
  | Some region =>
      let region' :=
        match moveAction, offset with
        | move, Some o => moved region coords o
        | move, None => region
        | resize, _ => resized region coords
        end in
      Some (<[regionIdx := region']> prev)
  end.

Definition handleMouseMove (st : State) (coords : Point) : option State :=
  match isDrawing st, startPos st with
  | true, Some start =>
      Some {| item := item st; isDrawing := isDrawing st; startPos := startPos st;
              currentDrag := Some (dragged start coords); editingIdx := editingIdx st;
              editAction := editAction st; dragOffset := dragOffset st |}
  | _, _ =>
      match editingIdx st, editAction st with
      | Some regionIdx, Some moveAction =>
          match edited regionIdx moveAction (dragOffset st) coords (blurRegions (item st)) with
          | Some next => Some (with_item st (setBlurRegions (item st) (fun _ => next)))
          | None => None
          end
      | _, _ => Some st
      end
  end.

Definition handleMouseUp (st : State) : State :=
  match isDrawing st, currentDrag st with
  | true, Some drag =>
      let it :=
        if Qgtb (width drag) 0.5 && Qgtb (height drag) 0.5
        then setBlurRegions (item st) (fun prev => prev ++ [drag])
        else item st in
      {| item := it; isDrawing := false; startPos := None; currentDrag := None;
         editingIdx := editingIdx st; editAction := None; dragOffset := None |}
  | _, _ =>
      {| item := item st; isDrawing := isDrawing st; startPos := startPos st;
         currentDrag := currentDrag st; editingIdx := editingIdx st;
         editAction := None; dragOffset := None |}
  end.

(** [handleRegionMouseDown]; while drawing it returns before
    [stopPropagation], so the event goes on to [handleMouseDown].
    Reading [region.x] of a missing region throws. *)
Definition handleRegionMouseDown (st : State) (idx : nat) (coords : Point) : option State :=
  if isDrawing st then Some (handleMouseDown st coords true)
  else
    match blurRegions (item st) !! idx with
    | None => None
    | Some region =>
        Some {| item := item st; isDrawing := isDrawing st; startPos := startPos st;
                currentDrag := currentDrag st; editingIdx := Some idx;
                editAction := Some move;
                dragOffset := Some {| pt_x := pt_x coords - x region;
                                      pt_y := pt_y coords - y region |} |}
    end.

Definition handleResizeMouseDown (st : State) (idx : nat) : State :=
  {| item := item st; isDrawing := isDrawing st; startPos := startPos st;
     currentDrag := currentDrag st; editingIdx := Some idx;
     editAction := Some resize; dragOffset := dragOffset st |}.

(** The delete button of region [idx]. *)
Definition removeRegion (st : State) (idx : nat) : State :=
  with_editingIdx (with_item st (setBlurRegions (item st) (remove_at idx))) None.

(** The confirm button. *)
Definition confirmRegion (st : State) : State := with_editingIdx st None.

(** The draw-mode button. *)
Definition toggleDrawing (st : State) : State :=
  {| item := item st; isDrawing := negb (isDrawing st); startPos := startPos st;
     currentDrag := currentDrag st; editingIdx := None;
     editAction := editAction st; dragOffset := dragOffset st |}.

(** What the user can do to the workspace. *)
Inductive Event :=
| MouseDown (coords : Point)
| RegionMouseDown (idx : nat) (coords : Point)
| ResizeMouseDown (idx : nat)
| MouseMove (coords : Point)
| MouseUp
| RemoveClick (idx : nat)
| ConfirmClick
| ToggleDrawing.

Definition step (st : State) (ev : Event) : option State :=
  match ev with
  | MouseDown coords => Some (handleMouseDown st coords false)
  | RegionMouseDown idx coords => handleRegionMouseDown st idx coords
  | ResizeMouseDown idx => Some (handleResizeMouseDown st idx)
  | MouseMove coords => handleMouseMove st coords
  | MouseUp => Some (handleMouseUp st)
  | RemoveClick idx => Some (removeRegion st idx)
  | ConfirmClick => Some (confirmRegion st)
  | ToggleDrawing => Some (toggleDrawing st)
  end.

(** The pointer is inside the frame. *)
Definition in_frame (p : Point) : Prop :=
  (0 <= pt_x p <= 100)%Q /\ (0 <= pt_y p <= 100)%Q.



(** The workspace on a fresh item. *)
Definition initialState (it : VideoQueueItem) : State :=
  {| item := it; isDrawing := false; startPos := None; currentDrag := None;
     editingIdx := None; editAction := None; dragOffset := None |}.





(** [mainBlur]: [reduce] without an initial value keeps, of two
    regions, the earlier one only when its [y] is strictly greater. *)
Definition lower (prev current : BlurRegion) : BlurRegion :=
  if Qgtb (y prev) (y current) then prev else current.

Definition mainBlur (regions : list BlurRegion) : option BlurRegion :=
  match regions with
  | [] => None
  | first :: rest => Some (fold_left lower rest first)
  end.

(** The bounding rectangle of the container, in client pixels. *)
Record DOMRect := mkDOMRect {
  rect_left : Q;
  rect_top : Q;
  rect_width : Q;
  rect_height : Q
}.

(** [getRelativeCoords]; without a mounted container it answers the
    origin. *)
Definition getRelativeCoords (container : option DOMRect) (clientX clientY : Q) : Point :=
  match container with
  | None => {| pt_x := 0; pt_y := 0 |}
  | Some rect =>
      {| pt_x := ((clientX - rect_left rect) / rect_width rect * 100)%Q;
         pt_y := ((clientY - rect_top rect) / rect_height rect * 100)%Q |}
  end.


(** The events [evs] in turn. *)
Fixpoint steps (st : State) (evs : list Event) : option State :=
  match evs with
  | [] => Some st
  | ev :: evs' =>
      match step st ev with
      | Some st1 => steps st1 evs'
      | None => None
      end
  end.

End RegionEditor.

(** ** Retry helper ([src/services/geminiService.ts]) *)

Module GeminiService.

(** What [withRetry] reads of a thrown value. *)
Record JsError := mkJsError {
  message : option string;
  err_status : option Z
}.

(** [String.prototype.includes]. *)
Fixpoint includes (s pat : string) : bool :=
  String.prefix pat s
  || match s with
     | EmptyString => false
     | String _ s' => includes s' pat
     end.

Definition isRateLimit (error : JsError) : bool :=
  match message error with
  | Some m => includes m "429" || includes m "quota"
  | None => false
  end
  || match err_status error with Some st => st =? 429 | None => false end.

Definition isServerError (error : JsError) : bool :=
  match err_status error with Some st => 500 <=? st | None => false end.

Definition retryable (error : JsError) : bool :=
  isRateLimit error || isServerError error.

(** How one call of [fn] settles. *)
Inductive Settled (T : Type) :=
| Resolved (value : T)
| Rejected (error : JsError).
Arguments Resolved {T} value.
Arguments Rejected {T} error.

(** How [withRetry] ends; the thrown value is [undefined] when the loop
    never ran. *)
Inductive Completion (T : Type) :=
| Returned (value : T)
| Thrown (error : option JsError).
Arguments Returned {T} value.
Arguments Thrown {T} error.

(** What the helper does to the outside, in order. *)
Inductive Effect :=
| Call (attempt : nat)
| Sleep (ms : Q).

(** [Math.pow(2, i) * 1000 + Math.random() * 1000], with [jitter] the
    value [Math.random()] gave. *)
Definition waitTime (i : nat) (jitter : Q) : Q :=
  (inject_Z (2 ^ Z.of_nat i) * 1000 + jitter * 1000)%Q.

(** The [for] loop from index [i] with [remaining] iterations to go.
    [fn i] is how the call in iteration [i] settles and [random i] what
    [Math.random()] returns there. *)
Fixpoint retryLoop {T} (fn : nat -> Settled T) (random : nat -> Q)
    (remaining i : nat) (lastError : option JsError) : Completion T * list Effect :=
  match remaining with
  | O => (Thrown lastError, [])
  | S remaining' =>
      match fn i with
      | Resolved value => (Returned value, [Call i])
      | Rejected error =>
          if retryable error
          then
            let '(completion, effects) :=
              retryLoop fn random remaining' (S i) (Some error) in
            (completion, Call i :: Sleep (waitTime i (random i)) :: effects)
          else (Thrown (Some error), [Call i])
      end
  end.

(** [withRetry(fn, maxRetries)]; the callers pass 3 (the default) or 5. *)
Definition withRetry {T} (fn : nat -> Settled T) (random : nat -> Q) (maxRetries : Z)
    : Completion T * list Effect :=
  retryLoop fn random (Z.to_nat maxRetries) 0 None.

(** The effects of [k] failed and retried attempts. *)
Definition retried (random : nat -> Q) (k : nat) : list Effect :=
  flat_map (fun i => [Call i; Sleep (waitTime i (random i))]) (seq 0 k).

(** The number of calls of [fn] among the effects. *)
Definition calls (effects : list Effect) : nat :=
  length (List.filter (fun e => match e with Call _ => true | Sleep _ => false end) effects).

(** The time spent sleeping, in milliseconds. *)
Fixpoint slept (effects : list Effect) : Q :=
  match effects with
  | [] => 0
  | Call _ :: effects' => slept effects'
  | Sleep ms :: effects' => (ms + slept effects')%Q
  end.

(** The error of call [i], if it was rejected. *)
Definition rejection {T} (fn : nat -> Settled T) (i : nat) : option JsError :=
  match fn i with
  | Rejected error => Some error
  | Resolved _ => None
  end.

End GeminiService.

(** ** Audio cueing ([src/components/VideoWorkspace.tsx]) *)

Module AudioCue.

(** The state of an [HTMLAudioElement] the effect touches. *)
Record HTMLAudioElement := mkAudio {
  src : string;
  currentTime : Q;
  paused : bool
}.

(** The audio elements alive, by identity, and the two refs of the
    component: [audioCache] and [activeAudio]. *)
Record State := mkState {
  elements : gmap nat HTMLAudioElement;
  audioCache : gmap string nat;
  activeAudio : option nat
}.

Definition initialState : State :=
  {| elements := ∅; audioCache := ∅; activeAudio := None |}.

(** [audio.pause()]. *)
Definition pause (audio : nat) (els : gmap nat HTMLAudioElement)
    : gmap nat HTMLAudioElement :=
  alter (fun a => {| src := src a; currentTime := currentTime a; paused := true |}) audio els.

(** [audio.currentTime = 0; audio.play().catch(() => {})]; a rejected
    [play] leaves the element paused. *)
Definition restart (playOk : bool) (audio : nat) (els : gmap nat HTMLAudioElement)
    : gmap nat HTMLAudioElement :=
  alter (fun a => {| src := src a; currentTime := 0; paused := negb playOk |}) audio els.

(** The [audioUrl] of the active subtitle when [!activeSub ||
    !activeSub.audioUrl] is false: present and not the empty string. *)
Definition cueUrl (activeSub : option SubtitleEntry) : option string :=
  match activeSub with
  | Some sub =>
      match audioUrl sub with
      | Some url => if String.eqb url "" then None else Some url
      | None => None
      end
  | None => None
  end.

(** [activeAudio.current?.src === url]. *)
Definition playing (st : State) (url : string) : bool :=
  match activeAudio st with
  | Some audio =>
      match elements st !! audio with
      | Some a => String.eqb (src a) url
      | None => false
      end
  | None => false
  end.

(** [if (activeAudio.current) activeAudio.current.pause()]. *)
Definition pauseActive (st : State) : gmap nat HTMLAudioElement :=
  match activeAudio st with
  | Some audio => pause audio (elements st)
  | None => elements st
  end.

(** The body of the cueing effect, run on every change of the active
    subtitle or of the time. *)
Definition cue (st : State) (activeSub : option SubtitleEntry) (playOk : bool) : State :=
  match cueUrl activeSub with
  | None =>
      match activeAudio st with
      | Some audio =>
          {| elements := pause audio (elements st); audioCache := audioCache st;
             activeAudio := None |}
      | None => st
      end
  | Some url =>
      if playing st url then st
      else
        let els := pauseActive st in
        match audioCache st !! url with
        | Some audio =>
            {| elements := restart playOk audio els; audioCache := audioCache st;
               activeAudio := Some audio |}
        | None =>
            let audio := fresh (dom els) in
            let created := {| src := url; currentTime := 0; paused := true |} in
            {| elements := restart playOk audio (<[audio := created]> els);
               audioCache := <[url := audio]> (audioCache st);
               activeAudio := Some audio |}
        end
  end.

(** The effect over successive renders, each with its active subtitle
    and with whether [play] succeeds. *)
Fixpoint run (st : State) (renders : list (option SubtitleEntry * bool)) : State :=
  match renders with
  | [] => st
  | (activeSub, playOk) :: renders' => run (cue st activeSub playOk) renders'
  end.

(** Every cached handle is a live element whose source is its key. *)
Definition built_from_key (st : State) : Prop :=
  forall url audio,
    audioCache st !! url = Some audio -> src <$> elements st !! audio = Some url.

(** No element but the active one is playing. *)
Definition exclusive (st : State) : Prop :=
  forall audio a,
    elements st !! audio = Some a -> paused a = false -> activeAudio st = Some audio.

End AudioCue.

(** ** Subtitle interchange format ([src/utils/srt.ts])

    The text functions work on the code units of a string, a
    [list ascii]; the two exported functions convert at their borders. *)

Module Srt.

Definition LF : ascii := "010"%char.

(** The white space and line terminators that [trim] strips and [\s]
    matches, among the 8-bit code units: tab, line feed, vertical tab,
    form feed, carriage return, space, no-break space. *)
Definition is_space (c : ascii) : bool :=
  let n := nat_of_ascii c in
  ((9 <=? n)%nat && (n <=? 13)%nat) || (n =? 32)%nat || (n =? 160)%nat.

(** [\d]. *)
Definition is_digit (c : ascii) : bool :=
  let n := nat_of_ascii c in (48 <=? n)%nat && (n <=? 57)%nat.

Definition ascii_eqb (a b : ascii) : bool := Ascii.eqb a b.

(** [String.prototype.trim]. *)
Fixpoint trimStart (s : list ascii) : list ascii :=
  match s with
  | c :: s' => if is_space c then trimStart s' else s
  | [] => []
  end.

Definition trimEnd (s : list ascii) : list ascii := rev (trimStart (rev s)).

Definition trim (s : list ascii) : list ascii := trimEnd (trimStart s).

(** [s.split(sep)] for a separator of one character. *)
Fixpoint split (s : list ascii) (sep : ascii) : list (list ascii) :=
  match s with
  | [] => [[]]
  | c :: s' =>
      if ascii_eqb c sep then [] :: split s' sep
      else
        match split s' sep with
        | piece :: pieces => (c :: piece) :: pieces
        | [] => [[c]]
        end
  end.

(** [pieces.join(sep)]. *)
Fixpoint join (pieces : list (list ascii)) (sep : list ascii) : list ascii :=
  match pieces with
  | [] => []
  | [piece] => piece
  | piece :: pieces' => piece ++ sep ++ join pieces' sep
  end.

(** The rest of [/\s*\n/] matched greedily at the head of [s]: the
    text after the last line feed of the run of white space [s] starts
    with, if that run has one. *)
Fixpoint after_blank (s : list ascii) : option (list ascii) :=
  match s with
  | c :: s' =>
      if is_space c
      then
        match after_blank s' with
        | Some rest => Some rest
        | None => if ascii_eqb c LF then Some s' else None
        end
      else None
  | [] => None
  end.

(** [/\n\s*\n/] matched at the head of [s]: what follows the match. *)
Definition separator_at (s : list ascii) : option (list ascii) :=
  match s with
  | c :: s' => if ascii_eqb c LF then after_blank s' else None
  | [] => None
  end.

(** [s.split(/\n\s*\n/)]: the pieces between the leftmost successive
    matches.  [skip] counts the characters of a match still to pass and
    [piece] holds the current piece, last character first. *)
Fixpoint splitBlocks (s : list ascii) (skip : nat) (piece : list ascii)
    : list (list ascii) :=
  match s with
  | [] => [rev piece]
  | c :: s' =>
      match skip with
      | S skip' => splitBlocks s' skip' piece
      | O =>
          match separator_at s with
          | Some rest => rev piece :: splitBlocks s' (length s' - length rest) []
          | None => splitBlocks s' 0 (c :: piece)
          end
      end
  end.

(** [(\d{2}:\d{2}:\d{2},\d{3})] at the head of [s]: the group and what
    follows it. *)
Definition timestamp_at (s : list ascii) : option (list ascii * list ascii) :=
  match s with
  | h1 :: h2 :: c1 :: m1 :: m2 :: c2 :: s1 :: s2 :: c3 :: f1 :: f2 :: f3 :: rest =>
      if is_digit h1 && is_digit h2 && ascii_eqb c1 ":"
         && is_digit m1 && is_digit m2 && ascii_eqb c2 ":"
         && is_digit s1 && is_digit s2 && ascii_eqb c3 ","
         && is_digit f1 && is_digit f2 && is_digit f3
      then Some ([h1; h2; c1; m1; m2; c2; s1; s2; c3; f1; f2; f3], rest)
      else None
  | _ => None
  end.

(** [ --> ] at the head of [s]. *)
Definition arrow_at (s : list ascii) : option (list ascii) :=
  match s with
  | a :: b :: c :: d :: e :: rest =>
      if ascii_eqb a " " && ascii_eqb b "-" && ascii_eqb c "-"
         && ascii_eqb d ">" && ascii_eqb e " "
      then Some rest else None
  | _ => None
  end.

(** The whole pattern of the time line at the head of [s]: groups 1
    and 2. *)
Definition timeLine_at (s : list ascii) : option (list ascii * list ascii) :=
  match timestamp_at s with
  | Some (from, rest) =>
      match arrow_at rest with
      | Some rest' =>
          match timestamp_at rest' with
          | Some (to, _) => Some (from, to)
          | None => None
          end
      | None => None
      end
  | None => None
  end.

(** [timeLine.match(...)]: the leftmost match. *)
Fixpoint timeLine_match (s : list ascii) : option (list ascii * list ascii) :=
  match timeLine_at s with
  | Some groups => Some groups
  | None =>
      match s with
      | [] => None
      | _ :: s' => timeLine_match s'
      end
  end.

(** [Number(s)] on a run of decimal digits, the only strings the
    pattern lets through; anything else ([NaN], or a literal outside the
    model) is [None]. *)
Fixpoint digits_value (acc : Z) (s : list ascii) : option Z :=
  match s with
  | [] => Some acc
  | c :: s' =>
      if is_digit c
      then digits_value (10 * acc + (Z.of_nat (nat_of_ascii c) - 48)) s'
      else None
  end.

Definition Number (s : list ascii) : option Q :=
  option_map inject_Z (digits_value 0 s).

Definition timestampToSeconds (srtTimestamp : list ascii) : option Q :=
  match split srtTimestamp "," with
  | time :: ms :: _ =>
      match List.map Number (split time ":"), Number ms with
      | Some h :: Some m :: Some s :: _, Some ms' =>
          Some (h * 3600 + m * 60 + s + ms' / 1000)%Q
      | _, _ => None
      end
  | _ => None
  end.

(** [n.toString()] of an integer. *)
Definition toString (n : Z) : list ascii :=
  list_ascii_of_string (NilZero.string_of_int (Z.to_int n)).





(** The callback of [blocks.forEach] in [parseSRT]: the entry a block
    contributes, if any.  [now] is what [Date.now()] returns. *)
Definition parseBlock (now : Z) (block : list ascii) (index : nat) : list SubtitleEntry :=
  let lines := split block LF in
  if (3 <=? length lines)%nat
  then
    match timeLine_match (nth 1 lines []) with
    | Some (from, to) =>
        match timestampToSeconds from, timestampToSeconds to with
        | Some startSeconds, Some endSeconds =>
            [ {| sub_id :=
                   string_of_list_ascii
                     (list_ascii_of_string "srt-" ++ toString (Z.of_nat index)
                      ++ ["-"%char] ++ toString now);
                 startTime := startSeconds;
                 endTime := endSeconds;
                 originalText := string_of_list_ascii (join (skipn 2 lines) [" "%char]);
                 translatedText := "";
                 audioUrl := None |} ]
        | _, _ => []
        end
    | None => []
    end
  else [].

Fixpoint parseBlocks (now : nat -> Z) (blocks : list (list ascii)) (index : nat)
    : list SubtitleEntry :=
  match blocks with
  | [] => []
  | block :: blocks' =>
      parseBlock (now index) block index ++ parseBlocks now blocks' (S index)
  end.

(** [parseSRT(content)]; [now index] is [Date.now()] while block
    [index] is handled. *)
Definition parseSRT (now : nat -> Z) (content : string) : list SubtitleEntry :=
  parseBlocks now (splitBlocks (trim (list_ascii_of_string content)) 0 []) 0.

(** [entry.translatedText || entry.originalText]. *)
Definition emitted (entry : SubtitleEntry) : string :=
  if String.eqb (translatedText entry) "" then originalText entry
  else translatedText entry.

















(** The id [parseSRT] gives the entry of block [index]. *)
Definition srtId (index : nat) (now : Z) : string :=
  string_of_list_ascii
    (list_ascii_of_string "srt-" ++ toString (Z.of_nat index) ++ ["-"%char] ++ toString now).

End Srt.

(** ** Service responses ([src/services/geminiService.ts])

    [cleanJson] on the code units of the response text. *)

Module CleanJson.
Import Srt.

(** [pat] at the head of [s]: what follows it. *)
Fixpoint stripPrefix (pat s : list ascii) : option (list ascii) :=
  match pat, s with
  | [], _ => Some s
  | p :: pat', c :: s' => if ascii_eqb p c then stripPrefix pat' s' else None
  | _ :: _, [] => None
  end.

(** [s.replace(/^fence\n?/, "")]. *)
Definition replaceHead (fence s : list ascii) : list ascii :=
  match stripPrefix fence s with
  | Some (c :: rest) => if ascii_eqb c LF then rest else c :: rest
  | Some [] => []
  | None => s
  end.

Definition backticks : list ascii := list_ascii_of_string "```".

(** [s.replace(/\n?```$/, "")]: the leftmost match takes the line feed
    before the closing fence when there is one. *)
Definition replaceTail (s : list ascii) : list ascii :=
  rev (replaceHead backticks (rev s)).

(** [s.indexOf(c)] and [s.lastIndexOf(c)]; [None] is [-1]. *)
Fixpoint indexOf (s : list ascii) (c : ascii) : option nat :=
  match s with
  | [] => None
  | a :: s' => if ascii_eqb a c then Some 0%nat else option_map S (indexOf s' c)
  end.

Definition lastIndexOf (s : list ascii) (c : ascii) : option nat :=
  option_map (fun i => (length s - 1 - i)%nat) (indexOf (rev s) c).

(** [Math.min(a === -1 ? Infinity : a, b === -1 ? Infinity : b)];
    [None] is [Infinity]. *)
Definition minIndex (a b : option nat) : option nat :=
  match a, b with
  | Some i, Some j => Some (Nat.min i j)
  | Some i, None => Some i
  | None, _ => b
  end.

(** [Math.max(a, b)] on indices; [None] is [-1]. *)
Definition maxIndex (a b : option nat) : option nat :=
  match a, b with
  | Some i, Some j => Some (Nat.max i j)
  | Some i, None => Some i
  | None, _ => b
  end.

(** [s.substring(start, finish)]: both ends are clamped to the length
    and swapped when the first is the greater. *)
Definition substring (s : list ascii) (start finish : nat) : list ascii :=
  let a := Nat.min start (length s) in
  let b := Nat.min finish (length s) in
  firstn (Nat.max a b - Nat.min a b) (skipn (Nat.min a b) s).

(** The value of [cleaned] after the four replacements. *)
Definition unfenced (text : list ascii) : list ascii :=
  let cleaned := trim text in
  let cleaned := replaceTail (replaceHead (list_ascii_of_string "```json") cleaned) in
  replaceTail (replaceHead backticks cleaned).

(** The rest of [cleanJson], from [cleaned]. *)
Definition bracketed (cleaned : list ascii) : list ascii :=
  let firstBracket := minIndex (indexOf cleaned "[") (indexOf cleaned "{") in
  let lastBracket := maxIndex (lastIndexOf cleaned "]") (lastIndexOf cleaned "}") in
  match firstBracket, lastBracket with
  | Some first, Some last => substring cleaned first (last + 1)
  | _, _ => cleaned
  end.

Definition cleanJson (text : string) : string :=
  string_of_list_ascii (bracketed (unfenced (list_ascii_of_string text))).

(** An opening and a closing bracket. *)
Definition isOpening (c : ascii) : bool := ascii_eqb c "[" || ascii_eqb c "{".
Definition isClosing (c : ascii) : bool := ascii_eqb c "]" || ascii_eqb c "}".

(** The index of the first element that satisfies [p]. *)
Fixpoint findIndex (p : ascii -> bool) (s : list ascii) : option nat :=
  match s with
  | [] => None
  | a :: s' => if p a then Some 0%nat else option_map S (findIndex p s')
  end.

End CleanJson.

(** ** Voice-over container ([src/services/geminiService.ts])

    [pcmToWav] between [atob] and [btoa]: from the binary string of the
    samples to the binary string of the file.  A binary string has one
    8-bit code unit for each byte. *)

Module Wav.

(** Byte [k] of [value], counted from the least significant one. *)
Definition byteAt (value : Z) (k : nat) : Z := (value / 256 ^ Z.of_nat k) mod 256.

(** Storing [bytes] into the buffer from [offset] on; every offset the
    function uses lies within its buffer of 44 bytes. *)
Fixpoint store (offset : nat) (bytes buffer : list Z) : list Z :=
  match bytes with
  | [] => buffer
  | b :: bytes' => store (S offset) bytes' (<[offset := b]> buffer)
  end.

(** [view.setUint32(offset, value, littleEndian)] and
    [view.setUint16(offset, value, littleEndian)]. *)
Definition setUint32 (offset : nat) (value : Z) (littleEndian : bool) (view : list Z)
    : list Z :=
  let v := value mod 2 ^ 32 in
  let bytes := [byteAt v 0; byteAt v 1; byteAt v 2; byteAt v 3] in
  store offset (if littleEndian then bytes else rev bytes) view.

Definition setUint16 (offset : nat) (value : Z) (littleEndian : bool) (view : list Z)
    : list Z :=
  let v := value mod 2 ^ 16 in
  let bytes := [byteAt v 0; byteAt v 1] in
  store offset (if littleEndian then bytes else rev bytes) view.

(** The 44 bytes of [wavHeader] once the thirteen fields are set. *)
Definition wavHeader (len sampleRate : Z) : list Z :=
  let view := repeat 0 44 in
  let view := setUint32 0 0x52494646 false view in
  let view := setUint32 4 (36 + len) true view in
  let view := setUint32 8 0x57415645 false view in
  let view := setUint32 12 0x666d7420 false view in
  let view := setUint32 16 16 true view in
  let view := setUint16 20 1 true view in
  let view := setUint16 22 1 true view in
  let view := setUint32 24 sampleRate true view in
  let view := setUint32 28 (sampleRate * 1 * 16 / 8) true view in
  let view := setUint16 32 (1 * 16 / 8) true view in
  let view := setUint16 34 16 true view in
  let view := setUint32 36 0x64617461 false view in
  setUint32 40 len true view.

(** [charCodeAt] and [String.fromCharCode] on bytes. *)
Definition charCodeAt (c : ascii) : Z := Z.of_nat (nat_of_ascii c).
Definition fromCharCode (b : Z) : ascii := ascii_of_nat (Z.to_nat b).

(** [combined], the bytes of the file. *)
Definition combined (binaryString : list ascii) (sampleRate : Z) : list Z :=
  let len := Z.of_nat (length binaryString) in
  let bytes := List.map charCodeAt binaryString in
  wavHeader len sampleRate ++ bytes.

(** [binary], the string handed to [btoa]. *)
Definition pcmToWav (binaryString : list ascii) (sampleRate : Z) : list ascii :=
  List.map fromCharCode (combined binaryString sampleRate).

(** Reading the file back: a little-endian number and a four-character
    tag at an offset. *)
Fixpoint littleEndian (bytes : list ascii) : Z :=
  match bytes with
  | [] => 0
  | b :: bytes' => charCodeAt b + 256 * littleEndian bytes'
  end.

Definition uint32At (wav : list ascii) (offset : nat) : Z :=
  littleEndian (firstn 4 (skipn offset wav)).

Definition uint16At (wav : list ascii) (offset : nat) : Z :=
  littleEndian (firstn 2 (skipn offset wav)).

Definition tagAt (wav : list ascii) (offset : nat) : string :=
  string_of_list_ascii (firstn 4 (skipn offset wav)).

(** The fields of the header in the order of the file. *)
Definition le32 (value : Z) : list Z :=
  let v := value mod 2 ^ 32 in [byteAt v 0; byteAt v 1; byteAt v 2; byteAt v 3].

Definition le16 (value : Z) : list Z :=
  let v := value mod 2 ^ 16 in [byteAt v 0; byteAt v 1].

End Wav.

(** ** Translation in chunks ([src/services/geminiService.ts])

    [translateSubtitles], with the outcome of the request for each chunk
    (the [withRetry] around the remote call and [JSON.parse]) as an
    input, and the chunks requested as a trace. *)

Module Translate.
Import GeminiService.

(** An element of the parsed answer. *)
Record Translation := mkTranslation {
  t_id : string;
  t_translatedText : string
}.

Definition chunkSize : nat := 15.

(** [arr.slice(from, to)] for [from <= to]. *)
Definition slice {A} (arr : list A) (from to : nat) : list A :=
  firstn (to - from) (skipn from arr).

(** The [for] loop from index [i]; [respond k] is how request number
    [k] ends.  The loop runs at most once for each subtitle. *)
Fixpoint requestChunks (respond : nat -> Settled (list Translation))
    (subtitles : list SubtitleEntry) (fuel i k : nat) (results : list Translation)
    : Settled (list Translation) * list (list SubtitleEntry) :=
  match fuel with
  | O => (Resolved results, [])
  | S fuel' =>
      if (i <? length subtitles)%nat
      then
        let chunk := slice subtitles i (i + chunkSize) in
        match respond k with
        | Resolved chunkResults =>
            let '(outcome, requested) :=
              requestChunks respond subtitles fuel' (i + chunkSize) (S k)
                (results ++ chunkResults) in
            (outcome, chunk :: requested)
        | Rejected error => (Rejected error, [chunk])
        end
      else (Resolved results, [])
  end.

(** [sub.translatedText || sub.originalText]. *)
Definition fallback (sub : SubtitleEntry) : string :=
  if String.eqb (translatedText sub) "" then originalText sub else translatedText sub.

(** The callback of the final [subtitles.map]. *)
Definition merged (results : list Translation) (sub : SubtitleEntry) : SubtitleEntry :=
  let t := Resolver.find (fun x => String.eqb (t_id x) (sub_id sub)) results in
  {| sub_id := sub_id sub; startTime := startTime sub; endTime := endTime sub;
     originalText := originalText sub;
     translatedText :=
       match t with
       | Some t => t_translatedText t
       | None => fallback sub
       end;
     audioUrl := audioUrl sub |}.

Definition translateSubtitles (respond : nat -> Settled (list Translation))
    (subtitles : list SubtitleEntry)
    : Settled (list SubtitleEntry) * list (list SubtitleEntry) :=
  match requestChunks respond subtitles (length subtitles) 0 0 [] with
  | (Resolved results, requested) => (Resolved (List.map (merged results) subtitles), requested)
  | (Rejected error, requested) => (Rejected error, requested)
  end.

(** The answers of the first [n] requests, in order. *)
Fixpoint answers (respond : nat -> Settled (list Translation)) (k n : nat)
    : list Translation :=
  match n with
  | O => []
  | S n' =>
      match respond k with
      | Resolved chunkResults => chunkResults ++ answers respond (S k) n'
      | Rejected _ => answers respond (S k) n'
      end
  end.

End Translate.

(** ** Processing pipeline ([src/App.tsx])

    [processVideo] on the item it finds at [index], with how each step
    it awaits ends as an input and the steps awaited as a trace.  The
    writes it makes go to the item alone; the progress counters are not
    part of the model. *)

Module Pipeline.
Import GeminiService.

(** The steps [processVideo] awaits.  [generateVoiceover i text] is the
    call for subtitle [i]. *)
Record Services := mkServices {
  fileToBase64 : Settled string;
  extractSubtitlesFromVideo : Settled (list SubtitleEntry);
  translateSubtitles : list SubtitleEntry -> Settled (list SubtitleEntry);
  generateVoiceover : nat -> string -> Settled string
}.

Inductive Await :=
| ReadFile
| Extract
| Translate (subs : list SubtitleEntry)
| Pause
| Voice (i : nat) (text : string).

(** What [setErrorMsg] is given: the text about missing regions, the
    text about the quota, or [err.message]. *)
Inductive ErrorMsg :=
| NoRegionsMsg
| QuotaMsg
| ErrMessage (message : option string).

Record Outcome := mkOutcome {
  out_item : VideoQueueItem;
  errorMsg : option ErrorMsg;
  drawingRequested : bool;
  awaited : list Await
}.

(** [{ ...translated[i], audioUrl: audio }]. *)
Definition withAudio (sub : SubtitleEntry) (audio : string) : SubtitleEntry :=
  {| sub_id := sub_id sub; startTime := startTime sub; endTime := endTime sub;
     originalText := originalText sub; translatedText := translatedText sub;
     audioUrl := Some audio |}.

(** The voice-over loop from subtitle [i] on. *)
Fixpoint voiceLoop (voice : nat -> string -> Settled string)
    (translated : list SubtitleEntry) (i : nat) (finalizedSubs : list SubtitleEntry)
    : Settled (list SubtitleEntry) * list Await :=
  match translated with
  | [] => (Resolved finalizedSubs, [])
  | sub :: translated' =>
      let pause := if (0 <? i)%nat then [Pause] else [] in
      match voice i (translatedText sub) with
      | Resolved audio =>
          let '(outcome, steps) :=
            voiceLoop voice translated' (S i) (finalizedSubs ++ [withAudio sub audio]) in
          (outcome, pause ++ Voice i (translatedText sub) :: steps)
      | Rejected error => (Rejected error, pause ++ [Voice i (translatedText sub)])
      end
  end.

(** The [catch] block. *)
Definition failed (item : VideoQueueItem) (err : JsError) (steps : list Await) : Outcome :=
  {| out_item := History.writeSubtitles item ERROR (subtitles item);
     errorMsg :=
       Some match message err with
            | Some m => if includes m "429" then QuotaMsg else ErrMessage (Some m)
            | None => ErrMessage None
            end;
     drawingRequested := false;
     awaited := steps |}.

Definition processVideo (item : VideoQueueItem) (sv : Services) : Outcome :=
  match blurRegions item with
  | [] =>
      {| out_item := item; errorMsg := Some NoRegionsMsg; drawingRequested := true;
         awaited := [] |}
  | _ :: _ =>
      let item1 := History.writeSubtitles item EXTRACTING (subtitles item) in
      match fileToBase64 sv with
      | Rejected err => failed item1 err [ReadFile]
      | Resolved _ =>
          let '(extracted, steps1) :=
            match subtitles item with
            | _ :: _ => (Resolved (subtitles item), [ReadFile])
            | [] => (extractSubtitlesFromVideo sv, [ReadFile; Extract])
            end in
          match extracted with
          | Rejected err => failed item1 err steps1
          | Resolved subs =>
              let item2 := History.writeSubtitles item1 TRANSLATING subs in
              let steps2 := steps1 ++ [Translate subs] in
              match translateSubtitles sv subs with
              | Rejected err => failed item2 err steps2
              | Resolved translated =>
                  let item3 := History.writeSubtitles item2 GENERATING_VOICE translated in
                  match voiceLoop (generateVoiceover sv) translated 0 [] with
                  | (Rejected err, steps3) => failed item3 err (steps2 ++ steps3)
                  | (Resolved finalizedSubs, steps3) =>
                      {| out_item := History.writeSubtitles item3 COMPLETED finalizedSubs;
                         errorMsg := None; drawingRequested := false;
                         awaited := steps2 ++ steps3 |}
                  end
              end
          end
      end
  end.

(** The voice-over calls among the steps. *)
Definition voiceCalls (steps : list Await) : list (nat * string) :=
  flat_map (fun s => match s with Voice i text => [(i, text)] | _ => [] end) steps.

End Pipeline.

(** ** Subtitle import ([src/App.tsx]) *)

Module SrtImport.

(** [handleSrtImport] on the active item, from the text of the file;
    [now] is the clock [parseSRT] reads. *)
Definition handleSrtImport (item : VideoQueueItem) (now : nat -> Z) (text : string)
    : VideoQueueItem :=
  let subs := Srt.parseSRT now text in
  History.updateActiveVideo item
    {| u_status := None; u_subtitles := Some subs; u_blurRegions := None;
       u_fontFamily := None; u_fontSize := None |}.

End SrtImport.

(** * Properties *)

(** ** Arrays *)

Lemma js_index_nth {A} (arr : list A) (i : Z) :
  0 <= i -> js_index arr i = nth_error arr (Z.to_nat i).
Proof.
  intros Hi. unfold js_index.
  destruct (Z.ltb_spec i 0); [lia | reflexivity].
Qed.

Lemma js_index_Some_range {A} (arr : list A) (i : Z) (a : A) :
  js_index arr i = Some a -> 0 <= i < Z.of_nat (length arr).
Proof.
  unfold js_index. destruct (Z.ltb_spec i 0); [discriminate |].
  intros Hn. assert (Z.to_nat i < length arr)%nat.
  { apply nth_error_Some. congruence. }
  lia.
Qed.

Lemma js_index_in_range {A} (arr : list A) (i : Z) :
  0 <= i < Z.of_nat (length arr) -> exists a, js_index arr i = Some a.
Proof.
  intros Hi. rewrite js_index_nth by lia.
  destruct (nth_error arr (Z.to_nat i)) eqn:E; [eauto |].
  apply nth_error_None in E. lia.
Qed.

Lemma slice0_cursor {A} (arr : list A) (i : Z) :
  0 <= i < Z.of_nat (length arr) ->
  slice0 arr (i + 1) = firstn (S (Z.to_nat i)) arr
  /\ length (slice0 arr (i + 1)) = S (Z.to_nat i).
Proof.
  intros Hi. unfold slice0.
  destruct (Z.ltb_spec (i + 1) 0); [lia |].
  replace (Z.to_nat (i + 1)) with (S (Z.to_nat i)) by lia.
  split; [reflexivity |]. rewrite length_firstn. lia.
Qed.

Lemma firstn_S_last {A} (arr : list A) (n : nat) (a : A) :
  nth_error arr n = Some a -> nth_error (firstn (S n) arr) n = Some a.
Proof.
  revert arr. induction n as [| n IH]; intros [| b arr]; simpl; try discriminate; auto.
Qed.

Lemma nth_error_tl {A} (arr : list A) (n : nat) :
  nth_error (tl arr) n = nth_error arr (S n).
Proof. destruct arr; [destruct n |]; reflexivity. Qed.

Lemma length_tl {A} (arr : list A) : length (tl arr) = pred (length arr).
Proof. destruct arr; reflexivity. Qed.

Lemma nth_error_snoc {A} (arr : list A) (a : A) :
  nth_error (arr ++ [a]) (length arr) = Some a.
Proof. rewrite nth_error_app2 by lia. rewrite Nat.sub_diag. reflexivity. Qed.

Lemma firstn_whole {A} (arr : list A) (n : nat) :
  (length arr <= n)%nat -> firstn n arr = arr.
Proof. apply firstn_all2. Qed.

(** ** History manager *)

Section HistoryFacts.
Import History.

Lemma pushed_shape (item : VideoQueueItem) subs regions :
  0 <= historyIndex item < Z.of_nat (length (history item)) ->
  let newState := {| hs_subtitles := subs; hs_blurRegions := regions |} in
  let kept := firstn (S (Z.to_nat (historyIndex item))) (history item) in
  pushed item subs regions =
    if 50 <=? historyIndex item + 1
    then (tl kept ++ [newState], historyIndex item)
    else (kept ++ [newState], historyIndex item + 1).
Proof.
  intros Hi newState kept. unfold pushed.
  destruct (slice0_cursor (history item) (historyIndex item) Hi) as [-> Hlen].
  fold kept. fold kept in Hlen. rewrite Hlen.
  replace (Z.of_nat (S (Z.to_nat (historyIndex item)))) with (historyIndex item + 1) by lia.
  destruct (Z.leb_spec 50 (historyIndex item + 1)); unfold shift.
  - rewrite length_tl, Hlen. f_equal. lia.
  - rewrite Hlen. f_equal. lia.
Qed.

Lemma pushed_current (item : VideoQueueItem) subs regions :
  js_index (fst (pushed item subs regions)) (snd (pushed item subs regions))
  = Some {| hs_subtitles := subs; hs_blurRegions := regions |}.
Proof.
  unfold pushed. simpl. rewrite js_index_nth by lia.
  rewrite Nat2Z.id. apply nth_error_snoc.
Qed.

Lemma pushed_previous (item : VideoQueueItem) subs regions prev :
  current item = Some prev ->
  1 <= snd (pushed item subs regions)
  /\ js_index (fst (pushed item subs regions)) (snd (pushed item subs regions) - 1)
     = Some prev.
Proof.
  intros Hcur. pose proof (js_index_Some_range _ _ _ Hcur) as Hi.
  unfold current in Hcur. rewrite js_index_nth in Hcur by lia.
  rewrite (pushed_shape item subs regions Hi).
  set (kept := firstn (S (Z.to_nat (historyIndex item))) (history item)).
  assert (Hk : length kept = S (Z.to_nat (historyIndex item))).
  { unfold kept. rewrite length_firstn. lia. }
  assert (Hlast : nth_error kept (Z.to_nat (historyIndex item)) = Some prev).
  { unfold kept. apply firstn_S_last, Hcur. }
  destruct (Z.leb_spec 50 (historyIndex item + 1)); simpl.
  - split; [lia |]. rewrite js_index_nth by lia.
    rewrite nth_error_app1 by (rewrite length_tl, Hk; lia).
    rewrite nth_error_tl.
    replace (S (Z.to_nat (historyIndex item - 1))) with (Z.to_nat (historyIndex item)) by lia.
    exact Hlast.
  - split; [lia |]. rewrite js_index_nth by lia.
    replace (historyIndex item + 1 - 1) with (historyIndex item) by lia.
    rewrite nth_error_app1 by lia. exact Hlast.
Qed.

Lemma pushed_wf (item : VideoQueueItem) subs regions :
  wf item ->
  0 <= snd (pushed item subs regions) < Z.of_nat (length (fst (pushed item subs regions)))
  /\ (length (fst (pushed item subs regions)) <= 50)%nat.
Proof.
  intros [Hi Hcap]. rewrite (pushed_shape item subs regions Hi).
  set (kept := firstn (S (Z.to_nat (historyIndex item))) (history item)).
  assert (Hk : length kept = S (Z.to_nat (historyIndex item))).
  { unfold kept. rewrite length_firstn. lia. }
  destruct (Z.leb_spec 50 (historyIndex item + 1)); simpl;
    rewrite length_app; try rewrite length_tl; rewrite Hk; simpl; lia.
Qed.

Lemma updateActiveVideo_history (item : VideoQueueItem) updates :
  (history (updateActiveVideo item updates), historyIndex (updateActiveVideo item updates))
  = if changes item updates
    then pushed item (or_else (u_subtitles updates) (subtitles item))
                     (or_else (u_blurRegions updates) (blurRegions item))
    else (history item, historyIndex item).
Proof.
  unfold updateActiveVideo.
  destruct (changes item updates); [| reflexivity].
  destruct (pushed _ _ _); reflexivity.
Qed.

Lemma updateActiveVideo_subtitles (item : VideoQueueItem) updates :
  subtitles (updateActiveVideo item updates)
  = or_else (u_subtitles updates) (subtitles item).
Proof.
  unfold updateActiveVideo.
  destruct (if changes item updates then _ else _); reflexivity.
Qed.

Lemma updateActiveVideo_blurRegions (item : VideoQueueItem) updates :
  blurRegions (updateActiveVideo item updates)
  = or_else (u_blurRegions updates) (blurRegions item).
Proof.
  unfold updateActiveVideo.
  destruct (if changes item updates then _ else _); reflexivity.
Qed.

Lemma updateActiveVideo_wf (item : VideoQueueItem) updates :
  wf item -> wf (updateActiveVideo item updates).
Proof.
  intros Hwf. unfold wf.
  pose proof (updateActiveVideo_history item updates) as E.
  destruct (changes item updates).
  - pose proof (pushed_wf item (or_else (u_subtitles updates) (subtitles item))
                  (or_else (u_blurRegions updates) (blurRegions item)) Hwf) as P.
    rewrite <- E in P. exact P.
  - injection E as -> ->. exact Hwf.
Qed.

Lemma pushToHistory_wf (item : VideoQueueItem) subs regions :
  wf item -> wf (pushToHistory item subs regions).
Proof.
  intros Hwf. pose proof (pushed_wf item subs regions Hwf) as P.
  unfold wf, pushToHistory. destruct (pushed item subs regions). exact P.
Qed.

Lemma restore_wf (item item' : VideoQueueItem) (i : Z) :
  (length (history item) <= 50)%nat -> restore item i = Some item' -> wf item'.
Proof.
  intros Hcap. unfold restore.
  destruct (js_index (history item) i) eqn:E; [| discriminate].
  intros [= <-]. split; simpl; [eapply js_index_Some_range; eauto | exact Hcap].
Qed.

Lemma step_wf (item : VideoQueueItem) (op : Op) :
  wf item -> exists item', step item op = Some item' /\ wf item'.
Proof.
  intros Hwf. destruct op as [updates | subs regions | | | st subs]; simpl.
  - eexists; split; [reflexivity | apply updateActiveVideo_wf, Hwf].
  - eexists; split; [reflexivity | apply pushToHistory_wf, Hwf].
  - unfold undo. destruct (Z.leb_spec (historyIndex item) 0); [eauto |].
    destruct Hwf as [Hi Hcap].
    destruct (js_index_in_range (history item) (historyIndex item - 1)) as [s Hs]; [lia |].
    assert (E : restore item (historyIndex item - 1) <> None)
      by (unfold restore; rewrite Hs; discriminate).
    destruct (restore item (historyIndex item - 1)) as [item' |] eqn:R; [| congruence].
    exists item'. split; [reflexivity | eapply restore_wf; eauto].
  - unfold redo.
    destruct (Z.leb_spec (Z.of_nat (length (history item)) - 1) (historyIndex item)); [eauto |].
    destruct Hwf as [Hi Hcap].
    destruct (js_index_in_range (history item) (historyIndex item + 1)) as [s Hs]; [lia |].
    assert (E : restore item (historyIndex item + 1) <> None)
      by (unfold restore; rewrite Hs; discriminate).
    destruct (restore item (historyIndex item + 1)) as [item' |] eqn:R; [| congruence].
    exists item'. split; [reflexivity | eapply restore_wf; eauto].
  - eexists; split; [reflexivity | exact Hwf].
Qed.

Lemma run_wf (ops : list Op) (item : VideoQueueItem) :
  wf item -> exists item', run item ops = Some item' /\ wf item'.
Proof.
  revert item. induction ops as [| op ops IH]; intros item Hwf; simpl.
  - eauto.
  - destruct (step_wf item op Hwf) as (item1 & -> & Hwf1). apply IH, Hwf1.
Qed.

Lemma initialItem_wf ff fs : wf (initialItem ff fs).
Proof. unfold wf; simpl; lia. Qed.

Lemma pushed_refines_spec (item : VideoQueueItem) subs regions :
  wf item ->
  pushed item subs regions
  = spec_commit (history item) (historyIndex item)
      {| hs_subtitles := subs; hs_blurRegions := regions |}.
Proof.
  intros [Hi Hcap]. rewrite (pushed_shape item subs regions Hi). unfold spec_commit.
  replace (Z.to_nat (historyIndex item + 1)) with (S (Z.to_nat (historyIndex item))) by lia.
  set (kept := firstn (S (Z.to_nat (historyIndex item))) (history item)).
  assert (Hk : length kept = S (Z.to_nat (historyIndex item))).
  { unfold kept. rewrite length_firstn. lia. }
  rewrite length_app, Hk. simpl length.
  destruct (Z.leb_spec 50 (historyIndex item + 1));
    destruct (Z.ltb_spec 50 (Z.of_nat (S (Z.to_nat (historyIndex item)) + 1))); try lia.
  - f_equal; [| lia]. destruct kept; [discriminate | reflexivity].
  - reflexivity.
Qed.

Lemma SubtitleEntry_eqb_equiv (a b : SubtitleEntry) :
  SubtitleEntry_equiv a b -> SubtitleEntry_eqb a b = true.
Proof.
  intros (Hid & Hs & He & Ho & Ht & Ha). unfold SubtitleEntry_eqb.
  rewrite Hid, Ho, Ht, Ha, !String.eqb_refl.
  apply Qeq_bool_iff in Hs, He. rewrite Hs, He. simpl.
  destruct (audioUrl b); simpl; [apply String.eqb_refl | reflexivity].
Qed.

Lemma BlurRegion_eqb_equiv (a b : BlurRegion) :
  BlurRegion_equiv a b -> BlurRegion_eqb a b = true.
Proof.
  intros (Hx & Hy & Hw & Hh). unfold BlurRegion_eqb.
  apply Qeq_bool_iff in Hx, Hy, Hw, Hh. rewrite Hx, Hy, Hw, Hh. reflexivity.
Qed.

Lemma list_eqb_Forall2 {A} (eqb : A -> A -> bool) (R : A -> A -> Prop) (l1 l2 : list A) :
  (forall a b, R a b -> eqb a b = true) -> Forall2 R l1 l2 -> list_eqb eqb l1 l2 = true.
Proof.
  intros HR H. induction H as [| a b l1 l2 Hab _ IH]; simpl; [reflexivity |].
  rewrite (HR _ _ Hab), IH. reflexivity.
Qed.

Lemma SubtitleEntry_equiv_refl (a : SubtitleEntry) : SubtitleEntry_equiv a a.
Proof. unfold SubtitleEntry_equiv. repeat split; reflexivity. Qed.

Lemma BlurRegion_equiv_refl (a : BlurRegion) : BlurRegion_equiv a a.
Proof. unfold BlurRegion_equiv. repeat split; reflexivity. Qed.

Lemma json_eq_subtitles_refl (l : list SubtitleEntry) : json_eq_subtitles l l = true.
Proof.
  apply (list_eqb_Forall2 _ SubtitleEntry_equiv); [apply SubtitleEntry_eqb_equiv |].
  induction l; constructor; auto using SubtitleEntry_equiv_refl.
Qed.

Lemma json_eq_regions_refl (l : list BlurRegion) : json_eq_regions l l = true.
Proof.
  apply (list_eqb_Forall2 _ BlurRegion_equiv); [apply BlurRegion_eqb_equiv |].
  induction l; constructor; auto using BlurRegion_equiv_refl.
Qed.

(** C1. After a value-changing commit on a session whose cursor
    addresses a snapshot [prev] (commit N-1), the history holds the
    committed pair under the cursor (commit N); [undo] then succeeds and
    loads exactly the subtitles and regions of [prev], leaving the cursor
    on [prev]; a following [redo] succeeds and loads exactly the pair
    that [undo] replaced, with history and cursor as after the commit. *)
Theorem undo_redo_after_commit
    (item : VideoQueueItem) (updates : Updates) (prev : HistoryState) :
  current item = Some prev ->
  changes item updates = true ->
  let committed := updateActiveVideo item updates in
  current committed
  = Some {| hs_subtitles := subtitles committed; hs_blurRegions := blurRegions committed |}
  /\ exists undone redone,
       undo committed = Some undone /\ redo undone = Some redone
       /\ subtitles undone = hs_subtitles prev
       /\ blurRegions undone = hs_blurRegions prev
       /\ current undone = Some prev
       /\ historyIndex undone = historyIndex committed - 1
       /\ subtitles redone = subtitles committed
       /\ blurRegions redone = blurRegions committed
       /\ history redone = history committed
       /\ historyIndex redone = historyIndex committed.
Proof.
  intros Hprev Hch committed.
  set (subs := or_else (u_subtitles updates) (subtitles item)).
  set (regions := or_else (u_blurRegions updates) (blurRegions item)).
  pose proof (updateActiveVideo_history item updates) as E. rewrite Hch in E.
  fold committed subs regions in E.
  assert (Hs : subtitles committed = subs) by apply updateActiveVideo_subtitles.
  assert (Hr : blurRegions committed = regions) by apply updateActiveVideo_blurRegions.
  pose proof (pushed_current item subs regions) as Hcur.
  destruct (pushed_previous item subs regions prev Hprev) as [Hge Hbelow].
  rewrite <- E in Hcur, Hge, Hbelow. simpl fst in *. simpl snd in *.
  pose proof (js_index_Some_range _ _ _ Hcur) as Hrange.
  split; [rewrite Hs, Hr; exact Hcur |].
  unfold undo. destruct (Z.leb_spec (historyIndex committed) 0); [lia |].
  unfold restore at 1. rewrite Hbelow.
  eexists. eexists. split; [reflexivity |].
  unfold redo. cbn [history historyIndex].
  destruct (Z.leb_spec (Z.of_nat (length (history committed)) - 1)
              (historyIndex committed - 1)); [lia |].
  unfold restore. cbn [history historyIndex].
  replace (historyIndex committed - 1 + 1) with (historyIndex committed) by lia.
  rewrite Hcur. split; [reflexivity |].
  cbn. rewrite Hs, Hr. repeat split; try reflexivity. exact Hbelow.
Qed.

(** C1, at a concrete input: the first drawn region on a fresh item. *)
Lemma undo_redo_after_commit_witness :
  let item := initialItem "Inter" 18 in
  let region := {| x := 10; y := 80; width := 30; height := 15 |} in
  let committed := commit item [] [region] in
  exists undone redone,
    undo committed = Some undone /\ redo undone = Some redone
    /\ blurRegions undone = [] /\ blurRegions redone = [region].
Proof.
  intros item region committed.
  destruct (undo_redo_after_commit item
              {| u_status := None; u_subtitles := Some []; u_blurRegions := Some [region];
                 u_fontFamily := None; u_fontSize := None |}
              {| hs_subtitles := []; hs_blurRegions := [] |})
    as (_ & undone & redone & Hu & Hr & _ & Hb & _ & _ & _ & Hb' & _).
  - reflexivity.
  - reflexivity.
  - exists undone, redone. repeat split; assumption.
Defined.

(** C2. Whatever operations a fresh item has gone through (updates,
    pushes, undo, redo, writes past the history), every one of them
    succeeds, the history never holds more than 50 snapshots and the
    cursor addresses one of them; a further update keeps this, and when
    it changes the value it does what the specification words say
    (truncate, append, advance, then evict the oldest and decrement the
    cursor if the cap is exceeded): the committed pair is under the
    cursor with or without eviction, and with eviction the history is the
    old one without its first snapshot, followed by the new one. *)
Theorem history_bounded_by_cap
    (ff : string) (fs : Q) (ops : list Op) (updates : Updates) :
  exists item,
    run (initialItem ff fs) ops = Some item
    /\ wf item
    /\ let item' := updateActiveVideo item updates in
       let newState :=
         {| hs_subtitles := subtitles item'; hs_blurRegions := blurRegions item' |} in
       wf item'
       /\ if changes item updates
          then (history item', historyIndex item')
               = spec_commit (history item) (historyIndex item) newState
               /\ current item' = Some newState
               /\ if 50 <=? historyIndex item + 1
                  then history item' = tl (history item) ++ [newState]
                       /\ historyIndex item' = historyIndex item + 1 - 1
                       /\ length (history item') = 50%nat
                  else history item'
                       = firstn (Z.to_nat (historyIndex item + 1)) (history item) ++ [newState]
                       /\ historyIndex item' = historyIndex item + 1
          else history item' = history item /\ historyIndex item' = historyIndex item.
Proof.
  destruct (run_wf ops (initialItem ff fs) (initialItem_wf ff fs)) as (item & Hrun & Hwf).
  exists item. split; [exact Hrun |]. split; [exact Hwf |].
  intros item' newState. split; [apply updateActiveVideo_wf, Hwf |].
  pose proof (updateActiveVideo_history item updates) as E. fold item' in E.
  destruct (changes item updates) eqn:Hch.
  - set (subs := or_else (u_subtitles updates) (subtitles item)) in *.
    set (regions := or_else (u_blurRegions updates) (blurRegions item)) in *.
    assert (HnS : newState = {| hs_subtitles := subs; hs_blurRegions := regions |}).
    { unfold newState, item'.
      rewrite updateActiveVideo_subtitles, updateActiveVideo_blurRegions. reflexivity. }
    split; [rewrite E, HnS; apply pushed_refines_spec, Hwf |].
    split.
    { pose proof (pushed_current item subs regions) as Hcur.
      rewrite <- E in Hcur. rewrite HnS. exact Hcur. }
    destruct Hwf as [Hi Hcap].
    rewrite (pushed_shape item subs regions Hi) in E. rewrite HnS.
    replace (Z.to_nat (historyIndex item + 1)) with (S (Z.to_nat (historyIndex item))) by lia.
    destruct (Z.leb_spec 50 (historyIndex item + 1)).
    + injection E as -> ->.
      rewrite firstn_whole by lia.
      split; [reflexivity |]. split; [lia |].
      rewrite length_app, length_tl. simpl. lia.
    + injection E as -> ->. split; reflexivity.
  - injection E as -> ->. split; reflexivity.
Qed.



End HistoryFacts.

(** ** The history manager on object references *)

Section RefsFacts.
Import Refs.


Lemma spread_elems_copy (store : Store) (arr : nat) :
  elems (fst (spread store arr)) (snd (spread store arr)) = elems store arr.
Proof. unfold spread, elems. cbn. rewrite lookup_insert_eq. reflexivity. Qed.

Lemma spread_elems_old (store : Store) (arr a : nat) :
  a ∈ dom (arrays store) -> elems (fst (spread store arr)) a = elems store a.
Proof.
  intros Ha. unfold spread, elems. cbn.
  rewrite lookup_insert_ne; [reflexivity |].
  intros <-. exact (is_fresh _ Ha).
Qed.

Lemma spread_dom (store : Store) (arr : nat) :
  dom (arrays (fst (spread store arr))) = {[snd (spread store arr)]} ∪ dom (arrays store).
Proof. unfold spread. cbn. apply dom_insert_L. Qed.

Lemma spread_objects (store : Store) (arr : nat) :
  subtitleObjects (fst (spread store arr)) = subtitleObjects store
  /\ regionObjects (fst (spread store arr)) = regionObjects store.
Proof. split; reflexivity. Qed.



Lemma updateActiveVideo_changed (store : Store) (item : Item) (updates : UpdatesRef) :
  changes store item updates = true ->
  let subs := or_else (ur_subtitles updates) (subtitlesRef item) in
  let regions := or_else (ur_blurRegions updates) (blurRegionsRef item) in
  let store1 := fst (spread store subs) in
  let store2 := fst (spread store1 regions) in
  let newState := {| r_subtitles := snd (spread store subs);
                     r_blurRegions := snd (spread store1 regions) |} in
  let kept := slice0 (historyRefs item) (historyIndexRef item + 1) in
  let newHistory := if 50 <=? Z.of_nat (length kept) then shift kept else kept in
  updateActiveVideo store item updates
  = (store2, {| subtitlesRef := subs; blurRegionsRef := regions;
                historyRefs := newHistory ++ [newState];
                historyIndexRef := Z.of_nat (length newHistory) |}).
Proof. intros Hch. unfold updateActiveVideo. rewrite Hch. reflexivity. Qed.

Lemma slice0_map {A B} (f : A -> B) (l : list A) (e : Z) :
  slice0 (List.map f l) e = List.map f (slice0 l e).
Proof. unfold slice0. rewrite length_map. destruct (e <? 0); apply firstn_map. Qed.

Lemma shift_map {A B} (f : A -> B) (l : list A) : shift (List.map f l) = List.map f (shift l).
Proof. destruct l; reflexivity. Qed.

Lemma changes_read (store : Store) (item : Item) (updates : UpdatesRef) st ff fs :
  History.changes (readItem store st ff fs item) (readUpdates store updates)
  = changes store item updates.
Proof.
  unfold History.changes, changes, readUpdates, readItem. cbn.
  destruct (ur_subtitles updates), (ur_blurRegions updates); reflexivity.
Qed.

Lemma readSnapshot_old (store store' : Store) (s : Snapshot) :
  subtitleObjects store' = subtitleObjects store ->
  regionObjects store' = regionObjects store ->
  elems store' (r_subtitles s) = elems store (r_subtitles s) ->
  elems store' (r_blurRegions s) = elems store (r_blurRegions s) ->
  readSnapshot store' s = readSnapshot store s.
Proof.
  intros Hs Hr Hes Her. unfold readSnapshot, readSubtitles, readRegions.
  rewrite Hs, Hr, Hes, Her. reflexivity.
Qed.

(** The reference model refines the value model: reading the item
    after [Refs.updateActiveVideo] gives what [History.updateActiveVideo]
    makes of the item read before. *)
Lemma updateActiveVideo_refines (store : Store) (item : Item) (updates : UpdatesRef)
    st ff fs :
  allocated store item ->
  or_else (ur_subtitles updates) (subtitlesRef item) ∈ dom (arrays store) ->
  or_else (ur_blurRegions updates) (blurRegionsRef item) ∈ dom (arrays store) ->
  readItem (fst (updateActiveVideo store item updates)) st ff fs
    (snd (updateActiveVideo store item updates))
  = History.updateActiveVideo (readItem store st ff fs item) (readUpdates store updates).
Proof.
  intros (Hcs & Hcr & Hhist) Hsubs Hregions.
  set (subs := or_else (ur_subtitles updates) (subtitlesRef item)) in *.
  set (regions := or_else (ur_blurRegions updates) (blurRegionsRef item)) in *.
  assert (Evs : or_else (u_subtitles (readUpdates store updates))
                  (subtitles (readItem store st ff fs item)) = readSubtitles store subs)
    by (unfold subs; cbn; destruct (ur_subtitles updates); reflexivity).
  assert (Evr : or_else (u_blurRegions (readUpdates store updates))
                  (blurRegions (readItem store st ff fs item)) = readRegions store regions)
    by (unfold regions; cbn; destruct (ur_blurRegions updates); reflexivity).
  unfold History.updateActiveVideo. rewrite changes_read, Evs, Evr.
  destruct (changes store item updates) eqn:Hch.
  - rewrite (updateActiveVideo_changed store item updates Hch). cbv zeta.
    fold subs regions.
    set (store1 := fst (spread store subs)).
    set (c1 := snd (spread store subs)).
    set (store2 := fst (spread store1 regions)).
    set (c2 := snd (spread store1 regions)).
    assert (Hd1 : dom (arrays store1) = {[c1]} ∪ dom (arrays store)) by apply spread_dom.
    assert (Hin1 : c1 ∈ dom (arrays store1))
      by (rewrite Hd1; apply elem_of_union_l, elem_of_singleton; reflexivity).
    assert (Hold : forall a, a ∈ dom (arrays store) -> elems store2 a = elems store a).
    { intros a Ha. unfold store2.
      rewrite spread_elems_old by (rewrite Hd1; apply elem_of_union_r, Ha).
      apply spread_elems_old, Ha. }
    assert (He1 : elems store2 c1 = elems store subs).
    { unfold store2. rewrite spread_elems_old by exact Hin1. apply spread_elems_copy. }
    assert (He2 : elems store2 c2 = elems store regions).
    { unfold store2, c2. rewrite spread_elems_copy. apply spread_elems_old, Hregions. }
    assert (Hmap : List.map (readSnapshot store2) (historyRefs item)
                   = List.map (readSnapshot store) (historyRefs item)).
    { apply List.map_ext_Forall. eapply List.Forall_impl; [| exact Hhist].
      intros s [H1 H2]. apply readSnapshot_old; try reflexivity; apply Hold; assumption. }
    unfold History.pushed, readItem.
    cbn [fst snd subtitlesRef blurRegionsRef historyRefs historyIndexRef history historyIndex].
    rewrite slice0_map, !length_map.
    set (kept := slice0 (historyRefs item) (historyIndexRef item + 1)).
    assert (Hkept : List.map (readSnapshot store2) kept = List.map (readSnapshot store) kept).
    { apply List.map_ext_Forall. unfold kept, slice0.
      destruct (historyIndexRef item + 1 <? 0); apply Forall_take;
        (eapply List.Forall_impl; [| exact Hhist]);
        intros s [H1 H2]; apply readSnapshot_old; try reflexivity; apply Hold; assumption. }
    assert (Hnew : readSnapshot store2 {| r_subtitles := c1; r_blurRegions := c2 |}
                   = {| hs_subtitles := readSubtitles store subs;
                        hs_blurRegions := readRegions store regions |}).
    { unfold readSnapshot, readSubtitles, readRegions. cbn [r_subtitles r_blurRegions].
      rewrite He1, He2. reflexivity. }
    assert (Hrs : readSubtitles store2 subs = readSubtitles store subs)
      by (unfold readSubtitles; rewrite Hold by exact Hsubs; reflexivity).
    assert (Hrr : readRegions store2 regions = readRegions store regions)
      by (unfold readRegions; rewrite Hold by exact Hregions; reflexivity).
    rewrite Hrs, Hrr.
    destruct (50 <=? Z.of_nat (length kept)).
    + rewrite map_app, shift_map. cbn [List.map]. rewrite Hnew, !length_map.
      f_equal. f_equal. unfold shift. destruct kept as [| s kept']; [reflexivity |].
      cbn [tl List.map] in *. injection Hkept; intros; assumption.
    + rewrite map_app. cbn [List.map]. rewrite Hnew, Hkept, !length_map. reflexivity.
  - unfold updateActiveVideo. rewrite Hch. reflexivity.
Qed.




End RefsFacts.

(** ** Active subtitle resolver *)

Section ResolverFacts.
Import Resolver.

Lemma covers_within (t : Q) (s : SubtitleEntry) :
  covers t s = true <-> within t s.
Proof.
  unfold covers, within. rewrite andb_true_iff, !Qle_bool_iff. reflexivity.
Qed.

Lemma find_first {A} (p : A -> bool) (arr : list A) :
  match find p arr with
  | Some a =>
      exists before after,
        arr = before ++ a :: after /\ p a = true /\ Forall (fun b => p b = false) before
  | None => Forall (fun b => p b = false) arr
  end.
Proof.
  induction arr as [| a arr IH]; simpl.
  - constructor.
  - destruct (p a) eqn:Ha.
    + exists [], arr. repeat split; [exact Ha | constructor].
    + destruct (find p arr) as [c |].
      * destruct IH as (before & after & -> & Hc & Hb).
        exists (a :: before), after. repeat split; [exact Hc | constructor; assumption].
      * constructor; assumption.
Qed.

Lemma not_covers_not_within (t : Q) (l : list SubtitleEntry) :
  Forall (fun b => covers t b = false) l -> Forall (fun b => ~ within t b) l.
Proof.
  apply List.Forall_impl. intros s Hs Hw. apply covers_within in Hw. congruence.
Qed.

(** C4. The resolver returns the first entry, in the order of the
    list, whose closed interval [startTime .. endTime] contains the
    time: every entry before it misses the time; it returns nothing
    exactly when no entry contains the time.  The export path resolves
    the same way.  On [{0,2,"a"}, {2,4,"b"}] at time 2.0 the result is
    the entry with text "a", whatever the other fields are. *)
Theorem activeSub_first_match :
  (forall (t : Q) (subs : list SubtitleEntry),
      match activeSub subs t with
      | Some s =>
          exists before after,
            subs = before ++ s :: after /\ within t s
            /\ Forall (fun b => ~ within t b) before
      | None => Forall (fun b => ~ within t b) subs
      end
      /\ currentSub subs t = activeSub subs t)
  /\ (forall ida idb tra trb aua aub,
        let a := {| sub_id := ida; startTime := 0; endTime := 2; originalText := "a";
                    translatedText := tra; audioUrl := aua |} in
        let b := {| sub_id := idb; startTime := 2; endTime := 4; originalText := "b";
                    translatedText := trb; audioUrl := aub |} in
        activeSub [a; b] 2.0 = Some a /\ activeSub [b; a] 2.0 = Some b).
Proof.
  split.
  - intros t subs. split; [| reflexivity].
    unfold activeSub. pose proof (find_first (covers t) subs) as H.
    destruct (find (covers t) subs) as [s |].
    + destruct H as (before & after & -> & Hs & Hb).
      exists before, after. split; [reflexivity |].
      split; [apply covers_within, Hs | apply not_covers_not_within, Hb].
    + apply not_covers_not_within, H.
  - intros. split; reflexivity.
Qed.

End ResolverFacts.

(** ** Subtitle editor *)

Section SubtitleEditorFacts.
Import SubtitleEditor.

Lemma sort_insert_perm {A} (cmp : A -> A -> Q) (a : A) (l : list A) :
  Permutation (sort_insert cmp a l) (a :: l).
Proof.
  induction l as [| b l IH]; simpl; [reflexivity |].
  destruct (Qle_bool (cmp a b) 0); [reflexivity |].
  rewrite IH. apply perm_swap.
Qed.

Lemma sort_perm {A} (cmp : A -> A -> Q) (l : list A) : Permutation (sort cmp l) l.
Proof.
  induction l as [| a l IH]; simpl; [reflexivity |].
  rewrite sort_insert_perm. constructor. exact IH.
Qed.

Lemma byStartTime_le (a b : SubtitleEntry) :
  Qle_bool (byStartTime a b) 0 = true <-> ascending a b.
Proof.
  rewrite Qle_bool_iff. unfold byStartTime, ascending. split; intros; lra.
Qed.

Lemma sort_insert_sorted (a : SubtitleEntry) (l : list SubtitleEntry) :
  StronglySorted ascending l -> StronglySorted ascending (sort_insert byStartTime a l).
Proof.
  induction 1 as [| b l Hs IH Hb]; simpl.
  - repeat constructor.
  - destruct (Qle_bool (byStartTime a b) 0) eqn:E.
    + apply byStartTime_le in E. constructor; [constructor; assumption |].
      constructor; [exact E |].
      eapply List.Forall_impl; [| exact Hb]. unfold ascending in *. intros c Hc. lra.
    + constructor; [exact IH |].
      assert (Hba : ascending b a).
      { unfold ascending. destruct (Qlt_le_dec (startTime a) (startTime b)) as [Hlt | Hle];
          [| exact Hle].
        assert (ascending a b) by (unfold ascending; lra).
        apply byStartTime_le in H. congruence. }
      eapply Permutation_Forall; [symmetry; apply sort_insert_perm |].
      constructor; assumption.
Qed.

Lemma sort_sorted (l : list SubtitleEntry) : StronglySorted ascending (sort byStartTime l).
Proof.
  induction l as [| a l IH]; simpl; [constructor | apply sort_insert_sorted, IH].
Qed.

(** C10. [addSub] builds an entry that starts at the current playback
    time and ends two seconds later, and hands the session the stable
    sort, by ascending start time, of the previous list followed by that
    entry: the new list holds exactly the previous entries and the new
    one, and the whole of it is in ascending order of start time, sorted
    or not before. *)
Theorem addSub_sorts_whole_list
    (now : string) (currentTime : Q) (item : VideoQueueItem) :
  let added := newSub now currentTime in
  let next := subtitles (setSubtitles item (addSub now currentTime)) in
  startTime added = currentTime
  /\ endTime added = (startTime added + 2)%Q
  /\ next = sort byStartTime (subtitles item ++ [added])
  /\ Permutation next (subtitles item ++ [added])
  /\ StronglySorted ascending next.
Proof.
  intros added next.
  assert (E : next = sort byStartTime (subtitles item ++ [added])).
  { unfold next, setSubtitles. rewrite updateActiveVideo_subtitles. reflexivity. }
  split; [reflexivity |]. split; [reflexivity |]. split; [exact E |].
  rewrite E. split; [apply sort_perm | apply sort_sorted].
Qed.

End SubtitleEditorFacts.

(** ** Region editor *)

Section RegionEditorFacts.
Import History RegionEditor.




Lemma setBlurRegions_blurRegions (it : VideoQueueItem) val :
  blurRegions (setBlurRegions it val) = val (blurRegions it).
Proof. unfold setBlurRegions. rewrite updateActiveVideo_blurRegions. reflexivity. Qed.


Lemma Qgtb_lt (a b : Q) : Qgtb a b = true <-> (b < a)%Q.
Proof.
  unfold Qgtb. rewrite negb_true_iff. split.
  - intros H. destruct (Qlt_le_dec b a) as [Hlt | Hle]; [exact Hlt |].
    apply Qle_bool_iff in Hle. congruence.
  - intros H. destruct (Qle_bool a b) eqn:E; [| reflexivity].
    apply Qle_bool_iff in E. lra.
Qed.















End RegionEditorFacts.

(** ** Retry helper *)

Section GeminiServiceFacts.
Import GeminiService.
Context {T : Type}.
Implicit Types (fn : nat -> Settled T) (random : nat -> Q).

Lemma retryLoop_lastError_unused fn random (remaining i : nat) (l1 l2 : option JsError) :
  retryLoop fn random (S remaining) i l1 = retryLoop fn random (S remaining) i l2.
Proof. reflexivity. Qed.

Lemma retryLoop_retried fn random (k remaining i : nat) (last : option JsError) :
  (forall j, (j < k)%nat -> exists error, fn (i + j)%nat = Rejected error /\ retryable error = true) ->
  retryLoop fn random (k + S remaining) i last
  = (fst (retryLoop fn random (S remaining) (i + k) None),
     flat_map (fun i => [Call i; Sleep (waitTime i (random i))]) (seq i k)
     ++ snd (retryLoop fn random (S remaining) (i + k) None)).
Proof.
  revert i last. induction k as [| k IH]; intros i last Hfail.
  - rewrite Nat.add_0_r. simpl plus. cbn [seq flat_map app].
    rewrite (retryLoop_lastError_unused fn random remaining i last None).
    destruct (retryLoop fn random (S remaining) i None); reflexivity.
  - destruct (Hfail 0%nat ltac:(lia)) as (error & Hfn & Hre). rewrite Nat.add_0_r in Hfn.
    cbn [plus retryLoop]. rewrite Hfn, Hre.
    rewrite (IH (S i) (Some error)).
    + replace (S i + k)%nat with (i + S k)%nat by lia. reflexivity.
    + intros j Hj. replace (S i + j)%nat with (i + S j)%nat by lia. apply Hfail. lia.
Qed.

Lemma retried_S random (k : nat) :
  retried random (S k) = retried random k ++ [Call k; Sleep (waitTime k (random k))].
Proof.
  unfold retried. rewrite seq_S, flat_map_app. simpl. reflexivity.
Qed.

Lemma calls_app (l1 l2 : list Effect) : calls (l1 ++ l2) = (calls l1 + calls l2)%nat.
Proof. unfold calls. rewrite List.filter_app, length_app. reflexivity. Qed.

Lemma calls_retried random (k : nat) : calls (retried random k) = k.
Proof.
  induction k as [| k IH]; [reflexivity |].
  rewrite retried_S, calls_app, IH. cbn. lia.
Qed.

Lemma retryLoop_calls_bounded fn random (remaining i : nat) (last : option JsError) :
  (calls (snd (retryLoop fn random remaining i last)) <= remaining)%nat.
Proof.
  revert i last. induction remaining as [| remaining IH]; intros i last; cbn [retryLoop].
  - cbn. lia.
  - destruct (fn i) as [value | error]; [cbn; lia |].
    destruct (retryable error); [| cbn; lia].
    specialize (IH (S i) (Some error)).
    destruct (retryLoop fn random remaining (S i) (Some error)) as [completion effects].
    cbn in *. lia.
Qed.

Lemma waitTime_bounds (i : nat) (jitter : Q) :
  (0 <= jitter < 1)%Q ->
  (inject_Z (2 ^ Z.of_nat i) * 1000 <= waitTime i jitter
   < inject_Z (2 ^ Z.of_nat i) * 1000 + 1000)%Q.
Proof. intros [? ?]. unfold waitTime. lra. Qed.

(** C8. When the first [k] calls were rejected with rate-limit or
    server errors and [k] is below the attempt bound, each of them was
    followed by a sleep of [2^i] seconds plus a jitter below one second,
    and call [k] decides: an error of another class is thrown at once,
    with no call after it; a rate-limit or server error at the last
    allowed attempt is the error thrown, after one more sleep; a value is
    returned.  The helper never calls more often than the bound. *)
Theorem withRetry_policy fn random (maxRetries : Z) (k : nat) :
  (forall i, (i < k)%nat -> exists error, fn i = Rejected error /\ retryable error = true) ->
  Z.of_nat k < maxRetries ->
  (forall i, (0 <= random i < 1)%Q) ->
  (forall error, fn k = Rejected error -> retryable error = false ->
     withRetry fn random maxRetries = (Thrown (Some error), retried random k ++ [Call k]))
  /\ (forall error, fn k = Rejected error -> retryable error = true ->
        Z.of_nat (S k) = maxRetries ->
        withRetry fn random maxRetries = (Thrown (Some error), retried random (S k)))
  /\ (forall value, fn k = Resolved value ->
        withRetry fn random maxRetries = (Returned value, retried random k ++ [Call k]))
  /\ calls (retried random k ++ [Call k]) = S k
  /\ calls (retried random (S k)) = S k
  /\ (calls (snd (withRetry fn random maxRetries)) <= Z.to_nat maxRetries)%nat
  /\ (forall i, (inject_Z (2 ^ Z.of_nat i) * 1000 <= waitTime i (random i)
                 < inject_Z (2 ^ Z.of_nat i) * 1000 + 1000)%Q).
Proof.
  intros Hfail Hk Hrand.
  assert (E : withRetry fn random maxRetries
              = (fst (retryLoop fn random (S (Z.to_nat maxRetries - S k)) k None),
                 retried random k
                 ++ snd (retryLoop fn random (S (Z.to_nat maxRetries - S k)) k None))).
  { unfold withRetry.
    replace (Z.to_nat maxRetries) with (k + S (Z.to_nat maxRetries - S k))%nat at 1 by lia.
    rewrite retryLoop_retried; [reflexivity | exact Hfail]. }
  split; [| split; [| split; [| split; [| split; [| split]]]]].
  - intros error Hfn Hre. rewrite E. cbn [retryLoop]. rewrite Hfn, Hre. reflexivity.
  - intros error Hfn Hre Hmax. rewrite E.
    replace (Z.to_nat maxRetries - S k)%nat with 0%nat by lia.
    cbn [retryLoop]. rewrite Hfn, Hre. rewrite retried_S. reflexivity.
  - intros value Hfn. rewrite E. cbn [retryLoop]. rewrite Hfn. reflexivity.
  - rewrite calls_app, calls_retried. cbn. lia.
  - apply calls_retried.
  - apply retryLoop_calls_bounded.
  - intros i. apply waitTime_bounds, Hrand.
Qed.

End GeminiServiceFacts.

(** C8, at a concrete input: three attempts, two server errors and a
    malformed request. *)
Section GeminiServiceWitness.
Import GeminiService.

Lemma withRetry_policy_witness :
  let busy := {| message := Some "overloaded"; err_status := Some 503 |} in
  let bad := {| message := Some "bad request"; err_status := Some 400 |} in
  let fn := fun i : nat => if (i <? 2)%nat then @Rejected nat busy else Rejected bad in
  let random := fun _ : nat => (1 # 2)%Q in
  withRetry fn random 3
  = (Thrown (Some bad),
     [Call 0; Sleep (waitTime 0 (1 # 2)); Call 1; Sleep (waitTime 1 (1 # 2)); Call 2]).
Proof.
  intros busy bad fn random.
  destruct (withRetry_policy fn random 3 2) as (Hfast & _).
  - intros i Hi. exists busy. split; [| reflexivity].
    destruct i as [| [| i]]; [reflexivity | reflexivity | lia].
  - lia.
  - intros i. unfold random. lra.
  - rewrite (Hfast bad); reflexivity.
Defined.

End GeminiServiceWitness.

(** ** Audio cueing *)

Section AudioCueFacts.
Import AudioCue.

Lemma dom_pause (audio : nat) (els : gmap nat HTMLAudioElement) :
  dom (pause audio els) = dom els.
Proof. unfold pause. apply dom_alter_L. Qed.

Lemma dom_restart (playOk : bool) (audio : nat) (els : gmap nat HTMLAudioElement) :
  dom (restart playOk audio els) = dom els.
Proof. unfold restart. apply dom_alter_L. Qed.

Lemma src_pause (audio h : nat) (els : gmap nat HTMLAudioElement) :
  src <$> pause audio els !! h = src <$> els !! h.
Proof.
  unfold pause. destruct (decide (audio = h)) as [-> | Hne].
  - rewrite lookup_alter_eq. destruct (els !! h); reflexivity.
  - rewrite lookup_alter_ne by exact Hne. reflexivity.
Qed.

Lemma src_restart (playOk : bool) (audio h : nat) (els : gmap nat HTMLAudioElement) :
  src <$> restart playOk audio els !! h = src <$> els !! h.
Proof.
  unfold restart. destruct (decide (audio = h)) as [-> | Hne].
  - rewrite lookup_alter_eq. destruct (els !! h); reflexivity.
  - rewrite lookup_alter_ne by exact Hne. reflexivity.
Qed.

Lemma dom_pauseActive st : dom (pauseActive st) = dom (elements st).
Proof. unfold pauseActive. destruct (activeAudio st); [apply dom_pause | reflexivity]. Qed.

Lemma src_pauseActive st h : src <$> pauseActive st !! h = src <$> elements st !! h.
Proof. unfold pauseActive. destruct (activeAudio st); [apply src_pause | reflexivity]. Qed.

Lemma cue_built_from_key st activeSub playOk :
  built_from_key st -> built_from_key (cue st activeSub playOk).
Proof.
  intros Hb. unfold cue.
  destruct (cueUrl activeSub) as [url |].
  - destruct (playing st url); [exact Hb |].
    destruct (audioCache st !! url) as [audio |] eqn:Hc.
    + intros key h Hk. cbn in *. rewrite src_restart, src_pauseActive. apply Hb, Hk.
    + intros key h Hk. cbn in *. rewrite src_restart.
      destruct (decide (url = key)) as [<- | Hne].
      * rewrite lookup_insert_eq in Hk. injection Hk as <-.
        rewrite lookup_insert_eq. reflexivity.
      * rewrite lookup_insert_ne in Hk by exact Hne.
        pose proof (Hb key h Hk) as Hsrc.
        assert (Hin : h ∈ dom (pauseActive st)).
        { rewrite dom_pauseActive. apply elem_of_dom.
          destruct (elements st !! h); [eauto | discriminate]. }
        assert (Hfresh : fresh (dom (pauseActive st)) ≠ h).
        { intros <-. exact (is_fresh _ Hin). }
        rewrite lookup_insert_ne by exact Hfresh.
        rewrite src_pauseActive. exact Hsrc.
  - destruct (activeAudio st) as [audio |]; [| exact Hb].
    intros key h Hk. cbn in *. rewrite src_pause. apply Hb, Hk.
Qed.

Lemma run_built_from_key renders st :
  built_from_key st -> built_from_key (run st renders).
Proof.
  revert st. induction renders as [| [activeSub playOk] renders IH]; intros st Hb; simpl.
  - exact Hb.
  - apply IH, cue_built_from_key, Hb.
Qed.

Lemma initialState_built_from_key : built_from_key initialState.
Proof. intros url audio H. cbn in H. rewrite lookup_empty in H. discriminate. Qed.

Lemma cue_miss st activeSub playOk url :
  cueUrl activeSub = Some url -> playing st url = false -> audioCache st !! url = None ->
  let audio := fresh (dom (pauseActive st)) in
  cue st activeSub playOk
  = {| elements :=
         restart playOk audio
           (<[audio := {| src := url; currentTime := 0; paused := true |}]> (pauseActive st));
       audioCache := <[url := audio]> (audioCache st);
       activeAudio := Some audio |}.
Proof. intros H1 H2 H3. unfold cue. rewrite H1, H2, H3. reflexivity. Qed.

Lemma cue_hit st activeSub playOk url audio :
  cueUrl activeSub = Some url -> playing st url = false ->
  audioCache st !! url = Some audio ->
  cue st activeSub playOk
  = {| elements := restart playOk audio (pauseActive st);
       audioCache := audioCache st;
       activeAudio := Some audio |}.
Proof. intros H1 H2 H3. unfold cue. rewrite H1, H2, H3. reflexivity. Qed.

Lemma playing_src st url audio other :
  activeAudio st = Some audio -> src <$> elements st !! audio = Some other ->
  playing st url = String.eqb other url.
Proof.
  intros Ha Hs. unfold playing. rewrite Ha.
  destruct (elements st !! audio) as [a |]; [| discriminate].
  injection Hs as <-. reflexivity.
Qed.

Lemma fresh_not_live (st : State) (h : nat) :
  is_Some (elements st !! h) -> fresh (dom (pauseActive st)) <> h.
Proof.
  intros Hh <-. apply elem_of_dom in Hh.
  rewrite <- (dom_pauseActive st) in Hh. exact (is_fresh _ Hh).
Qed.

(** C9 as stated fails: the cache is not keyed by the subtitle id.
    After cueing subtitle "sub-1" whose voice is "blob:voice-1" the only
    key of the cache is that URL and a lookup under the id finds nothing;
    when the same subtitle then carries another voice, a new handle is
    created although the id is the same. *)
Lemma cache_keyed_by_id_counterexample :
  let sub := {| sub_id := "sub-1"; startTime := 0; endTime := 2; originalText := "a";
                translatedText := "b"; audioUrl := Some "blob:voice-1" |} in
  let revoiced := {| sub_id := "sub-1"; startTime := 0; endTime := 2; originalText := "a";
                     translatedText := "b"; audioUrl := Some "blob:voice-2" |} in
  let st1 := cue initialState (Some sub) true in
  let st2 := cue st1 (Some revoiced) true in
  audioCache st1 !! sub_id sub = None
  /\ dom (audioCache st1) = {[ "blob:voice-1" ]}
  /\ sub_id revoiced = sub_id sub
  /\ activeAudio st2 <> activeAudio st1
  /\ dom (audioCache st2) = {[ "blob:voice-2"; "blob:voice-1" ]}.
Proof.
  intros sub revoiced st1 st2.
  pose proof (cue_miss initialState (Some sub) true "blob:voice-1" eq_refl eq_refl
                (lookup_empty _)) as E1.
  cbv zeta in E1. fold st1 in E1.
  assert (Hb1 : built_from_key st1)
    by (apply cue_built_from_key, initialState_built_from_key).
  assert (Hc1 : audioCache st1 !! "blob:voice-1" = Some (fresh (dom (pauseActive initialState)))).
  { rewrite E1. cbn [audioCache]. apply lookup_insert_eq. }
  assert (Ha1 : activeAudio st1 = Some (fresh (dom (pauseActive initialState))))
    by (rewrite E1; reflexivity).
  pose proof (Hb1 _ _ Hc1) as Hsrc1.
  assert (Hmiss : audioCache st1 !! "blob:voice-2" = None).
  { rewrite E1. cbn [audioCache initialState].
    rewrite lookup_insert_ne by discriminate. apply lookup_empty. }
  assert (Hplay : playing st1 "blob:voice-2" = false)
    by (rewrite (playing_src st1 _ _ _ Ha1 Hsrc1); reflexivity).
  pose proof (cue_miss st1 (Some revoiced) true "blob:voice-2" eq_refl Hplay Hmiss) as E2.
  cbv zeta in E2. fold st2 in E2.
  split; [| split; [| split; [reflexivity | split]]].
  - rewrite E1. cbn [audioCache initialState sub_id sub].
    rewrite lookup_insert_ne by discriminate. apply lookup_empty.
  - rewrite E1. cbn [audioCache initialState]. rewrite dom_insert_L, dom_empty_L. set_solver.
  - rewrite E2 at 1. cbn [activeAudio]. rewrite Ha1. intros Heq.
    assert (Hlive : is_Some (elements st1 !! fresh (dom (pauseActive initialState))))
      by (destruct (elements st1 !! fresh (dom (pauseActive initialState)));
          [eauto | discriminate]).
    apply (fresh_not_live st1 _ Hlive). congruence.
  - rewrite E2. cbn [audioCache]. rewrite dom_insert_L. rewrite E1. cbn [audioCache initialState].
    rewrite dom_insert_L, dom_empty_L. set_solver.
Qed.

(** C9, amended. The cache is keyed by the audio URL of the active
    subtitle.  Over any sequence of renders every cached handle is a live
    element whose source is its key; an update with no usable audio URL
    leaves the cache alone; one whose URL is already playing changes
    nothing; otherwise the cache is looked up under the URL: a handle
    found there is reused, no element being created, and when none is
    found a new element with that source is created and stored under the
    URL.  No update removes or replaces an entry of the cache. *)
Theorem cache_keyed_by_audioUrl
    (renders : list (option SubtitleEntry * bool))
    (activeSub : option SubtitleEntry) (playOk : bool) :
  let st := run initialState renders in
  let st' := cue st activeSub playOk in
  built_from_key st
  /\ built_from_key st'
  /\ (forall key audio,
        audioCache st !! key = Some audio -> audioCache st' !! key = Some audio)
  /\ match cueUrl activeSub with
     | None => audioCache st' = audioCache st
     | Some url =>
         if playing st url then st' = st
         else
           match audioCache st !! url with
           | Some audio =>
               audioCache st' = audioCache st
               /\ activeAudio st' = Some audio
               /\ dom (elements st') = dom (elements st)
           | None =>
               exists audio,
                 (audio ∉ dom (elements st))
                 /\ audioCache st' = <[url := audio]> (audioCache st)
                 /\ activeAudio st' = Some audio
                 /\ src <$> elements st' !! audio = Some url
                 /\ dom (elements st') = {[audio]} ∪ dom (elements st)
           end
     end.
Proof.
  intros st st'.
  assert (Hb : built_from_key st)
    by (apply run_built_from_key, initialState_built_from_key).
  split; [exact Hb |]. split; [apply cue_built_from_key, Hb |].
  unfold st'.
  destruct (cueUrl activeSub) as [url |] eqn:Hurl.
  - destruct (playing st url) eqn:Hplay.
    + assert (E : cue st activeSub playOk = st) by (unfold cue; rewrite Hurl, Hplay; reflexivity).
      rewrite E. split; [auto | reflexivity].
    + destruct (audioCache st !! url) as [audio |] eqn:Hc.
      * rewrite (cue_hit st activeSub playOk url audio Hurl Hplay Hc). cbn.
        split; [auto |]. split; [reflexivity |]. split; [reflexivity |].
        rewrite dom_restart. apply dom_pauseActive.
      * rewrite (cue_miss st activeSub playOk url Hurl Hplay Hc). cbn.
        split.
        { intros key audio Hk. rewrite lookup_insert_ne; [exact Hk | congruence]. }
        exists (fresh (dom (pauseActive st))).
        split; [rewrite <- (dom_pauseActive st); apply is_fresh |].
        split; [reflexivity |]. split; [reflexivity |].
        split; [rewrite src_restart, lookup_insert_eq; reflexivity |].
        rewrite dom_restart, dom_insert_L, dom_pauseActive. reflexivity.
  - assert (E : audioCache (cue st activeSub playOk) = audioCache st).
    { unfold cue. rewrite Hurl. destruct (activeAudio st); reflexivity. }
    rewrite E. split; [auto | reflexivity].
Qed.

End AudioCueFacts.

(** ** Subtitle interchange format *)

Section SrtFacts.
Import Srt.


























Lemma uint_digits (d : Decimal.uint) :
  Forall (fun c => is_digit c = true) (list_ascii_of_string (NilEmpty.string_of_uint d)).
Proof. induction d; cbn; constructor; auto. Qed.

Lemma toString_digits (n : Z) :
  0 <= n ->
  exists c cs, toString n = c :: cs /\ Forall (fun c => is_digit c = true) (c :: cs).
Proof.
  intros Hn. unfold toString. destruct n as [| p | p]; [| | lia].
  - cbn. do 2 eexists. split; [reflexivity |]. repeat constructor.
  - cbn [Z.to_int NilZero.string_of_int].
    pose proof (DecimalPos.Unsigned.to_uint_nonnil p) as Hnil.
    pose proof (uint_digits (Pos.to_uint p)) as Hd.
    unfold NilZero.string_of_uint.
    destruct (Pos.to_uint p) eqn:E; [congruence | ..];
      cbn in Hd |- *; do 2 eexists; (split; [reflexivity | exact Hd]).
Qed.

Lemma trimStart_head (c : ascii) (s : list ascii) :
  is_space c = false -> trimStart (c :: s) = c :: s.
Proof. intros H. cbn. rewrite H. reflexivity. Qed.

Lemma trimEnd_snoc (s : list ascii) (c : ascii) :
  is_space c = false -> trimEnd (s ++ [c]) = s ++ [c].
Proof.
  intros H. unfold trimEnd. rewrite rev_app_distr. cbn [rev app].
  rewrite trimStart_head by exact H. cbn [rev]. rewrite rev_involutive. reflexivity.
Qed.



























End SrtFacts.

(** ** History manager, continued *)

Section HistoryMore.
Import History.

Lemma restore_fields (item item' : VideoQueueItem) (i : Z) :
  restore item i = Some item' ->
  history item' = history item /\ historyIndex item' = i
  /\ current item'
     = Some {| hs_subtitles := subtitles item'; hs_blurRegions := blurRegions item' |}
  /\ js_index (history item) i
     = Some {| hs_subtitles := subtitles item'; hs_blurRegions := blurRegions item' |}.
Proof.
  unfold restore, current. destruct (js_index (history item) i) as [s |] eqn:E; [| discriminate].
  intros [= <-]. cbn. destruct s. repeat split; assumption.
Qed.

(** X1. On an item whose cursor addresses a snapshot, [undo] and
    [redo] succeed and never change the history; [undo] at cursor 0 and
    [redo] at the last snapshot change nothing at all; otherwise they move
    the cursor by one and load the snapshot found there, and [redo] after
    [undo] (or [undo] after [redo]) brings the cursor back and loads the
    snapshot that was under it, whatever the session held before. *)
Theorem undo_redo_walk (item : VideoQueueItem) (here : HistoryState) :
  current item = Some here ->
  exists undone redone,
    undo item = Some undone /\ redo item = Some redone
    /\ history undone = history item /\ history redone = history item
    /\ (if historyIndex item <=? 0 then undone = item
        else historyIndex undone = historyIndex item - 1
             /\ current undone
                = Some {| hs_subtitles := subtitles undone;
                          hs_blurRegions := blurRegions undone |}
             /\ exists back,
                  redo undone = Some back
                  /\ historyIndex back = historyIndex item
                  /\ history back = history item
                  /\ subtitles back = hs_subtitles here
                  /\ blurRegions back = hs_blurRegions here)
    /\ (if Z.of_nat (length (history item)) - 1 <=? historyIndex item then redone = item
        else historyIndex redone = historyIndex item + 1
             /\ current redone
                = Some {| hs_subtitles := subtitles redone;
                          hs_blurRegions := blurRegions redone |}
             /\ exists back,
                  undo redone = Some back
                  /\ historyIndex back = historyIndex item
                  /\ history back = history item
                  /\ subtitles back = hs_subtitles here
                  /\ blurRegions back = hs_blurRegions here).
Proof.
  intros Hhere. pose proof (js_index_Some_range _ _ _ Hhere) as Hi.
  assert (Hu : exists undone, undo item = Some undone
             /\ ((historyIndex item <=? 0) = true -> undone = item)
             /\ ((historyIndex item <=? 0) = false ->
                 restore item (historyIndex item - 1) = Some undone)).
  { unfold undo. destruct (Z.leb_spec (historyIndex item) 0).
    - exists item. repeat split; congruence.
    - destruct (js_index_in_range (history item) (historyIndex item - 1)) as [s Hs]; [lia |].
      unfold restore. rewrite Hs. eexists. repeat split; congruence. }
  assert (Hr : exists redone, redo item = Some redone
             /\ ((Z.of_nat (length (history item)) - 1 <=? historyIndex item) = true ->
                 redone = item)
             /\ ((Z.of_nat (length (history item)) - 1 <=? historyIndex item) = false ->
                 restore item (historyIndex item + 1) = Some redone)).
  { unfold redo.
    destruct (Z.leb_spec (Z.of_nat (length (history item)) - 1) (historyIndex item)).
    - exists item. repeat split; congruence.
    - destruct (js_index_in_range (history item) (historyIndex item + 1)) as [s Hs]; [lia |].
      unfold restore. rewrite Hs. eexists. repeat split; congruence. }
  destruct Hu as (undone & Eu & Hu0 & Hu1). destruct Hr as (redone & Er & Hr0 & Hr1).
  exists undone, redone. split; [exact Eu |]. split; [exact Er |].
  assert (Hhu : history undone = history item).
  { destruct (historyIndex item <=? 0) eqn:E; [rewrite Hu0; reflexivity |].
    apply (restore_fields _ _ _ (Hu1 eq_refl)). }
  assert (Hhr : history redone = history item).
  { destruct (Z.of_nat (length (history item)) - 1 <=? historyIndex item) eqn:E;
      [rewrite Hr0; reflexivity |]. apply (restore_fields _ _ _ (Hr1 eq_refl)). }
  split; [exact Hhu |]. split; [exact Hhr |]. split.
  - destruct (historyIndex item <=? 0) eqn:E; [apply Hu0; reflexivity |].
    apply Z.leb_gt in E.
    destruct (restore_fields _ _ _ (Hu1 eq_refl)) as (_ & Hidx & Hcur & _).
    split; [exact Hidx |]. split; [exact Hcur |].
    unfold redo. rewrite Hhu, Hidx.
    destruct (Z.leb_spec (Z.of_nat (length (history item)) - 1) (historyIndex item - 1));
      [lia |].
    unfold restore. rewrite Hhu.
    replace (historyIndex item - 1 + 1) with (historyIndex item) by lia.
    unfold current in Hhere. rewrite Hhere.
    eexists. split; [reflexivity |]. cbn. repeat split; reflexivity.
  - destruct (Z.of_nat (length (history item)) - 1 <=? historyIndex item) eqn:E;
      [apply Hr0; reflexivity |].
    apply Z.leb_gt in E.
    destruct (restore_fields _ _ _ (Hr1 eq_refl)) as (_ & Hidx & Hcur & _).
    split; [exact Hidx |]. split; [exact Hcur |].
    unfold undo. rewrite Hidx.
    destruct (Z.leb_spec (historyIndex item + 1) 0); [lia |].
    unfold restore. rewrite Hhr.
    replace (historyIndex item + 1 - 1) with (historyIndex item) by lia.
    unfold current in Hhere. rewrite Hhere.
    eexists. split; [reflexivity |]. cbn. repeat split; reflexivity.
Qed.

(** X1, at a concrete input: one step back and forth after two commits. *)
Lemma undo_redo_walk_witness :
  let first := {| x := 10; y := 80; width := 30; height := 15 |} in
  let second := {| x := 20; y := 10; width := 30; height := 15 |} in
  let item := commits (initialItem "Inter" 18) [([], [first]); ([], [first; second])] in
  exists undone back,
    undo item = Some undone /\ redo undone = Some back
    /\ blurRegions undone = [first] /\ blurRegions back = [first; second].
Proof.
  intros first second item.
  destruct (undo_redo_walk item {| hs_subtitles := []; hs_blurRegions := [first; second] |})
    as (undone & redone & Eu & _ & _ & _ & Hu & _).
  - reflexivity.
  - change (historyIndex item <=? 0) with false in Hu. cbv iota in Hu.
    destruct Hu as (_ & _ & back & Eb & _ & _ & _ & Hb).
    exists undone, back. repeat split; try assumption.
    revert Eu. vm_compute. intros [= <-]. reflexivity.
Defined.

Lemma lastn_app_le {A} (n : nat) (l : list A) :
  (length l <= n)%nat -> lastn n l = l.
Proof. intros H. unfold lastn. replace (length l - n)%nat with 0%nat by lia. reflexivity. Qed.

Lemma lastn_length {A} (n : nat) (l : list A) : length (lastn n l) = Nat.min n (length l).
Proof. unfold lastn. rewrite length_skipn. lia. Qed.

Lemma lastn_lastn_app {A} (n : nat) (l r : list A) :
  lastn n (lastn n l ++ r) = lastn n (l ++ r).
Proof.
  unfold lastn. rewrite !length_app, length_skipn.
  rewrite !skipn_app, skipn_skipn, length_skipn.
  f_equal; f_equal; lia.
Qed.

Lemma lastn_snoc_step {A} (l : list A) (a : A) :
  (0 < length l <= 50)%nat ->
  (if 50 <=? Z.of_nat (length l) then tl l else l) ++ [a] = lastn 50 (l ++ [a]).
Proof.
  intros Hl. unfold lastn. rewrite length_app. cbn [length].
  destruct (Z.leb_spec 50 (Z.of_nat (length l))).
  - replace (length l + 1 - 50)%nat with 1%nat by lia.
    destruct l; [cbn in Hl; lia | reflexivity].
  - replace (length l + 1 - 50)%nat with 0%nat by lia. reflexivity.
Qed.

Lemma commit_at_end (item : VideoQueueItem) subs regions :
  wf item -> historyIndex item = Z.of_nat (length (history item)) - 1 ->
  changes item {| u_status := None; u_subtitles := Some subs;
                  u_blurRegions := Some regions; u_fontFamily := None;
                  u_fontSize := None |} = true ->
  let item' := commit item subs regions in
  wf item'
  /\ historyIndex item' = Z.of_nat (length (history item')) - 1
  /\ history item'
     = lastn 50 (history item ++ [ {| hs_subtitles := subs; hs_blurRegions := regions |} ])
  /\ subtitles item' = subs /\ blurRegions item' = regions.
Proof.
  intros Hwf Hend Hch item'. pose proof Hwf as [Hi Hcap].
  unfold item', commit.
  set (updates := {| u_status := None; u_subtitles := Some subs;
                     u_blurRegions := Some regions; u_fontFamily := None;
                     u_fontSize := None |}) in *.
  split; [apply updateActiveVideo_wf, Hwf |].
  pose proof (updateActiveVideo_history item updates) as E. rewrite Hch in E.
  cbn [or_else u_subtitles u_blurRegions updates] in E.
  rewrite (pushed_shape item subs regions Hi) in E.
  replace (S (Z.to_nat (historyIndex item))) with (length (history item)) in E by lia.
  rewrite firstn_all in E.
  assert (Hstep := lastn_snoc_step (history item)
                     {| hs_subtitles := subs; hs_blurRegions := regions |} ltac:(lia)).
  replace (50 <=? historyIndex item + 1) with (50 <=? Z.of_nat (length (history item))) in E
    by (f_equal; lia).
  rewrite updateActiveVideo_subtitles, updateActiveVideo_blurRegions.
  destruct (50 <=? Z.of_nat (length (history item))) eqn:E50;
    injection E as Eh Ei; rewrite Eh, Ei, <- Hstep;
    (split; [| split; [reflexivity | split; reflexivity]]);
    rewrite length_app; cbn [length]; try rewrite length_tl;
    apply Z.leb_le in E50 || apply Z.leb_gt in E50; lia.
Qed.

Lemma commits_at_end (pairs : list (list SubtitleEntry * list BlurRegion))
    (item : VideoQueueItem) :
  wf item -> historyIndex item = Z.of_nat (length (history item)) - 1 ->
  allChange item pairs = true ->
  wf (commits item pairs)
  /\ historyIndex (commits item pairs) = Z.of_nat (length (history (commits item pairs))) - 1
  /\ history (commits item pairs)
     = lastn 50 (history item ++ List.map snapshotOf pairs).
Proof.
  revert item. induction pairs as [| [subs regions] pairs IH]; intros item Hwf Hend Hall.
  - cbn. rewrite app_nil_r.
    rewrite lastn_app_le by apply Hwf. repeat split; try apply Hwf; assumption.
  - cbn [allChange] in Hall. apply andb_true_iff in Hall as [Hch Hall].
    destruct (commit_at_end item subs regions Hwf Hend Hch) as (Hwf' & Hend' & Hh' & _).
    destruct (IH (commit item subs regions) Hwf' Hend' Hall) as (Hw & He & Hh).
    cbn [commits]. split; [exact Hw |]. split; [exact He |].
    rewrite Hh, Hh'. cbn [List.map]. rewrite lastn_lastn_app, <- app_assoc. reflexivity.
Qed.

(** X3. A fresh item that goes through commits, each of which changes
    the value, holds the last 50 of all snapshots made, the initial empty
    one counted first, with the cursor on the newest: from the 50th commit
    on the initial snapshot is gone and undo cannot reach it. *)
Theorem commits_keep_last_50
    (ff : string) (fs : Q) (pairs : list (list SubtitleEntry * list BlurRegion)) :
  allChange (initialItem ff fs) pairs = true ->
  let item := commits (initialItem ff fs) pairs in
  history item
  = lastn 50 ({| hs_subtitles := []; hs_blurRegions := [] |} :: List.map snapshotOf pairs)
  /\ historyIndex item = Z.of_nat (length (history item)) - 1
  /\ length (history item) = Nat.min 50 (S (length pairs))
  /\ ((50 <= length pairs)%nat ->
        history item = lastn 50 (List.map snapshotOf pairs)).
Proof.
  intros Hall item.
  destruct (commits_at_end pairs (initialItem ff fs) (initialItem_wf ff fs) eq_refl Hall)
    as (_ & Hend & Hh).
  fold item in Hend, Hh. cbn [history initialItem app] in Hh.
  split; [exact Hh |]. split; [exact Hend |]. split.
  - rewrite Hh, lastn_length. cbn [length]. rewrite length_map. reflexivity.
  - intros Hlen. rewrite Hh. unfold lastn. cbn [length]. rewrite length_map.
    replace (S (length pairs) - 50)%nat with (S (length pairs - 50)) by lia.
    reflexivity.
Qed.

(** X3, at a concrete input: two commits on a fresh item. *)
Lemma commits_keep_last_50_witness :
  let first := {| x := 10; y := 80; width := 30; height := 15 |} in
  let item := commits (initialItem "Inter" 18) [([], [first]); ([], [])] in
  List.map hs_blurRegions (history item) = [[]; [first]; []]
  /\ historyIndex item = 2.
Proof.
  intros first item.
  destruct (commits_keep_last_50 "Inter" 18 [([], [first]); ([], [])]) as (Hh & Hi & _).
  - reflexivity.
  - fold item in Hh, Hi. split; [rewrite Hh; reflexivity | rewrite Hi, Hh; reflexivity].
Defined.

(** X2. A commit that changes the value leaves nothing to redo: the
    cursor is on the last snapshot, [redo] changes nothing, and the history
    is at most the snapshots up to the old cursor followed by the new one,
    so every snapshot that was past the cursor is gone. *)
Theorem commit_discards_redo (item : VideoQueueItem) (updates : Updates) :
  wf item ->
  changes item updates = true ->
  let committed := updateActiveVideo item updates in
  historyIndex committed = Z.of_nat (length (history committed)) - 1
  /\ redo committed = Some committed
  /\ (Z.of_nat (length (history committed)) <= historyIndex item + 2)
  /\ exists dropped,
       (dropped <= 1)%nat
       /\ history committed
          = skipn dropped (firstn (Z.to_nat (historyIndex item + 1)) (history item))
            ++ [ {| hs_subtitles := subtitles committed;
                    hs_blurRegions := blurRegions committed |} ].
Proof.
  intros [Hi Hcap] Hch committed.
  pose proof (updateActiveVideo_history item updates) as E. rewrite Hch in E.
  fold committed in E.
  rewrite (pushed_shape item _ _ Hi) in E.
  replace (Z.to_nat (historyIndex item + 1)) with (S (Z.to_nat (historyIndex item))) by lia.
  set (kept := firstn (S (Z.to_nat (historyIndex item))) (history item)) in *.
  assert (Hk : length kept = S (Z.to_nat (historyIndex item))).
  { unfold kept. rewrite length_firstn. lia. }
  pose proof (updateActiveVideo_subtitles item updates) as Hs. fold committed in Hs.
  pose proof (updateActiveVideo_blurRegions item updates) as Hr. fold committed in Hr.
  rewrite Hs, Hr.
  assert (Hend : historyIndex committed = Z.of_nat (length (history committed)) - 1
                 /\ Z.of_nat (length (history committed)) <= historyIndex item + 2).
  { destruct (Z.leb_spec 50 (historyIndex item + 1)); injection E as -> ->;
      rewrite length_app; try rewrite length_tl; rewrite Hk; cbn [length]; lia. }
  destruct Hend as [Hend Hlen].
  split; [exact Hend |]. split; [| split; [exact Hlen |]].
  - unfold redo.
    destruct (Z.leb_spec (Z.of_nat (length (history committed)) - 1) (historyIndex committed));
      [reflexivity | lia].
  - destruct (Z.leb_spec 50 (historyIndex item + 1)); injection E as -> _.
    + exists 1%nat. split; [lia |]. destruct kept; reflexivity.
    + exists 0%nat. split; [lia | reflexivity].
Qed.

(** X2, at a concrete input: a commit made after an undo. *)
Lemma commit_discards_redo_witness :
  let first := {| x := 10; y := 80; width := 30; height := 15 |} in
  let second := {| x := 20; y := 10; width := 30; height := 15 |} in
  let undone :=
    {| status := IDLE; subtitles := []; blurRegions := [];
       fontFamily := "Inter"; fontSize := 18;
       history := [ {| hs_subtitles := []; hs_blurRegions := [] |};
                    {| hs_subtitles := []; hs_blurRegions := [first] |} ];
       historyIndex := 0 |} in
  let committed := commit undone [] [second] in
  redo committed = Some committed
  /\ List.map hs_blurRegions (history committed) = [[]; [second]].
Proof.
  intros first second undone committed.
  destruct (commit_discards_redo undone
              {| u_status := None; u_subtitles := Some []; u_blurRegions := Some [second];
                 u_fontFamily := None; u_fontSize := None |}) as (_ & Hredo & _).
  - unfold wf. cbn. lia.
  - reflexivity.
  - split; [exact Hredo | reflexivity].
Defined.

End HistoryMore.

(** ** The queue *)

Section QueueFacts.
Import Queue.

Lemma mapi_length {A B} (f : A -> Z -> B) (arr : list A) (k : Z) :
  length (mapi f arr k) = length arr.
Proof. revert k. induction arr as [| a arr IH]; intros k; cbn; [reflexivity | rewrite IH; reflexivity]. Qed.

Lemma mapi_nth {A B} (f : A -> Z -> B) (arr : list A) (k : Z) (n : nat) :
  nth_error (mapi f arr k) n = option_map (fun a => f a (k + Z.of_nat n)) (nth_error arr n).
Proof.
  revert k n. induction arr as [| a arr IH]; intros k [| n]; cbn [mapi nth_error option_map];
    try reflexivity.
  - rewrite Z.add_0_r. reflexivity.
  - rewrite IH. destruct (nth_error arr n); cbn; [f_equal; f_equal; lia | reflexivity].
Qed.

Lemma onActive_index (queue : list VideoQueueItem) (currentIndex : Z)
    (f : VideoQueueItem -> VideoQueueItem) (i : Z) :
  js_index (onActive queue currentIndex f) i
  = option_map (fun item => if i =? currentIndex then f item else item) (js_index queue i).
Proof.
  unfold js_index, onActive. destruct (Z.ltb_spec i 0); [reflexivity |].
  rewrite mapi_nth. rewrite Z.add_0_l, Z2Nat.id by lia. reflexivity.
Qed.

Lemma onActive_isolated (queue : list VideoQueueItem) (currentIndex : Z)
    (f : VideoQueueItem -> VideoQueueItem) :
  length (onActive queue currentIndex f) = length queue
  /\ (forall i, i <> currentIndex ->
               js_index (onActive queue currentIndex f) i = js_index queue i)
  /\ js_index (onActive queue currentIndex f) currentIndex
     = option_map f (js_index queue currentIndex).
Proof.
  split; [apply mapi_length |]. split.
  - intros i Hne. rewrite onActive_index.
    destruct (Z.eqb_spec i currentIndex); [contradiction |].
    destruct (js_index queue i); reflexivity.
  - rewrite onActive_index, Z.eqb_refl. reflexivity.
Qed.

Lemma nth_error_ext {A} (l1 l2 : list A) :
  (forall n, nth_error l1 n = nth_error l2 n) -> l1 = l2.
Proof.
  revert l2. induction l1 as [| a l1 IH]; intros [| b l2] H.
  - reflexivity.
  - specialize (H 0%nat). discriminate.
  - specialize (H 0%nat). discriminate.
  - f_equal; [specialize (H 0%nat); cbn in H; congruence |].
    apply IH. intros n. exact (H (S n)).
Qed.

Lemma onActive_none (queue : list VideoQueueItem) (currentIndex : Z)
    (f : VideoQueueItem -> VideoQueueItem) :
  activeVideo queue currentIndex = None -> onActive queue currentIndex f = queue.
Proof.
  intros Hnone. apply nth_error_ext. intros n.
  pose proof (onActive_index queue currentIndex f (Z.of_nat n)) as H.
  rewrite !js_index_nth, Nat2Z.id in H by lia. rewrite H.
  destruct (Z.eqb_spec (Z.of_nat n) currentIndex) as [<- |].
  - unfold activeVideo in Hnone.
    destruct (Z.leb_spec 0 (Z.of_nat n)); [| lia].
    rewrite js_index_nth, Nat2Z.id in Hnone by lia. rewrite Hnone. reflexivity.
  - destruct (nth_error queue n); reflexivity.
Qed.

(** X4. A write to the active video touches that queue item alone:
    after [updateActiveVideo], [undo] or [redo] the queue is as long as
    before, every other item is what it was, and the active item is what
    the same operation makes of it alone; with no active video (nothing
    selected, or the selection past the end after the queue was cleared)
    the queue does not change. *)
Theorem active_item_only
    (queue : list VideoQueueItem) (currentIndex : Z) (updates : Updates) :
  let others_kept := fun queue' : list VideoQueueItem =>
    length queue' = length queue
    /\ forall i, i <> currentIndex -> js_index queue' i = js_index queue i in
  (others_kept (updateActiveVideo queue currentIndex updates)
   /\ js_index (updateActiveVideo queue currentIndex updates) currentIndex
      = option_map (fun item => History.updateActiveVideo item updates)
          (js_index queue currentIndex))
  /\ match undo queue currentIndex with
     | Some queue' =>
         others_kept queue'
         /\ js_index queue' currentIndex
            = match js_index queue currentIndex with
              | Some item => History.undo item
              | None => None
              end
     | None => exists item, js_index queue currentIndex = Some item
                            /\ History.undo item = None
     end
  /\ match redo queue currentIndex with
     | Some queue' =>
         others_kept queue'
         /\ js_index queue' currentIndex
            = match js_index queue currentIndex with
              | Some item => History.redo item
              | None => None
              end
     | None => exists item, js_index queue currentIndex = Some item
                            /\ History.redo item = None
     end
  /\ (activeVideo queue currentIndex = None ->
      updateActiveVideo queue currentIndex updates = queue
      /\ undo queue currentIndex = Some queue /\ redo queue currentIndex = Some queue).
Proof.
  intros others_kept.
  assert (Hact : activeVideo queue currentIndex = js_index queue currentIndex).
  { unfold activeVideo, js_index. destruct (Z.leb_spec 0 currentIndex);
      destruct (Z.ltb_spec currentIndex 0); try lia; reflexivity. }
  split; [| split; [| split; [| ]]].
  - destruct (onActive_isolated queue currentIndex
                (fun item => History.updateActiveVideo item updates)) as (H1 & H2 & H3).
    split; [split |]; assumption.
  - unfold undo. rewrite Hact.
    destruct (js_index queue currentIndex) as [active |] eqn:E.
    + destruct (History.undo active) as [item' |] eqn:Eu; [| eauto].
      destruct (onActive_isolated queue currentIndex (fun _ => item')) as (H1 & H2 & H3).
      split; [split; assumption |]. rewrite H3, E. reflexivity.
    + split; [split; [reflexivity | auto] | exact E].
  - unfold redo. rewrite Hact.
    destruct (js_index queue currentIndex) as [active |] eqn:E.
    + destruct (History.redo active) as [item' |] eqn:Eu; [| eauto].
      destruct (onActive_isolated queue currentIndex (fun _ => item')) as (H1 & H2 & H3).
      split; [split; assumption |]. rewrite H3, E. reflexivity.
    + split; [split; [reflexivity | auto] | exact E].
  - intros Hnone. split; [apply onActive_none, Hnone |].
    unfold undo, redo. rewrite Hnone. split; reflexivity.
Qed.

End QueueFacts.

(** ** Regions on the frame *)

Section WorkspaceFacts.
Import History RegionEditor.

Lemma fold_lower_snoc (rest : list BlurRegion) (first c : BlurRegion) :
  fold_left lower (rest ++ [c]) first = lower (fold_left lower rest first) c.
Proof. rewrite fold_left_app. reflexivity. Qed.

Lemma fold_lower_split (rest : list BlurRegion) (first : BlurRegion) :
  exists before after,
    first :: rest = before ++ fold_left lower rest first :: after
    /\ Forall (fun r => (y r <= y (fold_left lower rest first))%Q) before
    /\ Forall (fun r => (y r < y (fold_left lower rest first))%Q) after.
Proof.
  induction rest as [| c rest IH] using rev_ind.
  - exists [], []. cbn. repeat split; constructor.
  - destruct IH as (before & after & E & Hb & Ha).
    rewrite fold_lower_snoc. set (m := fold_left lower rest first) in *.
    unfold lower. destruct (Qgtb (y m) (y c)) eqn:G.
    + apply Qgtb_lt in G. exists before, (after ++ [c]).
      split; [rewrite app_comm_cons, E, <- app_assoc; reflexivity |].
      split; [exact Hb |]. apply Forall_app. split; [exact Ha |].
      constructor; [exact G | constructor].
    + assert (Hle : (y m <= y c)%Q).
      { destruct (Qlt_le_dec (y c) (y m)) as [Hlt | Hle]; [| exact Hle].
        apply Qgtb_lt in Hlt. congruence. }
      exists (first :: rest), []. split; [rewrite app_comm_cons; reflexivity |].
      split; [| constructor]. rewrite E. apply Forall_app. split.
      * eapply List.Forall_impl; [| exact Hb]. cbn. intros r Hr. lra.
      * constructor; [exact Hle |].
        eapply List.Forall_impl; [| exact Ha]. cbn. intros r Hr. lra.
Qed.

(** X5. The region that carries the subtitle text is one of the
    regions, none lies lower on the frame ([y] is maximal), and among
    regions of the same greatest [y] it is the last of the list; there is
    none exactly when the list is empty. *)
Theorem mainBlur_lowest_last (regions : list BlurRegion) :
  match mainBlur regions with
  | None => regions = []
  | Some main =>
      exists before after,
        regions = before ++ main :: after
        /\ Forall (fun r => (y r <= y main)%Q) before
        /\ Forall (fun r => (y r < y main)%Q) after
  end.
Proof.
  destruct regions as [| first rest]; [reflexivity |].
  cbn [mainBlur]. apply fold_lower_split.
Qed.

Lemma Qdiv_unit (a w : Q) : (0 < w)%Q -> (0 <= a <= w)%Q -> (0 <= a / w * 100 <= 100)%Q.
Proof.
  intros Hw [H0 H1].
  assert (L : (0 <= a / w)%Q) by (apply Qle_shift_div_l; [exact Hw | lra]).
  assert (U : (a / w <= 1)%Q) by (apply Qle_shift_div_r; [exact Hw | lra]).
  lra.
Qed.

(** X6. A pointer inside the bounding rectangle of a container of
    positive size is given coordinates inside the frame, both in
    [0, 100]; without a container the coordinates are the origin. *)
Theorem getRelativeCoords_in_frame (rect : DOMRect) (clientX clientY : Q) :
  (0 < rect_width rect)%Q -> (0 < rect_height rect)%Q ->
  (rect_left rect <= clientX <= rect_left rect + rect_width rect)%Q ->
  (rect_top rect <= clientY <= rect_top rect + rect_height rect)%Q ->
  in_frame (getRelativeCoords (Some rect) clientX clientY)
  /\ getRelativeCoords None clientX clientY = {| pt_x := 0; pt_y := 0 |}.
Proof.
  intros Hw Hh Hx Hy. split; [| reflexivity].
  unfold in_frame, getRelativeCoords. cbn [pt_x pt_y].
  split; apply Qdiv_unit; (assumption || lra).
Qed.

(** X6, at a concrete input: the middle of a 640 by 360 container. *)
Lemma getRelativeCoords_in_frame_witness :
  in_frame (getRelativeCoords
              (Some {| rect_left := 100; rect_top := 50; rect_width := 640;
                       rect_height := 360 |}) 420 230).
Proof.
  apply (getRelativeCoords_in_frame
           {| rect_left := 100; rect_top := 50; rect_width := 640; rect_height := 360 |}
           420 230); cbn; lra.
Defined.



End WorkspaceFacts.

(** ** Region gestures *)

Section RegionGestures.
Import History RegionEditor.

Lemma remove_at_split {A} (idx : nat) (arr : list A) :
  remove_at idx arr = firstn idx arr ++ skipn (S idx) arr.
Proof.
  revert idx. induction arr as [| a arr IH]; intros [| idx]; simpl; try reflexivity.
  - f_equal. apply IH.
Qed.

Lemma remove_at_out {A} (idx : nat) (arr : list A) :
  (length arr <= idx)%nat -> remove_at idx arr = arr.
Proof.
  revert idx. induction arr as [| a arr IH]; intros [| idx] H; simpl in *;
    try reflexivity; try lia.
  f_equal. apply IH. lia.
Qed.

Lemma list_eqb_length {A} (eqb : A -> A -> bool) (l1 l2 : list A) :
  list_eqb eqb l1 l2 = true -> length l1 = length l2.
Proof.
  revert l2. induction l1 as [| a l1 IH]; intros [| b l2]; simpl; try discriminate.
  - reflexivity.
  - intros H. apply andb_true_iff in H as [_ H]. f_equal. apply IH, H.
Qed.

Lemma setBlurRegions_same (it : VideoQueueItem) val :
  val (blurRegions it) = blurRegions it -> setBlurRegions it val = it.
Proof.
  intros E. unfold setBlurRegions, updateActiveVideo, changes. cbn.
  rewrite E, json_eq_regions_refl, json_eq_subtitles_refl. cbn.
  destruct it; reflexivity.
Qed.

Lemma setBlurRegions_length_changes (it : VideoQueueItem) val :
  length (val (blurRegions it)) <> length (blurRegions it) ->
  (history (setBlurRegions it val), historyIndex (setBlurRegions it val))
  = pushed it (subtitles it) (val (blurRegions it)).
Proof.
  intros Hlen. unfold setBlurRegions. rewrite updateActiveVideo_history.
  unfold changes. cbn.
  destruct (json_eq_regions (val (blurRegions it)) (blurRegions it)) eqn:E.
  - apply list_eqb_length in E. contradiction.
  - rewrite orb_true_r. reflexivity.
Qed.

(** X8. The delete button of region [idx] takes exactly that region
    out of the list, the others keeping their order, and clears the
    selection; the removal is one new snapshot, under the cursor.  An
    index no region has leaves the item as it was, history included. *)
Theorem removeRegion_exact (st : State) (idx : nat) :
  let st' := removeRegion st idx in
  blurRegions (item st')
  = firstn idx (blurRegions (item st)) ++ skipn (S idx) (blurRegions (item st))
  /\ subtitles (item st') = subtitles (item st)
  /\ editingIdx st' = None
  /\ ((idx < length (blurRegions (item st)))%nat ->
      S (length (blurRegions (item st'))) = length (blurRegions (item st))
      /\ current (item st')
         = Some {| hs_subtitles := subtitles (item st);
                   hs_blurRegions := blurRegions (item st') |})
  /\ ((length (blurRegions (item st)) <= idx)%nat -> item st' = item st).
Proof.
  intros st'. unfold st', removeRegion. cbn [item editingIdx with_editingIdx with_item].
  rewrite setBlurRegions_blurRegions.
  split; [apply remove_at_split |].
  split; [unfold setBlurRegions; rewrite updateActiveVideo_subtitles; reflexivity |].
  split; [reflexivity |]. split.
  - intros Hidx.
    assert (Hlen : S (length (remove_at idx (blurRegions (item st))))
                   = length (blurRegions (item st))).
    { rewrite remove_at_split, length_app, length_firstn, length_skipn. lia. }
    split; [exact Hlen |].
    unfold current.
    assert (E : (history (setBlurRegions (item st) (remove_at idx)),
                 historyIndex (setBlurRegions (item st) (remove_at idx)))
                = pushed (item st) (subtitles (item st))
                    (remove_at idx (blurRegions (item st))))
      by (apply setBlurRegions_length_changes; lia).
    pose proof (pushed_current (item st) (subtitles (item st))
                  (remove_at idx (blurRegions (item st)))) as Hcur.
    rewrite <- E in Hcur. exact Hcur.
  - intros Hout. apply setBlurRegions_same, remove_at_out, Hout.
Qed.

(** X9. Grabbing region [idx] at pointer [p] and moving the pointer to
    [q] moves that region by [q - p] as long as the moved region stays in
    the frame: its size is kept, and every other region is left as it
    was. *)
Theorem move_follows_pointer (st : State) (idx : nat) (region : BlurRegion) (p q : Point) :
  isDrawing st = false ->
  blurRegions (item st) !! idx = Some region ->
  (0 <= x region + (pt_x q - pt_x p) <= 100 - width region)%Q ->
  (0 <= y region + (pt_y q - pt_y p) <= 100 - height region)%Q ->
  exists st' region',
    steps st [RegionMouseDown idx p; MouseMove q] = Some st'
    /\ blurRegions (item st') = <[idx := region']> (blurRegions (item st))
    /\ (x region' == x region + (pt_x q - pt_x p))%Q
    /\ (y region' == y region + (pt_y q - pt_y p))%Q
    /\ width region' = width region
    /\ height region' = height region
    /\ editingIdx st' = Some idx.
Proof.
  intros Hd Hr Hx Hy. cbn [steps step]. unfold handleRegionMouseDown.
  rewrite Hd, Hr. unfold handleMouseMove. cbn [isDrawing startPos editingIdx editAction
    dragOffset item]. unfold edited. rewrite Hr.
  eexists. eexists. split; [reflexivity |].
  cbn [item with_item editingIdx]. rewrite setBlurRegions_blurRegions.
  split; [reflexivity |].
  unfold moved. cbn [x y width height pt_x pt_y].
  repeat split.
  - destruct (Q.min_spec (100 - width region) (pt_x q - (pt_x p - x region))) as [[? E]|[? E]];
      rewrite E;
      [ destruct (Q.max_spec 0 (100 - width region)) as [[? E']|[? E']]
      | destruct (Q.max_spec 0 (pt_x q - (pt_x p - x region))) as [[? E']|[? E']] ];
      rewrite E'; lra.
  - destruct (Q.min_spec (100 - height region) (pt_y q - (pt_y p - y region))) as [[? E]|[? E]];
      rewrite E;
      [ destruct (Q.max_spec 0 (100 - height region)) as [[? E']|[? E']]
      | destruct (Q.max_spec 0 (pt_y q - (pt_y p - y region))) as [[? E']|[? E']] ];
      rewrite E'; lra.
Qed.

(** X9, at a concrete input: a region dragged 20 right and 10 up. *)
Lemma move_follows_pointer_witness :
  exists st' region',
    steps (initialState (commit (initialItem "Inter" 18) []
                           [{| x := 10; y := 80; width := 30; height := 15 |}]))
          [RegionMouseDown 0 {| pt_x := 20; pt_y := 85 |};
           MouseMove {| pt_x := 40; pt_y := 75 |}] = Some st'
    /\ blurRegions (item st') = [region']
    /\ (x region' == 30)%Q /\ (y region' == 70)%Q.
Proof.
  destruct (move_follows_pointer
              (initialState (commit (initialItem "Inter" 18) []
                               [{| x := 10; y := 80; width := 30; height := 15 |}]))
              0 {| x := 10; y := 80; width := 30; height := 15 |}
              {| pt_x := 20; pt_y := 85 |} {| pt_x := 40; pt_y := 75 |})
    as (st' & region' & Hs & Hb & Hx & Hy & _).
  - reflexivity.
  - reflexivity.
  - cbn; lra.
  - cbn; lra.
  - exists st', region'. split; [exact Hs |]. split; [exact Hb |].
    split; [rewrite Hx | rewrite Hy]; reflexivity.
Defined.

(** X10. A whole drawing gesture: with drawing switched on, pressing
    at [p], moving to [q] and releasing appends the rectangle spanned by
    [p] and [q] at the end of the list when both its sides exceed 0.5,
    and leaves the item as it was, history included, when they do not;
    either way drawing is switched off.  A press and release with no move
    between them adds nothing and leaves drawing switched on. *)
Theorem draw_gesture (st : State) (p q : Point) :
  isDrawing st = false ->
  currentDrag st = None ->
  (exists st',
     steps st [ToggleDrawing; MouseDown p; MouseMove q; MouseUp] = Some st'
     /\ isDrawing st' = false
     /\ editingIdx st' = None
     /\ (if Qgtb (width (dragged p q)) 0.5 && Qgtb (height (dragged p q)) 0.5
         then blurRegions (item st') = blurRegions (item st) ++ [dragged p q]
         else item st' = item st))
  /\ (exists st',
        steps st [ToggleDrawing; MouseDown p; MouseUp] = Some st'
        /\ isDrawing st' = true
        /\ item st' = item st).
Proof.
  intros Hd Hc. split.
  - cbn [steps step]. unfold toggleDrawing, handleMouseDown. rewrite Hd.
    cbn [editingIdx isDrawing negb item startPos currentDrag editAction dragOffset].
    unfold handleMouseMove. cbn [isDrawing startPos item currentDrag editingIdx editAction
      dragOffset]. unfold handleMouseUp. cbn [isDrawing currentDrag item editingIdx].
    eexists. split; [reflexivity |]. cbn [isDrawing editingIdx item].
    split; [reflexivity |]. split; [reflexivity |].
    destruct (Qgtb (width (dragged p q)) 0.5 && Qgtb (height (dragged p q)) 0.5);
      [apply setBlurRegions_blurRegions | reflexivity].
  - cbn [steps step]. unfold toggleDrawing, handleMouseDown. rewrite Hd.
    cbn [editingIdx isDrawing negb item startPos currentDrag editAction dragOffset].
    unfold handleMouseUp. cbn [isDrawing currentDrag item editingIdx]. rewrite Hc.
    eexists. split; [reflexivity |]. split; reflexivity.
Qed.

(** X10, at a concrete input: a 30 by 15 rectangle on a fresh item. *)
Lemma draw_gesture_witness :
  exists st',
    steps (initialState (initialItem "Inter" 18))
          [ToggleDrawing; MouseDown {| pt_x := 10; pt_y := 80 |};
           MouseMove {| pt_x := 40; pt_y := 95 |}; MouseUp] = Some st'
    /\ isDrawing st' = false
    /\ blurRegions (item st')
       = [dragged {| pt_x := 10; pt_y := 80 |} {| pt_x := 40; pt_y := 95 |}].
Proof.
  destruct (draw_gesture (initialState (initialItem "Inter" 18))
              {| pt_x := 10; pt_y := 80 |} {| pt_x := 40; pt_y := 95 |})
    as ((st' & Hs & Hd & _ & Hb) & _).
  - reflexivity.
  - reflexivity.
  - exists st'. split; [exact Hs |]. split; [exact Hd |]. exact Hb.
Defined.

End RegionGestures.

(** ** Subtitle editor, continued *)

Section SubtitleEditorMore.
Import History SubtitleEditor.

Lemma setSubtitles_same (it : VideoQueueItem) val :
  val (subtitles it) = subtitles it -> setSubtitles it val = it.
Proof.
  intros E. unfold setSubtitles, updateActiveVideo, changes. cbn.
  rewrite E, json_eq_regions_refl, json_eq_subtitles_refl. cbn.
  destruct it; reflexivity.
Qed.

Lemma updateSub_no_match (id : string) (fv : FieldValue) (prev : list SubtitleEntry) :
  Forall (fun sub => sub_id sub <> id) prev -> updateSub id fv prev = prev.
Proof.
  induction 1 as [| sub prev Hsub _ IH]; [reflexivity |].
  cbn. apply String.eqb_neq in Hsub. rewrite Hsub. f_equal. exact IH.
Qed.

Lemma assign_id (sub : SubtitleEntry) (fv : FieldValue) : sub_id (assign sub fv) = sub_id sub.
Proof. destruct fv; reflexivity. Qed.

Lemma assign_twice (sub : SubtitleEntry) (a b : FieldValue) :
  sameField a b = true -> assign (assign sub a) b = assign sub b.
Proof. destruct a, b; try discriminate; reflexivity. Qed.

(** X11. An edit of one field of the subtitle [id] keeps the length of
    the list and the id at every position, so nothing is moved or
    re-sorted; entries of another id are left as they were; a second
    edit of the same field replaces the first; and when no entry has the
    id, the list and the item, history included, are unchanged. *)
Theorem updateSub_scoped
    (id : string) (fv fv' : FieldValue) (item : VideoQueueItem) :
  let prev := subtitles item in
  List.map sub_id (updateSub id fv prev) = List.map sub_id prev
  /\ (forall i sub, prev !! i = Some sub -> sub_id sub <> id ->
        updateSub id fv prev !! i = Some sub)
  /\ (sameField fv fv' = true ->
        updateSub id fv' (updateSub id fv prev) = updateSub id fv' prev)
  /\ (Forall (fun sub => sub_id sub <> id) prev ->
        updateSub id fv prev = prev /\ setSubtitles item (updateSub id fv) = item).
Proof.
  intros prev. split; [| split; [| split]].
  - unfold updateSub. rewrite List.map_map. apply List.map_ext. intros sub.
    destruct (String.eqb (sub_id sub) id); [apply assign_id | reflexivity].
  - intros i sub Hi Hid. unfold updateSub.
    change (List.map ?f ?l) with (f <$> l). rewrite list_lookup_fmap, Hi. cbn.
    apply String.eqb_neq in Hid. rewrite Hid. reflexivity.
  - intros Hsame. unfold updateSub. rewrite List.map_map. apply List.map_ext. intros sub.
    destruct (String.eqb (sub_id sub) id) eqn:E.
    + rewrite assign_id, E. apply assign_twice, Hsame.
    + rewrite E. reflexivity.
  - intros Hno. split; [apply updateSub_no_match, Hno |].
    apply setSubtitles_same, updateSub_no_match, Hno.
Qed.

Lemma removeSub_no_match (id : string) (prev : list SubtitleEntry) :
  Forall (fun sub => sub_id sub <> id) prev -> removeSub id prev = prev.
Proof.
  induction 1 as [| sub prev Hsub _ IH]; [reflexivity |].
  unfold removeSub in *. cbn. apply String.eqb_neq in Hsub. rewrite Hsub. cbn.
  f_equal. exact IH.
Qed.

Lemma filter_sorted (p : SubtitleEntry -> bool) (l : list SubtitleEntry) :
  StronglySorted ascending l -> StronglySorted ascending (List.filter p l).
Proof.
  induction 1 as [| a l Hs IH Ha]; cbn; [constructor |].
  destruct (p a); [| exact IH]. constructor; [exact IH |].
  apply List.Forall_forall. intros b Hb. apply List.filter_In in Hb as [Hb _].
  rewrite List.Forall_forall in Ha. apply Ha, Hb.
Qed.

(** X12. Deleting the subtitle [id] removes every entry of that id and
    no other, the remaining entries keeping their order, so a list in
    ascending order of start time stays so; deleting twice is deleting
    once; and when no entry has the id, the list and the item, history
    included, are unchanged. *)
Theorem removeSub_exact (id : string) (item : VideoQueueItem) :
  let prev := subtitles item in
  (forall sub, In sub (removeSub id prev) <-> In sub prev /\ sub_id sub <> id)
  /\ sublist (removeSub id prev) prev
  /\ (StronglySorted ascending prev -> StronglySorted ascending (removeSub id prev))
  /\ removeSub id (removeSub id prev) = removeSub id prev
  /\ (Forall (fun sub => sub_id sub <> id) prev ->
        removeSub id prev = prev /\ setSubtitles item (removeSub id) = item).
Proof.
  intros prev. split; [| split; [| split; [| split]]].
  - intros sub. unfold removeSub. rewrite List.filter_In, negb_true_iff, String.eqb_neq.
    reflexivity.
  - unfold removeSub. induction prev as [| sub l IH]; cbn; [constructor |].
    destruct (negb (String.eqb (sub_id sub) id)); [apply sublist_skip | apply sublist_cons];
      exact IH.
  - apply filter_sorted.
  - apply removeSub_no_match. apply List.Forall_forall. intros sub Hin.
    unfold removeSub in Hin. apply List.filter_In in Hin as [_ Hin].
    apply negb_true_iff, String.eqb_neq in Hin. exact Hin.
  - intros Hno. split; [apply removeSub_no_match, Hno |].
    apply setSubtitles_same, removeSub_no_match, Hno.
Qed.

Lemma sort_insert_head (a : SubtitleEntry) (l : list SubtitleEntry) :
  Forall (ascending a) l -> sort_insert byStartTime a l = a :: l.
Proof.
  intros H. destruct H as [| b l Hb _]; [reflexivity |].
  cbn. apply byStartTime_le in Hb. rewrite Hb. reflexivity.
Qed.

Lemma sort_sorted_id (l : list SubtitleEntry) :
  StronglySorted ascending l -> sort byStartTime l = l.
Proof.
  induction 1 as [| a l Hs IH Ha]; [reflexivity |].
  cbn. rewrite IH. apply sort_insert_head, Ha.
Qed.

Lemma filter_sort_insert (p : SubtitleEntry -> bool) (a : SubtitleEntry)
    (l : list SubtitleEntry) :
  StronglySorted ascending l ->
  List.filter p (sort_insert byStartTime a l)
  = if p a then sort_insert byStartTime a (List.filter p l) else List.filter p l.
Proof.
  induction 1 as [| b l Hs IH Hb]; cbn.
  - destruct (p a); reflexivity.
  - destruct (Qle_bool (byStartTime a b) 0) eqn:E.
    + cbn. destruct (p a) eqn:Pa; [| reflexivity].
      symmetry. apply byStartTime_le in E.
      assert (Hall : Forall (ascending a) (List.filter p (b :: l))).
      { apply List.Forall_forall. intros c Hc. apply List.filter_In in Hc as [Hc _].
        destruct Hc as [<- | Hc]; [exact E |].
        rewrite List.Forall_forall in Hb. specialize (Hb c Hc).
        unfold ascending in *. lra. }
      cbn in Hall. apply sort_insert_head, Hall.
    + cbn. rewrite IH. destruct (p b) eqn:Pb; destruct (p a) eqn:Pa; try reflexivity.
      cbn. rewrite E. reflexivity.
Qed.

Lemma filter_sort (p : SubtitleEntry -> bool) (l : list SubtitleEntry) :
  List.filter p (sort byStartTime l) = sort byStartTime (List.filter p l).
Proof.
  induction l as [| a l IH]; [reflexivity |].
  cbn. rewrite filter_sort_insert by apply sort_sorted.
  rewrite IH. destruct (p a); reflexivity.
Qed.

(** X13. Adding a subtitle and deleting it again, by the id it was
    given, leaves the previous list sorted by start time, without the
    entries that had the same id; for a list already in ascending order
    in which the id is new it gives the list back. *)
Theorem removeSub_addSub (now : string) (currentTime : Q) (prev : list SubtitleEntry) :
  removeSub now (addSub now currentTime prev) = sort byStartTime (removeSub now prev)
  /\ (StronglySorted ascending prev -> Forall (fun sub => sub_id sub <> now) prev ->
        removeSub now (addSub now currentTime prev) = prev).
Proof.
  assert (E : removeSub now (addSub now currentTime prev)
              = sort byStartTime (removeSub now prev)).
  { unfold removeSub, addSub. rewrite filter_sort, List.filter_app. cbn.
    rewrite String.eqb_refl. cbn. rewrite app_nil_r. reflexivity. }
  split; [exact E |]. intros Hs Hno.
  rewrite E, removeSub_no_match by exact Hno. apply sort_sorted_id, Hs.
Qed.

(** X13, at a concrete input: a subtitle added to two entries and
    deleted again. *)
Lemma removeSub_addSub_witness :
  let at1 := {| sub_id := "a"; startTime := 1; endTime := 3; originalText := "one";
                translatedText := ""; audioUrl := None |} in
  let at8 := {| sub_id := "b"; startTime := 8; endTime := 9; originalText := "two";
                translatedText := ""; audioUrl := None |} in
  removeSub "now" (addSub "now" 5 [at1; at8]) = [at1; at8].
Proof.
  intros at1 at8.
  destruct (removeSub_addSub "now" 5 [at1; at8]) as [_ H]. apply H.
  - repeat constructor; unfold ascending; cbn; lra.
  - repeat constructor; discriminate.
Defined.

Lemma filter_none {A} (p : A -> bool) (l : list A) :
  Forall (fun c => p c = false) l -> List.filter p l = [].
Proof. induction 1 as [| c l Hc _ IH]; cbn; [| rewrite Hc]; auto. Qed.

Lemma filter_all {A} (p : A -> bool) (l : list A) :
  Forall (fun c => p c = true) l -> List.filter p l = l.
Proof. induction 1 as [| c l Hc _ IH]; cbn; [| rewrite Hc, IH]; auto. Qed.

(** X14. In a list in ascending order of start time the added subtitle
    lands after every entry that starts no later than the current time
    and before every entry that starts after it; the entries around it
    keep their order. *)
Theorem addSub_position (now : string) (currentTime : Q) (prev : list SubtitleEntry) :
  StronglySorted ascending prev ->
  addSub now currentTime prev
  = List.filter (startsBy currentTime) prev ++ [newSub now currentTime]
    ++ List.filter (startsAfter currentTime) prev.
Proof.
  unfold addSub. set (n := newSub now currentTime).
  induction 1 as [| a l Hs IH Ha]; [reflexivity |].
  cbn [app sort]. rewrite IH. cbn [List.filter]. unfold startsBy at 2, startsAfter at 2.
  destruct (Qle_bool (startTime a) currentTime) eqn:E; cbn [negb].
  - cbn [app]. apply sort_insert_head. apply Forall_app. split.
    + apply List.Forall_forall. intros c Hc. apply List.filter_In in Hc as [Hc _].
      rewrite List.Forall_forall in Ha. apply Ha, Hc.
    + constructor.
      * apply Qle_bool_iff in E. exact E.
      * apply List.Forall_forall. intros c Hc. apply List.filter_In in Hc as [Hc _].
        rewrite List.Forall_forall in Ha. apply Ha, Hc.
  - assert (Hlt : (currentTime < startTime a)%Q).
    { destruct (Qlt_le_dec currentTime (startTime a)) as [Hlt | Hle]; [exact Hlt |].
      apply Qle_bool_iff in Hle. congruence. }
    assert (Hby : List.filter (startsBy currentTime) l = []).
    { apply filter_none. eapply List.Forall_impl; [| exact Ha]. intros c Hc.
      unfold startsBy. destruct (Qle_bool (startTime c) currentTime) eqn:Ec; [| reflexivity].
      apply Qle_bool_iff in Ec. unfold ascending in Hc. lra. }
    assert (Hafter : List.filter (startsAfter currentTime) l = l).
    { apply filter_all. eapply List.Forall_impl; [| exact Ha]. intros c Hc.
      unfold startsAfter. destruct (Qle_bool (startTime c) currentTime) eqn:Ec; [| reflexivity].
      apply Qle_bool_iff in Ec. unfold ascending in Hc. lra. }
    rewrite Hby, Hafter. cbn [app sort_insert].
    assert (En : Qle_bool (byStartTime a n) 0 = false).
    { destruct (Qle_bool (byStartTime a n) 0) eqn:En; [| reflexivity].
      apply byStartTime_le in En. unfold ascending, n in En. cbn in En. lra. }
    rewrite En. f_equal. apply sort_insert_head, Ha.
Qed.

(** X14, at a concrete input: a subtitle added at 5 s between entries
    at 1 s and 8 s. *)
Lemma addSub_position_witness :
  let at1 := {| sub_id := "a"; startTime := 1; endTime := 3; originalText := "one";
                translatedText := ""; audioUrl := None |} in
  let at8 := {| sub_id := "b"; startTime := 8; endTime := 9; originalText := "two";
                translatedText := ""; audioUrl := None |} in
  addSub "now" 5 [at1; at8] = [at1; newSub "now" 5; at8].
Proof.
  intros at1 at8.
  rewrite (addSub_position "now" 5 [at1; at8]); [reflexivity |].
  repeat constructor; unfold ascending; cbn; lra.
Defined.

End SubtitleEditorMore.

(** ** Audio cueing, continued *)

Section AudioCueMore.
Import AudioCue.

Lemma pause_paused (audio h : nat) (els : gmap nat HTMLAudioElement) (a : HTMLAudioElement) :
  pause audio els !! h = Some a -> paused a = false ->
  h <> audio /\ els !! h = Some a.
Proof.
  unfold pause. intros Hl Hp. destruct (decide (audio = h)) as [-> | Hne].
  - rewrite lookup_alter_eq in Hl. destruct (els !! h); [| discriminate].
    injection Hl as <-. discriminate.
  - rewrite lookup_alter_ne in Hl by exact Hne. split; [congruence | exact Hl].
Qed.

Lemma pauseActive_silent (st : State) (h : nat) (a : HTMLAudioElement) :
  exclusive st -> pauseActive st !! h = Some a -> paused a = true.
Proof.
  intros Hex Hl. destruct (paused a) eqn:Hp; [reflexivity |]. exfalso.
  unfold pauseActive in Hl. destruct (activeAudio st) as [audio |] eqn:Ha.
  - destruct (pause_paused audio h (elements st) a Hl Hp) as [Hne Hel].
    pose proof (Hex h a Hel Hp) as Hact. congruence.
  - pose proof (Hex h a Hl Hp) as Hact. congruence.
Qed.

Lemma restart_exclusive (playOk : bool) (audio h : nat) (els : gmap nat HTMLAudioElement)
    (a : HTMLAudioElement) :
  (forall k b, els !! k = Some b -> k <> audio -> paused b = true) ->
  restart playOk audio els !! h = Some a -> paused a = false -> h = audio.
Proof.
  intros Hsilent Hl Hp. destruct (decide (h = audio)) as [-> | Hne]; [reflexivity |].
  unfold restart in Hl. rewrite lookup_alter_ne in Hl by congruence.
  pose proof (Hsilent h a Hl Hne). congruence.
Qed.

Lemma cue_exclusive st activeSub playOk :
  exclusive st -> exclusive (cue st activeSub playOk).
Proof.
  intros Hex. unfold cue.
  destruct (cueUrl activeSub) as [url |].
  - destruct (playing st url); [exact Hex |].
    destruct (audioCache st !! url) as [audio |].
    + intros h a Hl Hp. cbn in *. f_equal. symmetry.
      eapply restart_exclusive; [| exact Hl | exact Hp].
      intros k b Hk _. eapply pauseActive_silent; eauto.
    + intros h a Hl Hp. cbn in *. f_equal. symmetry.
      eapply restart_exclusive; [| exact Hl | exact Hp].
      intros k b Hk Hne. rewrite lookup_insert_ne in Hk by congruence.
      eapply pauseActive_silent; eauto.
  - destruct (activeAudio st) as [audio |] eqn:Ha; [| exact Hex].
    intros h a Hl Hp. cbn in *. exfalso.
    destruct (pause_paused audio h (elements st) a Hl Hp) as [Hne Hel].
    pose proof (Hex h a Hel Hp). congruence.
Qed.

Lemma run_exclusive renders st : exclusive st -> exclusive (run st renders).
Proof.
  revert st. induction renders as [| [activeSub playOk] renders IH]; intros st Hex; simpl.
  - exact Hex.
  - apply IH, cue_exclusive, Hex.
Qed.

Lemma initialState_exclusive : exclusive initialState.
Proof. intros audio a H. cbn in H. rewrite lookup_empty in H. discriminate. Qed.

(** X15. Over any sequence of renders at most one voice-over plays:
    an element that is not paused is the active one.  After a render
    with no usable audio URL nothing is active and every element is
    paused. *)
Theorem one_voice_at_a_time
    (renders : list (option SubtitleEntry * bool))
    (activeSub : option SubtitleEntry) (playOk : bool) :
  let st := run initialState renders in
  let st' := cue st activeSub playOk in
  (forall audio a,
     elements st !! audio = Some a -> paused a = false -> activeAudio st = Some audio)
  /\ (forall audio other a b,
        elements st !! audio = Some a -> elements st !! other = Some b ->
        paused a = false -> paused b = false -> audio = other)
  /\ (cueUrl activeSub = None ->
        activeAudio st' = None
        /\ forall audio a, elements st' !! audio = Some a -> paused a = true).
Proof.
  intros st st'.
  assert (Hex : exclusive st) by apply run_exclusive, initialState_exclusive.
  assert (Hex' : exclusive st') by apply cue_exclusive, Hex.
  split; [exact Hex |]. split.
  - intros audio other a b Ha Hb Hpa Hpb.
    pose proof (Hex _ _ Ha Hpa). pose proof (Hex _ _ Hb Hpb). congruence.
  - intros Hurl.
    assert (Hnone : activeAudio st' = None).
    { unfold st', cue. rewrite Hurl. destruct (activeAudio st) eqn:E; [reflexivity | exact E]. }
    split; [exact Hnone |]. intros audio a Hl.
    destruct (paused a) eqn:Hp; [reflexivity |].
    pose proof (Hex' _ _ Hl Hp). congruence.
Qed.


End AudioCueMore.

(** ** Subtitle interchange format, continued *)

Section SrtMore.
Import Srt.






















Lemma toString_inj (i j : Z) : toString i = toString j -> i = j.
Proof.
  unfold toString. intros E.
  apply (f_equal string_of_list_ascii) in E.
  rewrite !string_of_list_ascii_of_string in E.
  apply to_int_inj.
  assert (Hnn : forall n, Z.to_int n <> Decimal.Pos Decimal.Nil
                          /\ Z.to_int n <> Decimal.Neg Decimal.Nil).
  { intros [| p | p]; cbn; split; try discriminate; intros [= H];
      exact (DecimalPos.Unsigned.to_uint_nonnil _ H). }
  pose proof (NilZero.isi (Z.to_int i) (proj1 (Hnn i)) (proj2 (Hnn i))) as Hi.
  pose proof (NilZero.isi (Z.to_int j) (proj1 (Hnn j)) (proj2 (Hnn j))) as Hj.
  rewrite E in Hi. congruence.
Qed.

Lemma app_sep_unique {A} (c : A) (l1 r1 l2 r2 : list A) :
  ~ In c l1 -> ~ In c l2 -> l1 ++ c :: r1 = l2 ++ c :: r2 -> l1 = l2.
Proof.
  revert l2. induction l1 as [| a l1 IH]; intros [| b l2] H1 H2 E; cbn in *.
  - reflexivity.
  - injection E as <- _. tauto.
  - injection E as -> _. tauto.
  - injection E as -> E. f_equal. apply (IH l2); tauto.
Qed.

Lemma toString_no_dash (index : nat) : ~ In "-"%char (toString (Z.of_nat index)).
Proof.
  destruct (toString_digits (Z.of_nat index) ltac:(lia)) as (c & cs & -> & Hd).
  intros Hin. rewrite List.Forall_forall in Hd. specialize (Hd _ Hin). discriminate.
Qed.

Lemma srtId_inj (i j : nat) (n n' : Z) : srtId i n = srtId j n' -> i = j.
Proof.
  unfold srtId. intros E. apply (f_equal list_ascii_of_string) in E.
  rewrite !list_ascii_of_string_of_list_ascii in E.
  apply app_inv_head in E. cbn [app] in E.
  apply app_sep_unique in E; [| apply toString_no_dash | apply toString_no_dash].
  apply toString_inj in E. lia.
Qed.

Lemma parseBlock_ids (now : Z) (block : list ascii) (index : nat) :
  List.map sub_id (parseBlock now block index) = []
  \/ List.map sub_id (parseBlock now block index) = [srtId index now].
Proof.
  unfold parseBlock. destruct (3 <=? _)%nat; [| left; reflexivity].
  destruct (timeLine_match _) as [[from to] |]; [| left; reflexivity].
  destruct (timestampToSeconds from); [| left; reflexivity].
  destruct (timestampToSeconds to); [| left; reflexivity].
  right. reflexivity.
Qed.

Lemma parseBlocks_ids (now : nat -> Z) (blocks : list (list ascii)) (index : nat) :
  NoDup (List.map sub_id (parseBlocks now blocks index))
  /\ Forall (fun id => exists i, (index <= i)%nat /\ id = srtId i (now i))
       (List.map sub_id (parseBlocks now blocks index))
  /\ (length (parseBlocks now blocks index) <= length blocks)%nat.
Proof.
  revert index. induction blocks as [| block blocks IH]; intros index; cbn [parseBlocks].
  - cbn. split; [constructor |]. split; [constructor | lia].
  - destruct (IH (S index)) as (Hnd & Hall & Hlen).
    rewrite List.map_app, length_app.
    assert (Hall' : Forall (fun id => exists i, (index <= i)%nat /\ id = srtId i (now i))
                      (List.map sub_id (parseBlocks now blocks (S index)))).
    { eapply List.Forall_impl; [| exact Hall]. cbn. intros id (i & Hi & ->).
      exists i. split; [lia | reflexivity]. }
    destruct (parseBlock_ids (now index) block index) as [E | E].
    + rewrite E. apply List.map_eq_nil in E. rewrite E. cbn.
      split; [exact Hnd |]. split; [exact Hall' | lia].
    + rewrite E.
      assert (L : length (parseBlock (now index) block index) = 1%nat).
      { rewrite <- (List.length_map sub_id), E. reflexivity. }
      rewrite L. cbn [app]. split; [| split; [| cbn; lia]].
      * apply NoDup_cons_2; [| exact Hnd]. rewrite list_elem_of_In. intros Hin.
        rewrite List.Forall_forall in Hall. destruct (Hall _ Hin) as (i & Hi & Eid).
        apply srtId_inj in Eid. lia.
      * constructor; [| exact Hall']. exists index. split; [lia | reflexivity].
Qed.

Lemma trimStart_blank (s : list ascii) : forallb is_space s = true -> trimStart s = [].
Proof.
  induction s as [| c s IH]; cbn; [reflexivity |].
  intros H. apply andb_true_iff in H as [-> H]. apply IH, H.
Qed.

(** X20. The entries of an imported file have pairwise distinct ids,
    whatever the clock reads, and there is at most one of them for each
    block of the text; a text of white space only gives no entry. *)
Theorem parseSRT_ids_distinct (now : nat -> Z) (content : string) :
  let blocks := splitBlocks (trim (list_ascii_of_string content)) 0 [] in
  NoDup (List.map sub_id (parseSRT now content))
  /\ (length (parseSRT now content) <= length blocks)%nat
  /\ (forallb is_space (list_ascii_of_string content) = true -> parseSRT now content = []).
Proof.
  intros blocks. unfold parseSRT. fold blocks.
  destruct (parseBlocks_ids now blocks 0) as (Hnd & _ & Hlen).
  split; [exact Hnd |]. split; [exact Hlen |].
  intros Hblank. unfold blocks, trim. rewrite trimStart_blank by exact Hblank.
  reflexivity.
Qed.

End SrtMore.

(** ** Retry helper, continued *)

Section GeminiServiceMore.
Import GeminiService.
Context {T : Type}.
Implicit Types (fn : nat -> Settled T) (random : nat -> Q).

Lemma retryLoop_outcomes fn random (remaining i : nat) (last : option JsError) :
  exists k,
    (k <= remaining)%nat
    /\ (forall j, (j < k)%nat ->
          exists error, fn (i + j)%nat = Rejected error /\ retryable error = true)
    /\ (((k < remaining)%nat
         /\ snd (retryLoop fn random remaining i last)
            = flat_map (fun i => [Call i; Sleep (waitTime i (random i))]) (seq i k)
              ++ [Call (i + k)]
         /\ ((exists value, fn (i + k)%nat = Resolved value
                /\ fst (retryLoop fn random remaining i last) = Returned value)
             \/ (exists error, fn (i + k)%nat = Rejected error /\ retryable error = false
                   /\ fst (retryLoop fn random remaining i last) = Thrown (Some error))))
        \/ (k = remaining
            /\ snd (retryLoop fn random remaining i last)
               = flat_map (fun i => [Call i; Sleep (waitTime i (random i))]) (seq i k)
            /\ fst (retryLoop fn random remaining i last)
               = Thrown (match k with
                         | O => last
                         | S k' => rejection fn (i + k')
                         end))).
Proof.
  revert i last. induction remaining as [| remaining IH]; intros i last.
  - exists 0%nat. split; [lia |]. split; [intros j Hj; lia |]. right. repeat split.
  - cbn [retryLoop]. destruct (fn i) as [value | error] eqn:Hfn.
    + exists 0%nat. split; [lia |]. split; [intros j Hj; lia |]. left.
      rewrite Nat.add_0_r. split; [lia |]. split; [reflexivity |].
      left. exists value. split; [exact Hfn | reflexivity].
    + destruct (retryable error) eqn:Hre.
      * destruct (IH (S i) (Some error)) as (k & Hk & Hfail & Hcase).
        destruct (retryLoop fn random remaining (S i) (Some error))
          as [completion effects] eqn:Hloop.
        cbn [fst snd] in *.
        exists (S k). split; [lia |]. split.
        { intros [| j] Hj.
          - rewrite Nat.add_0_r. eauto.
          - rewrite Nat.add_succ_r. apply (Hfail j). lia. }
        destruct Hcase as [(Hlt & Heff & Hout) | (-> & Heff & Hout)].
        { left. split; [lia |]. rewrite Nat.add_succ_r. split.
          - rewrite Heff. reflexivity.
          - exact Hout. }
        { right. split; [reflexivity |]. split.
          - rewrite Heff. reflexivity.
          - rewrite Hout. f_equal. destruct remaining as [| k'].
            + unfold rejection. rewrite Nat.add_0_r, Hfn. reflexivity.
            + rewrite Nat.add_succ_r. reflexivity. }
      * exists 0%nat. split; [lia |]. split; [intros j Hj; lia |]. left.
        rewrite Nat.add_0_r. split; [lia |]. split; [reflexivity |].
        right. exists error. repeat split; assumption.
Qed.

(** X21. Every run of the retry helper has one of two shapes.  Either
    some call within the bound ended it, after the calls before it were
    rejected with rate-limit or server errors and each followed by its
    sleep: a value is returned, or an error of another class is thrown,
    and nothing follows that call.  Or all the allowed calls were rejected
    with such errors, each followed by its sleep, and the error of the
    last call is thrown; with a bound of zero or less no call is made
    and the value thrown is [undefined]. *)
Theorem withRetry_outcomes fn random (maxRetries : Z) :
  let n := Z.to_nat maxRetries in
  let result := withRetry fn random maxRetries in
  (exists k,
     (k <= n)%nat
     /\ (forall j, (j < k)%nat ->
           exists error, fn j = Rejected error /\ retryable error = true)
     /\ (((k < n)%nat
          /\ snd result = retried random k ++ [Call k]
          /\ ((exists value, fn k = Resolved value /\ fst result = Returned value)
              \/ (exists error, fn k = Rejected error /\ retryable error = false
                    /\ fst result = Thrown (Some error))))
         \/ (k = n
             /\ snd result = retried random n
             /\ fst result
                = Thrown (match n with
                          | O => None
                          | S n' => rejection fn n'
                          end))))
  /\ (maxRetries <= 0 -> result = (Thrown None, [])).
Proof.
  intros n result. split.
  - destruct (retryLoop_outcomes fn random n 0 None) as (k & Hk & Hfail & Hcase).
    exists k. split; [exact Hk |]. split; [exact Hfail |].
    destruct Hcase as [(Hlt & Heff & Hout) | (-> & Heff & Hout)].
    + left. split; [exact Hlt |]. split; [exact Heff | exact Hout].
    + right. split; [reflexivity |]. split; [exact Heff | exact Hout].
  - intros Hle. unfold result, withRetry.
    replace (Z.to_nat maxRetries) with 0%nat by lia. reflexivity.
Qed.

Lemma pow2_succ (i : nat) :
  (inject_Z (2 ^ Z.of_nat (S i)) == 2 * inject_Z (2 ^ Z.of_nat i))%Q.
Proof.
  rewrite Nat2Z.inj_succ, Z.pow_succ_r by lia. rewrite inject_Z_mult. reflexivity.
Qed.

Lemma retryLoop_slept fn random (remaining i : nat) (last : option JsError) :
  (forall j, (0 <= random j < 1)%Q) ->
  (slept (snd (retryLoop fn random remaining i last))
   <= (inject_Z (2 ^ Z.of_nat (i + remaining)) - inject_Z (2 ^ Z.of_nat i)
       + inject_Z (Z.of_nat remaining)) * 1000)%Q.
Proof.
  intros Hrand. revert i last.
  induction remaining as [| remaining IH]; intros i last.
  - cbn [retryLoop snd slept]. rewrite Nat.add_0_r. change (inject_Z (Z.of_nat 0)) with 0%Q. lra.
  - assert (Hpos : (0 <= (inject_Z (2 ^ Z.of_nat (i + S remaining)) - inject_Z (2 ^ Z.of_nat i)
                          + inject_Z (Z.of_nat (S remaining))) * 1000)%Q).
    { assert (2 ^ Z.of_nat i <= 2 ^ Z.of_nat (i + S remaining))
        by (apply Z.pow_le_mono_r; lia).
      assert (Hq : (inject_Z (2 ^ Z.of_nat i) <= inject_Z (2 ^ Z.of_nat (i + S remaining)))%Q)
        by (rewrite <- Zle_Qle; assumption).
      assert (Hr : (0 <= inject_Z (Z.of_nat (S remaining)))%Q)
        by (change 0%Q with (inject_Z 0); rewrite <- Zle_Qle; lia).
      nra. }
    cbn [retryLoop]. destruct (fn i) as [value | error]; [cbn [snd slept]; exact Hpos |].
    destruct (retryable error); [| cbn [snd slept]; exact Hpos].
    specialize (IH (S i) (Some error)).
    destruct (retryLoop fn random remaining (S i) (Some error)) as [completion effects].
    cbn [snd slept] in *.
    pose proof (waitTime_bounds i (random i) (Hrand i)) as [_ Hw].
    rewrite Nat.add_succ_r. cbn [plus] in IH.
    pose proof (pow2_succ i) as P.
    assert (E : (inject_Z (Z.of_nat (S remaining)) == inject_Z (Z.of_nat remaining) + 1)%Q).
    { rewrite Nat2Z.inj_succ. unfold Z.succ. rewrite inject_Z_plus. reflexivity. }
    lra.
Qed.

(** X22. With jitter values from 0 to below 1 the helper sleeps, over
    a whole run, no longer than [2^n - 1 + n] seconds for a bound of [n]
    calls: ten seconds for the default bound of three, thirty-six for
    the bound of five of the voice-over calls. *)
Theorem withRetry_sleep_bound fn random (maxRetries : Z) :
  (forall j, (0 <= random j < 1)%Q) ->
  (slept (snd (withRetry fn random maxRetries))
   <= (inject_Z (2 ^ Z.of_nat (Z.to_nat maxRetries)) - 1
       + inject_Z (Z.of_nat (Z.to_nat maxRetries))) * 1000)%Q.
Proof.
  intros Hrand. unfold withRetry.
  pose proof (retryLoop_slept fn random (Z.to_nat maxRetries) 0 None Hrand) as H.
  cbn [plus] in H. change (inject_Z (2 ^ Z.of_nat 0)) with 1%Q in H. exact H.
Qed.

End GeminiServiceMore.

Section GeminiServiceMoreWitness.
Import GeminiService.

(** X22, at a concrete input: three server errors under the default
    bound. *)
Lemma withRetry_sleep_bound_witness :
  let busy := {| message := Some "overloaded"; err_status := Some 503 |} in
  let fn := fun _ : nat => @Rejected nat busy in
  let random := fun _ : nat => (1 # 2)%Q in
  (slept (snd (withRetry fn random 3)) <= 10000)%Q.
Proof.
  intros busy fn random.
  pose proof (withRetry_sleep_bound fn random 3) as H.
  assert (Hrand : forall j : nat, (0 <= random j < 1)%Q) by (intros j; unfold random; lra).
  specialize (H Hrand).
  change ((inject_Z (2 ^ Z.of_nat (Z.to_nat 3)) - 1 + inject_Z (Z.of_nat (Z.to_nat 3))) * 1000)%Q
    with ((8 - 1 + 3) * 1000)%Q in H.
  lra.
Defined.

End GeminiServiceMoreWitness.

(** ** Service responses *)

Section CleanJsonFacts.
Import Srt CleanJson.

Lemma minIndex_S (a b : option nat) :
  minIndex (option_map S a) (option_map S b) = option_map S (minIndex a b).
Proof. destruct a, b; reflexivity. Qed.

Lemma firstBracket_findIndex (s : list ascii) :
  minIndex (indexOf s "[") (indexOf s "{") = findIndex isOpening s.
Proof.
  induction s as [| a s IH]; [reflexivity |].
  cbn [indexOf findIndex]. unfold isOpening.
  destruct (ascii_eqb a "[") eqn:E1; destruct (ascii_eqb a "{") eqn:E2; cbn [orb].
  - apply Ascii.eqb_eq in E1, E2. congruence.
  - destruct (indexOf s "{"); reflexivity.
  - destruct (indexOf s "["); reflexivity.
  - rewrite minIndex_S, IH. reflexivity.
Qed.

Lemma maxIndex_map (f : nat -> nat) (a b : option nat) :
  (forall i j, f (Nat.min i j) = Nat.max (f i) (f j)) ->
  maxIndex (option_map f a) (option_map f b) = option_map f (minIndex a b).
Proof. intros Hf. destruct a, b; cbn; try reflexivity. rewrite Hf. reflexivity. Qed.

Lemma closing_findIndex (s : list ascii) :
  minIndex (indexOf s "]") (indexOf s "}") = findIndex isClosing s.
Proof.
  induction s as [| a s IH]; [reflexivity |].
  cbn [indexOf findIndex]. unfold isClosing.
  destruct (ascii_eqb a "]") eqn:E1; destruct (ascii_eqb a "}") eqn:E2; cbn [orb].
  - apply Ascii.eqb_eq in E1, E2. congruence.
  - destruct (indexOf s "}"); reflexivity.
  - destruct (indexOf s "]"); reflexivity.
  - rewrite minIndex_S, IH. reflexivity.
Qed.

Lemma lastBracket_findIndex (s : list ascii) :
  maxIndex (lastIndexOf s "]") (lastIndexOf s "}")
  = option_map (fun i => (length s - 1 - i)%nat) (findIndex isClosing (rev s)).
Proof.
  unfold lastIndexOf. rewrite maxIndex_map by (intros i j; lia).
  rewrite closing_findIndex. reflexivity.
Qed.

Lemma findIndex_none (p : ascii -> bool) (s : list ascii) :
  Forall (fun c => p c = false) s -> findIndex p s = None.
Proof.
  induction 1 as [| a s Ha _ IH]; [reflexivity |].
  cbn. rewrite Ha, IH. reflexivity.
Qed.

Lemma findIndex_first (p : ascii -> bool) (pre : list ascii) (c : ascii) (rest : list ascii) :
  Forall (fun c => p c = false) pre -> p c = true ->
  findIndex p (pre ++ c :: rest) = Some (length pre).
Proof.
  induction 1 as [| a pre Ha _ IH]; intros Hc; cbn.
  - rewrite Hc. reflexivity.
  - rewrite Ha, (IH Hc). reflexivity.
Qed.

Lemma bracketed_plain (cleaned : list ascii) :
  Forall (fun c => isOpening c = false) cleaned
  \/ Forall (fun c => isClosing c = false) cleaned ->
  bracketed cleaned = cleaned.
Proof.
  intros H. unfold bracketed. rewrite firstBracket_findIndex, lastBracket_findIndex.
  destruct H as [H | H].
  - rewrite (findIndex_none _ _ H). reflexivity.
  - assert (H' : Forall (fun c => isClosing c = false) (rev cleaned)).
    { apply List.Forall_forall. intros c Hc. apply List.in_rev in Hc.
      rewrite List.Forall_forall in H. apply H, Hc. }
    rewrite (findIndex_none _ _ H'). cbn. destruct (findIndex isOpening cleaned); reflexivity.
Qed.

Lemma Forall_rev_false (p : ascii -> bool) (s : list ascii) :
  Forall (fun c => p c = false) s -> Forall (fun c => p c = false) (rev s).
Proof.
  intros H. apply List.Forall_forall. intros c Hc. apply List.in_rev in Hc.
  rewrite List.Forall_forall in H. apply H, Hc.
Qed.

Lemma rev_middle {A} (front post : list A) (c : A) :
  rev (front ++ c :: post) = rev post ++ c :: rev front.
Proof. rewrite rev_app_distr. cbn [rev]. rewrite <- app_assoc. reflexivity. Qed.

Lemma bracketed_span (pre mid post : list ascii) (o c : ascii) :
  Forall (fun c => isOpening c = false) pre -> isOpening o = true ->
  isClosing c = true -> Forall (fun c => isClosing c = false) post ->
  bracketed (pre ++ o :: mid ++ c :: post) = o :: mid ++ [c].
Proof.
  intros Hpre Ho Hc Hpost. unfold bracketed.
  rewrite firstBracket_findIndex, lastBracket_findIndex.
  rewrite (findIndex_first _ pre o _ Hpre Ho).
  replace (rev (pre ++ o :: mid ++ c :: post))
    with (rev post ++ c :: rev (pre ++ o :: mid)).
  2:{ replace (pre ++ o :: mid ++ c :: post) with ((pre ++ o :: mid) ++ c :: post)
        by (rewrite <- app_assoc; reflexivity).
      symmetry. apply rev_middle. }
  rewrite (findIndex_first _ (rev post) c _ (Forall_rev_false _ _ Hpost) Hc).
  cbn [option_map]. unfold substring.
  rewrite length_rev. rewrite !length_app. cbn [length]. rewrite !length_app. cbn [length].
  set (n := length pre). set (k := length mid). set (r := length post).
  replace (Nat.min n (n + S (k + S r))) with n by lia.
  replace (Nat.min (n + S (k + S r) - 1 - r + 1) (n + S (k + S r)))
    with (n + S (S k))%nat by lia.
  replace (Nat.max n (n + S (S k)) - Nat.min n (n + S (S k)))%nat with (S (S k)) by lia.
  replace (Nat.min n (n + S (S k))) with n by lia.
  unfold n. rewrite skipn_app, skipn_all, Nat.sub_diag. cbn [app skipn firstn].
  f_equal. unfold k.
  replace (S (length mid)) with (length (mid ++ [c])) by (rewrite length_app; cbn; lia).
  replace (mid ++ c :: post) with ((mid ++ [c]) ++ post) by (rewrite <- app_assoc; reflexivity).
  rewrite firstn_app, firstn_all, Nat.sub_diag. cbn. apply app_nil_r.
Qed.

Lemma bracketed_swapped (pre mid post : list ascii) (o c : ascii) :
  Forall (fun c => isOpening c = false) (pre ++ c :: mid) -> isOpening o = true ->
  isClosing c = true -> Forall (fun c => isClosing c = false) (mid ++ o :: post) ->
  bracketed (pre ++ c :: mid ++ o :: post) = mid.
Proof.
  intros Hpre Ho Hc Hpost. unfold bracketed.
  rewrite firstBracket_findIndex, lastBracket_findIndex.
  replace (pre ++ c :: mid ++ o :: post) with ((pre ++ c :: mid) ++ o :: post) at 1
    by (rewrite <- app_assoc; reflexivity).
  rewrite (findIndex_first _ (pre ++ c :: mid) o _ Hpre Ho).
  replace (rev (pre ++ c :: mid ++ o :: post))
    with (rev (mid ++ o :: post) ++ c :: rev pre).
  2:{ symmetry. apply rev_middle. }
  rewrite (findIndex_first _ (rev (mid ++ o :: post)) c _ (Forall_rev_false _ _ Hpost) Hc).
  cbn [option_map]. unfold substring.
  rewrite length_rev. rewrite !length_app. cbn [length]. rewrite !length_app. cbn [length].
  set (n := length pre). set (k := length mid). set (r := length post).
  replace (Nat.min (n + S k) (n + S (k + S r))) with (n + S k)%nat by lia.
  replace (Nat.min (n + S (k + S r) - 1 - (k + S r) + 1) (n + S (k + S r)))
    with (S n) by lia.
  replace (Nat.max (n + S k) (S n) - Nat.min (n + S k) (S n))%nat with k by lia.
  replace (Nat.min (n + S k) (S n)) with (S n) by lia.
  replace (pre ++ c :: mid ++ o :: post) with ((pre ++ [c]) ++ mid ++ o :: post)
    by (rewrite <- app_assoc; reflexivity).
  replace (S n) with (length (pre ++ [c])) by (rewrite length_app; cbn; unfold n; lia).
  rewrite skipn_app, skipn_all, Nat.sub_diag. cbn [app skipn].
  unfold k. change (skipn 0 (mid ++ o :: post)) with (mid ++ o :: post).
  rewrite firstn_app, firstn_all, Nat.sub_diag. cbn. apply app_nil_r.
Qed.

(** X23. What [cleanJson] cuts out of the text left after trimming and
    removing the code fences: from the first opening bracket to the last
    closing bracket, both included, when the one comes before the other;
    the text strictly between them when the last closing bracket comes
    before the first opening one; and the whole text when it has no
    opening or no closing bracket. *)
Theorem cleanJson_brackets (text : string) :
  let cleaned := unfenced (list_ascii_of_string text) in
  (forall pre mid post o c,
     cleaned = pre ++ o :: mid ++ c :: post ->
     Forall (fun c => isOpening c = false) pre -> isOpening o = true ->
     isClosing c = true -> Forall (fun c => isClosing c = false) post ->
     cleanJson text = string_of_list_ascii (o :: mid ++ [c]))
  /\ (forall pre mid post o c,
        cleaned = pre ++ c :: mid ++ o :: post ->
        Forall (fun c => isOpening c = false) (pre ++ c :: mid) -> isOpening o = true ->
        isClosing c = true -> Forall (fun c => isClosing c = false) (mid ++ o :: post) ->
        cleanJson text = string_of_list_ascii mid)
  /\ (Forall (fun c => isOpening c = false) cleaned
      \/ Forall (fun c => isClosing c = false) cleaned ->
      cleanJson text = string_of_list_ascii cleaned).
Proof.
  intros cleaned. unfold cleanJson. fold cleaned. split; [| split].
  - intros pre mid post o c -> Hpre Ho Hc Hpost. f_equal. apply bracketed_span; assumption.
  - intros pre mid post o c -> Hpre Ho Hc Hpost. f_equal. apply bracketed_swapped; assumption.
  - intros H. f_equal. apply bracketed_plain, H.
Qed.

(** X23, at concrete inputs: an answer inside a sentence, and a text
    whose only closing bracket comes before its only opening one. *)
Lemma cleanJson_brackets_witness :
  cleanJson "Here: [1, 2] done" = "[1, 2]"%string
  /\ cleanJson "a} b {c" = " b "%string.
Proof.
  split.
  - destruct (cleanJson_brackets "Here: [1, 2] done") as (H & _ & _).
    apply (H (list_ascii_of_string "Here: ") (list_ascii_of_string "1, 2")
             (list_ascii_of_string " done") "["%char "]"%char); try reflexivity.
    + repeat constructor.
    + repeat constructor.
  - destruct (cleanJson_brackets "a} b {c") as (_ & H & _).
    apply (H (list_ascii_of_string "a") (list_ascii_of_string " b ")
             (list_ascii_of_string "c") "{"%char "}"%char); try reflexivity.
    + repeat constructor.
    + repeat constructor.
Defined.

Lemma trimStart_blank_app (ws s : list ascii) :
  forallb is_space ws = true -> trimStart (ws ++ s) = trimStart s.
Proof.
  induction ws as [| c ws IH]; cbn; [reflexivity |].
  intros H. apply andb_true_iff in H as [-> H]. apply IH, H.
Qed.

Lemma forallb_rev_true {A} (p : A -> bool) (l : list A) :
  forallb p l = true -> forallb p (rev l) = true.
Proof.
  rewrite !forallb_forall. intros H a Ha. apply H, List.in_rev, Ha.
Qed.

Lemma trim_padded (ws1 ws2 core : list ascii) (a b : ascii) :
  forallb is_space ws1 = true -> forallb is_space ws2 = true ->
  is_space a = false -> is_space b = false ->
  trim (ws1 ++ (a :: core ++ [b]) ++ ws2) = a :: core ++ [b].
Proof.
  intros H1 H2 Ha Hb. unfold trim. rewrite trimStart_blank_app by exact H1.
  assert (E : trimStart ((a :: core ++ [b]) ++ ws2) = (a :: core ++ [b]) ++ ws2)
    by (cbn [app]; apply trimStart_head, Ha).
  rewrite E. unfold trimEnd.
  rewrite rev_app_distr, trimStart_blank_app by (apply forallb_rev_true, H2).
  fold (trimEnd (a :: core ++ [b])).
  change (a :: core ++ [b]) with ((a :: core) ++ [b]). apply trimEnd_snoc, Hb.
Qed.

Lemma isOpening_cases (o : ascii) :
  isOpening o = true -> (o = "["%char \/ o = "{"%char).
Proof.
  unfold isOpening. intros H. apply orb_true_iff in H as [H | H];
    apply Ascii.eqb_eq in H; auto.
Qed.

Lemma isClosing_cases (c : ascii) :
  isClosing c = true -> (c = "]"%char \/ c = "}"%char).
Proof.
  unfold isClosing. intros H. apply orb_true_iff in H as [H | H];
    apply Ascii.eqb_eq in H; auto.
Qed.

Lemma replaceTail_fence (front : list ascii) :
  replaceTail (front ++ LF :: backticks) = front.
Proof.
  unfold replaceTail. rewrite rev_app_distr. cbn. apply rev_involutive.
Qed.

Lemma replaceTail_other (front : list ascii) (b : ascii) :
  ascii_eqb "`" b = false -> replaceTail (front ++ [b]) = front ++ [b].
Proof.
  intros Hb. unfold replaceTail. rewrite rev_app_distr. cbn [rev app].
  unfold replaceHead, backticks. cbn [list_ascii_of_string stripPrefix]. rewrite Hb.
  change (b :: rev front) with (rev [b] ++ rev front). rewrite <- rev_app_distr.
  apply rev_involutive.
Qed.

Lemma replaceHead_other (fence rest : list ascii) (f a : ascii) :
  ascii_eqb f a = false -> replaceHead (f :: fence) (a :: rest) = a :: rest.
Proof. intros H. unfold replaceHead. cbn [stripPrefix]. rewrite H. reflexivity. Qed.

Lemma unfenced_bare (ws1 ws2 mid : list ascii) (o c : ascii) :
  forallb is_space ws1 = true -> forallb is_space ws2 = true ->
  isOpening o = true -> isClosing c = true ->
  unfenced (ws1 ++ (o :: mid ++ [c]) ++ ws2) = o :: mid ++ [c].
Proof.
  intros H1 H2 Ho Hc. unfold unfenced.
  assert (So : is_space o = false /\ ascii_eqb "`" o = false)
    by (destruct (isOpening_cases o Ho) as [-> | ->]; split; reflexivity).
  assert (Sc : is_space c = false /\ ascii_eqb "`" c = false)
    by (destruct (isClosing_cases c Hc) as [-> | ->]; split; reflexivity).
  rewrite trim_padded by tauto.
  set (json := o :: mid ++ [c]).
  assert (Ht : replaceTail json = json).
  { unfold json. change (o :: mid ++ [c]) with ((o :: mid) ++ [c]).
    apply replaceTail_other. tauto. }
  assert (Hh : forall fence, replaceHead ("`"%char :: fence) json = json).
  { intros fence. unfold json. apply replaceHead_other. tauto. }
  unfold backticks. cbn [list_ascii_of_string].
  rewrite Hh, Ht, Hh, Ht. reflexivity.
Qed.

Lemma unfenced_fenced (tag ws1 ws2 mid : list ascii) (o c : ascii) :
  tag = list_ascii_of_string "json" \/ tag = [] ->
  forallb is_space ws1 = true -> forallb is_space ws2 = true ->
  isOpening o = true -> isClosing c = true ->
  unfenced (ws1 ++ (backticks ++ tag ++ LF :: (o :: mid ++ [c]) ++ LF :: backticks) ++ ws2)
  = o :: mid ++ [c].
Proof.
  intros Htag H1 H2 Ho Hc. unfold unfenced.
  assert (So : ascii_eqb "`" o = false)
    by (destruct (isOpening_cases o Ho) as [-> | ->]; reflexivity).
  assert (Sc : ascii_eqb "`" c = false)
    by (destruct (isClosing_cases c Hc) as [-> | ->]; reflexivity).
  set (json := o :: mid ++ [c]).
  assert (Etrim : trim (ws1 ++ (backticks ++ tag ++ LF :: json ++ LF :: backticks) ++ ws2)
                  = backticks ++ tag ++ LF :: json ++ LF :: backticks).
  { replace (backticks ++ tag ++ LF :: json ++ LF :: backticks)
      with ("`"%char :: (list_ascii_of_string "``" ++ tag ++ LF :: json
                         ++ LF :: list_ascii_of_string "``") ++ ["`"%char]).
    - apply trim_padded; auto.
    - unfold backticks. cbn [list_ascii_of_string app].
      rewrite <- ?app_assoc. cbn [app]. rewrite <- ?app_assoc. reflexivity. }
  rewrite Etrim.
  assert (Etail : forall front, replaceTail (front ++ json) = front ++ json).
  { intros front. unfold json. change (o :: mid ++ [c]) with ((o :: mid) ++ [c]).
    rewrite app_assoc. apply replaceTail_other, Sc. }
  destruct Htag as [-> | ->].
  - assert (E1 : replaceHead (list_ascii_of_string "```json")
                   (backticks ++ list_ascii_of_string "json" ++ LF :: json ++ LF :: backticks)
                 = json ++ LF :: backticks) by reflexivity.
    rewrite E1, replaceTail_fence.
    assert (Hh : replaceHead backticks json = json)
      by (unfold json, backticks; cbn [list_ascii_of_string];
          apply replaceHead_other, So).
    rewrite Hh. apply (Etail []).
  - cbn [app].
    assert (E1 : replaceHead (list_ascii_of_string "```json")
                   (backticks ++ LF :: json ++ LF :: backticks)
                 = backticks ++ LF :: json ++ LF :: backticks) by reflexivity.
    rewrite E1.
    replace (backticks ++ LF :: json ++ LF :: backticks)
      with ((backticks ++ LF :: json) ++ LF :: backticks)
      by (rewrite <- app_assoc; reflexivity).
    rewrite replaceTail_fence.
    assert (E2 : replaceHead backticks (backticks ++ LF :: json) = json) by reflexivity.
    rewrite E2. apply (Etail []).
Qed.

(** X24. A JSON array or object, from its opening bracket to its
    closing bracket, comes out of [cleanJson] as it is: bare, between
    white space, or inside a code fence with or without the [json] tag;
    the answer is a fixed point of [cleanJson]. *)
Theorem cleanJson_fenced (ws1 ws2 mid : list ascii) (o c : ascii) :
  forallb is_space ws1 = true -> forallb is_space ws2 = true ->
  isOpening o = true -> isClosing c = true ->
  let json := o :: mid ++ [c] in
  let fenced tag := backticks ++ tag ++ LF :: json ++ LF :: backticks in
  cleanJson (string_of_list_ascii (ws1 ++ json ++ ws2)) = string_of_list_ascii json
  /\ cleanJson (string_of_list_ascii (ws1 ++ fenced (list_ascii_of_string "json") ++ ws2))
     = string_of_list_ascii json
  /\ cleanJson (string_of_list_ascii (ws1 ++ fenced [] ++ ws2)) = string_of_list_ascii json
  /\ cleanJson (string_of_list_ascii json) = string_of_list_ascii json.
Proof.
  intros H1 H2 Ho Hc json fenced.
  assert (Hb : bracketed json = json).
  { apply (bracketed_span [] mid [] o c); auto. }
  unfold cleanJson. rewrite !list_ascii_of_string_of_list_ascii.
  split; [| split; [| split]]; f_equal.
  - unfold json. rewrite unfenced_bare by assumption. exact Hb.
  - unfold fenced, json. rewrite (unfenced_fenced (list_ascii_of_string "json")) by auto.
    exact Hb.
  - unfold fenced, json. rewrite (unfenced_fenced []) by auto. exact Hb.
  - pose proof (unfenced_bare [] [] mid o c eq_refl eq_refl Ho Hc) as E.
    cbn [app] in E. rewrite app_nil_r in E. unfold json. rewrite E. exact Hb.
Qed.

(** X24, at a concrete input: an answer in a tagged fence. *)
Lemma cleanJson_fenced_witness :
  cleanJson (String.append "```json" (String LF (String.append "[{}]" (String LF "```"))))
  = "[{}]"%string.
Proof.
  destruct (cleanJson_fenced [] [] (list_ascii_of_string "{}") "[" "]"
              eq_refl eq_refl eq_refl eq_refl) as (_ & H & _).
  exact H.
Defined.

End CleanJsonFacts.

(** ** Voice-over container *)

Section WavFacts.
Import Wav.

Lemma wavHeader_fields (len sampleRate : Z) :
  wavHeader len sampleRate
  = List.map charCodeAt (list_ascii_of_string "RIFF") ++ le32 (36 + len)
    ++ List.map charCodeAt (list_ascii_of_string "WAVEfmt ") ++ le32 16 ++ le16 1 ++ le16 1
    ++ le32 sampleRate ++ le32 (sampleRate * 1 * 16 / 8) ++ le16 2 ++ le16 16
    ++ List.map charCodeAt (list_ascii_of_string "data") ++ le32 len.
Proof. reflexivity. Qed.

Lemma byteAt_range (value : Z) (k : nat) : 0 <= byteAt value k < 256.
Proof. unfold byteAt. apply Z.mod_pos_bound. lia. Qed.

Lemma charCodeAt_fromCharCode (b : Z) : 0 <= b < 256 -> charCodeAt (fromCharCode b) = b.
Proof.
  intros Hb. unfold charCodeAt, fromCharCode.
  rewrite nat_ascii_embedding by lia. lia.
Qed.

Lemma fromCharCode_charCodeAt (c : ascii) : fromCharCode (charCodeAt c) = c.
Proof.
  unfold charCodeAt, fromCharCode. rewrite Nat2Z.id. apply ascii_nat_embedding.
Qed.

Lemma littleEndian_le32 (value : Z) :
  littleEndian (List.map fromCharCode (le32 value)) = value mod 2 ^ 32.
Proof.
  unfold le32. cbn [List.map littleEndian].
  rewrite !charCodeAt_fromCharCode by apply byteAt_range.
  pose proof (Z.mod_pos_bound value (2 ^ 32) ltac:(lia)) as Hv.
  set (v := value mod 2 ^ 32) in *. unfold byteAt.
  change (256 ^ Z.of_nat 0) with 1. change (256 ^ Z.of_nat 1) with 256.
  change (256 ^ Z.of_nat 2) with 65536. change (256 ^ Z.of_nat 3) with 16777216.
  change (2 ^ 32) with 4294967296 in Hv.
  rewrite Z.div_1_r. Z.div_mod_to_equations. lia.
Qed.

Lemma littleEndian_le16 (value : Z) :
  littleEndian (List.map fromCharCode (le16 value)) = value mod 2 ^ 16.
Proof.
  unfold le16. cbn [List.map littleEndian].
  rewrite !charCodeAt_fromCharCode by apply byteAt_range.
  pose proof (Z.mod_pos_bound value (2 ^ 16) ltac:(lia)) as Hv.
  set (v := value mod 2 ^ 16) in *. unfold byteAt.
  change (256 ^ Z.of_nat 0) with 1. change (256 ^ Z.of_nat 1) with 256.
  change (2 ^ 16) with 65536 in Hv.
  rewrite Z.div_1_r. Z.div_mod_to_equations. lia.
Qed.

Lemma pcmToWav_parts (binaryString : list ascii) (sampleRate : Z) :
  pcmToWav binaryString sampleRate
  = List.map fromCharCode (wavHeader (Z.of_nat (length binaryString)) sampleRate)
    ++ binaryString.
Proof.
  unfold pcmToWav, combined. rewrite List.map_app, List.map_map. f_equal.
  rewrite <- (List.map_id binaryString) at 2. apply List.map_ext.
  intros c. apply fromCharCode_charCodeAt.
Qed.

Lemma length_wavHeader (len sampleRate : Z) : length (wavHeader len sampleRate) = 44%nat.
Proof. reflexivity. Qed.

(** X25. The file [pcmToWav] builds is a 44-byte header followed by
    the samples, unchanged.  Read back, the header holds the tags RIFF,
    WAVE, fmt and data at offsets 0, 8, 12 and 36 and, as little-endian
    numbers, a format chunk of 16 bytes, PCM format 1, one channel, the
    sample rate, a byte rate of twice the sample rate, a block of 2 bytes
    and 16 bits per sample; the RIFF size is the length of the file less
    8 and the data size is the number of sample bytes, both modulo
    [2^32]. *)
Theorem pcmToWav_layout (binaryString : list ascii) (sampleRate : Z) :
  let wav := pcmToWav binaryString sampleRate in
  let len := Z.of_nat (length binaryString) in
  length wav = (44 + length binaryString)%nat
  /\ skipn 44 wav = binaryString
  /\ tagAt wav 0 = "RIFF"%string
  /\ tagAt wav 8 = "WAVE"%string
  /\ tagAt wav 12 = "fmt "%string
  /\ tagAt wav 36 = "data"%string
  /\ uint32At wav 4 = (Z.of_nat (length wav) - 8) mod 2 ^ 32
  /\ uint32At wav 16 = 16
  /\ uint16At wav 20 = 1
  /\ uint16At wav 22 = 1
  /\ uint32At wav 24 = sampleRate mod 2 ^ 32
  /\ uint32At wav 28 = (2 * sampleRate) mod 2 ^ 32
  /\ uint16At wav 32 = 2
  /\ uint16At wav 34 = 16
  /\ uint32At wav 40 = len mod 2 ^ 32.
Proof.
  intros wav len.
  assert (E : wav = List.map fromCharCode (wavHeader len sampleRate) ++ binaryString)
    by apply pcmToWav_parts.
  assert (Hlen : length wav = (44 + length binaryString)%nat).
  { rewrite E, length_app, List.length_map, length_wavHeader. reflexivity. }
  split; [exact Hlen |].
  split.
  { rewrite E. rewrite skipn_app, skipn_all2 by (rewrite List.length_map, length_wavHeader; lia).
    rewrite List.length_map, length_wavHeader. reflexivity. }
  assert (Hsz : Z.of_nat (length wav) - 8 = 36 + len) by (rewrite Hlen; unfold len; lia).
  rewrite Hsz. clear Hsz Hlen.
  rewrite E, wavHeader_fields. unfold tagAt, uint32At, uint16At, le32, le16.
  cbn [list_ascii_of_string List.map app skipn firstn].
  split; [reflexivity |]. split; [reflexivity |]. split; [reflexivity |].
  split; [reflexivity |].
  split; [exact (littleEndian_le32 (36 + len)) |].
  split; [reflexivity |]. split; [reflexivity |]. split; [reflexivity |].
  split; [exact (littleEndian_le32 sampleRate) |].
  split.
  { replace (2 * sampleRate) with (sampleRate * 1 * 16 / 8).
    - exact (littleEndian_le32 (sampleRate * 1 * 16 / 8)).
    - rewrite Z.mul_1_r. replace (sampleRate * 16) with (2 * sampleRate * 8) by lia.
      apply Z.div_mul. lia. }
  split; [reflexivity |]. split; [reflexivity |].
  exact (littleEndian_le32 len).
Qed.

End WavFacts.

(** ** Translation in chunks *)

Section TranslateFacts.
Import GeminiService Translate.
Implicit Types (respond : nat -> Settled (list Translation)).

Lemma requestChunks_spec respond (subtitles : list SubtitleEntry)
    (fuel i k : nat) (results : list Translation) :
  (length subtitles <= i + fuel)%nat -> (i <= length subtitles)%nat ->
  let '(outcome, requested) := requestChunks respond subtitles fuel i k results in
  Forall (fun chunk => (1 <= length chunk <= chunkSize)%nat) requested
  /\ (exists rest, skipn i subtitles = concat requested ++ rest
        /\ match outcome with
           | Resolved all =>
               rest = []
               /\ all = results ++ answers respond k (length requested)
               /\ (forall j, (j < length requested)%nat ->
                     exists r, respond (k + j)%nat = Resolved r)
               /\ length requested
                  = ((length subtitles - i + (chunkSize - 1)) / chunkSize)%nat
           | Rejected error =>
               requested <> []
               /\ respond (k + (length requested - 1))%nat = Rejected error
               /\ (forall j, (j < length requested - 1)%nat ->
                     exists r, respond (k + j)%nat = Resolved r)
           end).
Proof.
  revert i k results. induction fuel as [| fuel IH]; intros i k results Hfuel Hi.
  - cbn. split; [constructor |]. exists []. rewrite skipn_all2 by lia.
    split; [reflexivity |]. split; [reflexivity |]. split; [symmetry; apply app_nil_r |].
    split; [intros j Hj; cbn in Hj; lia |].
    replace (length subtitles - i)%nat with 0%nat by lia. reflexivity.
  - cbn [requestChunks]. destruct (Nat.ltb_spec i (length subtitles)) as [Hlt | Hge].
    + set (chunk := slice subtitles i (i + chunkSize)).
      assert (Hchunk : (1 <= length chunk <= chunkSize)%nat).
      { unfold chunk, slice. rewrite length_firstn, length_skipn. unfold chunkSize. lia. }
      assert (Hskip : skipn i subtitles = chunk ++ skipn (i + chunkSize) subtitles).
      { unfold chunk, slice. replace (i + chunkSize - i)%nat with chunkSize by lia.
        rewrite Nat.add_comm, <- skipn_skipn. symmetry. apply firstn_skipn. }
      destruct (respond k) as [chunkResults | error] eqn:Hk.
      * destruct (Nat.le_gt_cases (i + chunkSize) (length subtitles)) as [Hin | Hout].
        { specialize (IH (i + chunkSize)%nat (S k) (results ++ chunkResults)
                        ltac:(unfold chunkSize in *; lia) Hin).
          destruct (requestChunks respond subtitles fuel (i + chunkSize) (S k)
                      (results ++ chunkResults)) as [outcome requested].
          destruct IH as (Hall & rest & Hrest & Hout).
          split; [constructor; assumption |].
          exists rest. split; [rewrite Hskip, Hrest; cbn; rewrite app_assoc; reflexivity |].
          destruct outcome as [all | error].
          - destruct Hout as (-> & -> & Hresp & Hnum).
            split; [reflexivity |]. split.
            { cbn [length answers]. rewrite Hk, app_assoc. reflexivity. }
            split.
            { intros [| j] Hj; [rewrite Nat.add_0_r; eauto |].
              rewrite Nat.add_succ_r. apply (Hresp j). cbn in Hj. lia. }
            cbn [length]. rewrite Hnum. unfold chunkSize in *.
            replace (length subtitles - i + (15 - 1))%nat
              with (length subtitles - (i + 15) + (15 - 1) + 1 * 15)%nat by lia.
            rewrite Nat.div_add by lia. lia.
          - destruct Hout as (Hne & Hlast & Hresp).
            split; [discriminate |].
            assert (Hlen : (1 <= length requested)%nat)
              by (destruct requested; [congruence | cbn; lia]).
            split.
            { cbn [length]. replace (k + (S (length requested) - 1))%nat
                with (S k + (length requested - 1))%nat by lia. exact Hlast. }
            intros [| j] Hj; [rewrite Nat.add_0_r; eauto |].
            rewrite Nat.add_succ_r. apply (Hresp j). cbn in Hj. lia. }
        { assert (Hend : requestChunks respond subtitles fuel (i + chunkSize) (S k)
                           (results ++ chunkResults)
                         = (Resolved (results ++ chunkResults), [])).
          { destruct fuel as [| fuel']; [reflexivity |]. cbn [requestChunks].
            destruct (i + chunkSize <? length subtitles)%nat eqn:E; [| reflexivity].
            apply Nat.ltb_lt in E. lia. }
          rewrite Hend. split; [constructor; [assumption | constructor] |].
          exists []. split.
          { rewrite Hskip. cbn. rewrite skipn_all2 by lia. rewrite !app_nil_r. reflexivity. }
          split; [reflexivity |]. split.
          { cbn [length answers]. rewrite Hk, app_nil_r. reflexivity. }
          split.
          { intros [| j] Hj; [rewrite Nat.add_0_r; eauto | cbn in Hj; lia]. }
          cbn [length]. unfold chunkSize in *.
          apply Nat.div_unique with (length subtitles - i + (15 - 1) - 15)%nat; lia. }
      * split; [constructor; [assumption | constructor] |].
        exists (skipn (i + chunkSize) subtitles).
        split; [rewrite Hskip; cbn; rewrite app_nil_r; reflexivity |].
        split; [discriminate |]. cbn [length]. split.
        { replace (k + (1 - 1))%nat with k by lia. exact Hk. }
        intros j Hj. lia.
    + split; [constructor |]. exists []. rewrite skipn_all2 by lia.
      split; [reflexivity |]. split; [reflexivity |].
      split; [symmetry; apply app_nil_r |].
      split; [intros j Hj; cbn in Hj; lia |].
      replace (length subtitles - i)%nat with 0%nat by lia. reflexivity.
Qed.

(** X26. [translateSubtitles] asks for the subtitles in consecutive
    chunks of 15, the last one possibly shorter and none empty.  When
    every request succeeds there are [ceil(n / 15)] of them, they cover
    the whole list, and the result is the list merged with the answers
    of all the requests taken together, in request order.  When a
    request fails its error is the outcome, the requests before it had
    succeeded and no request follows it. *)
Theorem translateSubtitles_chunks respond (subtitles : list SubtitleEntry) :
  let '(outcome, requested) := translateSubtitles respond subtitles in
  Forall (fun chunk => (1 <= length chunk <= 15)%nat) requested
  /\ exists rest,
       subtitles = concat requested ++ rest
       /\ match outcome with
          | Resolved out =>
              rest = []
              /\ length requested = ((length subtitles + 14) / 15)%nat
              /\ (forall j, (j < length requested)%nat -> exists r, respond j = Resolved r)
              /\ out = List.map (merged (answers respond 0 (length requested))) subtitles
          | Rejected error =>
              requested <> []
              /\ respond (length requested - 1)%nat = Rejected error
              /\ (forall j, (j < length requested - 1)%nat ->
                    exists r, respond j = Resolved r)
          end.
Proof.
  unfold translateSubtitles.
  pose proof (requestChunks_spec respond subtitles (length subtitles) 0 0 []
                ltac:(lia) ltac:(lia)) as H.
  destruct (requestChunks respond subtitles (length subtitles) 0 0 [])
    as [[all | error] requested]; destruct H as (Hall & rest & Hrest & Hout);
    (split; [exact Hall |]); exists rest; (split; [exact Hrest |]).
  - destruct Hout as (-> & -> & Hresp & Hnum).
    split; [reflexivity |]. split.
    { rewrite Hnum. unfold chunkSize. rewrite Nat.sub_0_r. reflexivity. }
    split; [exact Hresp | reflexivity].
  - exact Hout.
Qed.

Lemma find_first_id (results before rest : list Translation) (t : Translation) (id : string) :
  results = before ++ t :: rest ->
  Forall (fun x => t_id x <> id) before -> t_id t = id ->
  Resolver.find (fun x => String.eqb (t_id x) id) results = Some t.
Proof.
  intros -> Hb Ht. induction Hb as [| x before Hx _ IH]; cbn.
  - rewrite Ht, String.eqb_refl. reflexivity.
  - apply String.eqb_neq in Hx. rewrite Hx. exact IH.
Qed.

Lemma find_no_id (results : list Translation) (id : string) :
  Forall (fun x => t_id x <> id) results ->
  Resolver.find (fun x => String.eqb (t_id x) id) results = None.
Proof.
  induction 1 as [| x results Hx _ IH]; cbn; [reflexivity |].
  apply String.eqb_neq in Hx. rewrite Hx. exact IH.
Qed.

(** X27. Merging the answers into a subtitle changes its translated
    text only.  The text is that of the first answer carrying the id of
    the subtitle, wherever in the answers it stands; a subtitle no answer
    names gets its previous translation, or its original text when that
    is empty, so the text shown and exported for it stays the same. *)
Theorem merged_keeps_entry (results : list Translation) (sub : SubtitleEntry) :
  let out := merged results sub in
  sub_id out = sub_id sub
  /\ startTime out = startTime sub
  /\ endTime out = endTime sub
  /\ originalText out = originalText sub
  /\ audioUrl out = audioUrl sub
  /\ (forall before t rest,
        results = before ++ t :: rest ->
        Forall (fun x => t_id x <> sub_id sub) before -> t_id t = sub_id sub ->
        translatedText out = t_translatedText t)
  /\ (Forall (fun x => t_id x <> sub_id sub) results ->
        translatedText out = fallback sub /\ Srt.emitted out = Srt.emitted sub).
Proof.
  intros out. repeat (split; [reflexivity |]). split.
  - intros before t rest E Hb Ht. unfold out, merged. cbn [translatedText].
    rewrite (find_first_id results before rest t _ E Hb Ht). reflexivity.
  - intros Hno. unfold out, merged. rewrite (find_no_id _ _ Hno).
    split; [reflexivity |]. unfold Srt.emitted, fallback. cbn [translatedText originalText].
    destruct (String.eqb (translatedText sub) "") eqn:E; [| rewrite E; reflexivity].
    destruct (String.eqb (originalText sub) ""); reflexivity.
Qed.

End TranslateFacts.

(** ** Processing pipeline *)

Section PipelineFacts.
Import GeminiService History Pipeline.

Lemma voiceCalls_app (a b : list Await) : voiceCalls (a ++ b) = voiceCalls a ++ voiceCalls b.
Proof. unfold voiceCalls. apply flat_map_app. Qed.

Lemma voiceCalls_pause (i : nat) (rest : list Await) :
  voiceCalls ((if (0 <? i)%nat then [Pause] else []) ++ rest) = voiceCalls rest.
Proof. destruct (0 <? i)%nat; reflexivity. Qed.

Lemma voiceLoop_spec (voice : nat -> string -> Settled string)
    (translated : list SubtitleEntry) (i : nat) (acc : list SubtitleEntry) :
  let '(outcome, steps) := voiceLoop voice translated i acc in
  ~ In ReadFile steps /\ ~ In Extract steps
  /\ match outcome with
     | Resolved finalizedSubs =>
         exists audios,
           length audios = length translated
           /\ finalizedSubs = acc ++ List.map (fun p => withAudio (fst p) (snd p))
                                   (combine translated audios)
           /\ (forall j sub audio,
                 translated !! j = Some sub -> audios !! j = Some audio ->
                 voice (i + j)%nat (translatedText sub) = Resolved audio)
           /\ voiceCalls steps
              = List.map (fun p => (fst p, translatedText (snd p)))
                  (combine (seq i (length translated)) translated)
     | Rejected error =>
         exists j sub,
           translated !! j = Some sub
           /\ voice (i + j)%nat (translatedText sub) = Rejected error
           /\ voiceCalls steps
              = List.map (fun p => (fst p, translatedText (snd p)))
                  (combine (seq i (S j)) translated)
     end.
Proof.
  revert i acc. induction translated as [| sub translated IH]; intros i acc.
  - cbn. split; [tauto |]. split; [tauto |]. exists []. cbn. rewrite app_nil_r.
    repeat split. intros j s a H. discriminate.
  - cbn [voiceLoop]. destruct (voice i (translatedText sub)) as [audio | error] eqn:Hv.
    + specialize (IH (S i) (acc ++ [withAudio sub audio])).
      destruct (voiceLoop voice translated (S i) (acc ++ [withAudio sub audio]))
        as [outcome steps].
      destruct IH as (Hr & He & Hout).
      split.
      { intros Hin. apply in_app_or in Hin as [Hin | [Hin | Hin]];
          [destruct (0 <? i)%nat; cbn in Hin; intuition discriminate | discriminate | tauto]. }
      split.
      { intros Hin. apply in_app_or in Hin as [Hin | [Hin | Hin]];
          [destruct (0 <? i)%nat; cbn in Hin; intuition discriminate | discriminate | tauto]. }
      destruct outcome as [finalizedSubs | error].
      * destruct Hout as (audios & Hlen & -> & Hvoice & Hcalls).
        exists (audio :: audios). split; [cbn; lia |]. split.
        { cbn. rewrite <- app_assoc. reflexivity. }
        split.
        { intros [| j] s a Hs Ha; cbn in Hs, Ha.
          - injection Hs as <-. injection Ha as <-. rewrite Nat.add_0_r. exact Hv.
          - rewrite Nat.add_succ_r. apply (Hvoice j s a Hs Ha). }
        rewrite voiceCalls_pause. cbn. f_equal. exact Hcalls.
      * destruct Hout as (j & s & Hs & Hrej & Hcalls).
        exists (S j), s. split; [exact Hs |]. split.
        { rewrite Nat.add_succ_r. exact Hrej. }
        rewrite voiceCalls_pause. cbn. f_equal. exact Hcalls.
    + split.
      { intros Hin. apply in_app_or in Hin as [Hin | [Hin | Hin]];
          [destruct (0 <? i)%nat; cbn in Hin; intuition discriminate | discriminate | tauto]. }
      split.
      { intros Hin. apply in_app_or in Hin as [Hin | [Hin | Hin]];
          [destruct (0 <? i)%nat; cbn in Hin; intuition discriminate | discriminate | tauto]. }
      exists 0%nat, sub. split; [reflexivity |]. split.
      { rewrite Nat.add_0_r. exact Hv. }
      rewrite voiceCalls_pause. reflexivity.
Qed.

Lemma failed_facts (item : VideoQueueItem) (err : JsError) (steps : list Await) :
  let out := failed item err steps in
  history (out_item out) = history item
  /\ historyIndex (out_item out) = historyIndex item
  /\ blurRegions (out_item out) = blurRegions item
  /\ status (out_item out) = ERROR
  /\ drawingRequested out = false
  /\ awaited out = steps
  /\ exists m, errorMsg out = Some m /\ m <> NoRegionsMsg.
Proof.
  cbn. repeat (split; [reflexivity |]).
  destruct (message err) as [m |]; [destruct (includes m "429") |];
    eexists; split; try reflexivity; discriminate.
Qed.

(** The branch of a proof where the [catch] block ran: what is left is
    that no extraction was awaited if the item had subtitles. *)
Ltac failed_branch itemK err steps Hregions :=
  let Fh := fresh "Fh" in let Fi := fresh "Fi" in let Fb := fresh "Fb" in
  let Fs := fresh "Fs" in let Fd := fresh "Fd" in let Fa := fresh "Fa" in
  let Fm := fresh "Fm" in
  destruct (failed_facts itemK err steps) as (Fh & Fi & Fb & Fs & Fd & Fa & Fm);
  rewrite Fh, Fi, Fb, Fs, Fd, Fa;
  split; [reflexivity |]; split; [reflexivity |]; split; [exact Hregions |];
  split; [intros; discriminate |]; intros _;
  split; [reflexivity |]; split; [| right; split; [reflexivity | exact Fm]].

(** X28. [processVideo] never adds to the history, moves its cursor
    or changes the regions.  On an item without regions it awaits nothing
    and leaves the item as it was, reports the missing regions and asks
    for drawing mode.  Otherwise it ends in COMPLETED with no message or
    in ERROR with one; it does not ask for an extraction when the item
    has subtitles already; and when it completes, the subtitles are the
    translated ones, in order, each with the voice-over that was
    generated for its translated text, one call for each of them. *)
Theorem processVideo_pipeline (item : VideoQueueItem) (sv : Services) :
  let out := processVideo item sv in
  let final := out_item out in
  history final = history item
  /\ historyIndex final = historyIndex item
  /\ blurRegions final = blurRegions item
  /\ (blurRegions item = [] ->
        final = item /\ awaited out = [] /\ errorMsg out = Some NoRegionsMsg
        /\ drawingRequested out = true)
  /\ (blurRegions item <> [] ->
        drawingRequested out = false
        /\ (subtitles item <> [] -> ~ In Extract (awaited out))
        /\ ((status final = COMPLETED /\ errorMsg out = None
             /\ exists subs translated audios,
                  (subs = subtitles item
                   \/ (subtitles item = []
                       /\ extractSubtitlesFromVideo sv = Resolved subs))
                  /\ translateSubtitles sv subs = Resolved translated
                  /\ length audios = length translated
                  /\ subtitles final
                     = List.map (fun p => withAudio (fst p) (snd p))
                         (combine translated audios)
                  /\ (forall j sub audio,
                        translated !! j = Some sub -> audios !! j = Some audio ->
                        generateVoiceover sv j (translatedText sub) = Resolved audio)
                  /\ voiceCalls (awaited out)
                     = List.map (fun p => (fst p, translatedText (snd p)))
                         (combine (seq 0 (length translated)) translated))
            \/ (status final = ERROR
                /\ exists m, errorMsg out = Some m /\ m <> NoRegionsMsg))).
Proof.
  intros out final. unfold final, out, processVideo.
  destruct (blurRegions item) as [| region regions] eqn:Hregions.
  { cbn [out_item awaited errorMsg drawingRequested].
    split; [reflexivity |]. split; [reflexivity |]. split; [exact Hregions |].
    split; [intros _; repeat split | intros H; congruence]. }
  set (item1 := writeSubtitles item EXTRACTING (subtitles item)).
  destruct (fileToBase64 sv) as [base64 | err].
  2:{ failed_branch item1 err [ReadFile] Hregions.
      intros _ [Hin | []]. discriminate. }
  destruct (subtitles item) as [| first others] eqn:Hsubs.
  - (* no subtitles yet: extraction *)
    destruct (extractSubtitlesFromVideo sv) as [subs | err] eqn:Hext.
    2:{ failed_branch item1 err [ReadFile; Extract] Hregions. congruence. }
    set (item2 := writeSubtitles item1 TRANSLATING subs).
    destruct (translateSubtitles sv subs) as [translated | err] eqn:Htr.
    2:{ failed_branch item2 err ([ReadFile; Extract] ++ [Translate subs]) Hregions.
        congruence. }
    pose proof (voiceLoop_spec (generateVoiceover sv) translated 0 []) as Hloop.
    destruct (voiceLoop (generateVoiceover sv) translated 0 []) as [[finalizedSubs | err] steps3].
    + destruct Hloop as (_ & _ & audios & Hlen & -> & Hvoice & Hcalls).
      cbn [out_item errorMsg drawingRequested awaited writeSubtitles history historyIndex
           blurRegions status subtitles item1 item2].
      split; [reflexivity |]. split; [reflexivity |]. split; [exact Hregions |].
      split; [intros; discriminate |]. intros _.
      split; [reflexivity |]. split; [congruence |].
      left. split; [reflexivity |]. split; [reflexivity |].
      exists subs, translated, audios.
      split; [right; split; reflexivity |].
      split; [exact Htr |]. split; [exact Hlen |]. split; [reflexivity |].
      split; [exact Hvoice |]. rewrite voiceCalls_app. exact Hcalls.
    + failed_branch (writeSubtitles item2 GENERATING_VOICE translated) err
        (([ReadFile; Extract] ++ [Translate subs]) ++ steps3) Hregions.
      congruence.
  - (* subtitles present: no extraction *)
    set (subs := first :: others).
    set (item2 := writeSubtitles item1 TRANSLATING subs).
    destruct (translateSubtitles sv subs) as [translated | err] eqn:Htr.
    2:{ failed_branch item2 err ([ReadFile] ++ [Translate subs]) Hregions.
        intros _ [Hin | [Hin | []]]; discriminate. }
    pose proof (voiceLoop_spec (generateVoiceover sv) translated 0 []) as Hloop.
    destruct (voiceLoop (generateVoiceover sv) translated 0 []) as [[finalizedSubs | err] steps3].
    + destruct Hloop as (_ & Hne & audios & Hlen & -> & Hvoice & Hcalls).
      cbn [out_item errorMsg drawingRequested awaited writeSubtitles history historyIndex
           blurRegions status subtitles item1 item2].
      split; [reflexivity |]. split; [reflexivity |]. split; [exact Hregions |].
      split; [intros; discriminate |]. intros _.
      split; [reflexivity |]. split.
      { intros _ Hin. apply in_app_or in Hin as [[Hin | [Hin | []]] | Hin];
          try discriminate. exact (Hne Hin). }
      left. split; [reflexivity |]. split; [reflexivity |].
      exists subs, translated, audios.
      split; [left; reflexivity |].
      split; [exact Htr |]. split; [exact Hlen |]. split; [reflexivity |].
      split; [exact Hvoice |]. rewrite voiceCalls_app. exact Hcalls.
    + destruct Hloop as (_ & Hne & _).
      failed_branch (writeSubtitles item2 GENERATING_VOICE translated) err
        (([ReadFile] ++ [Translate subs]) ++ steps3) Hregions.
      intros _ Hin. apply in_app_or in Hin as [[Hin | [Hin | []]] | Hin];
        try discriminate. exact (Hne Hin).
Qed.

End PipelineFacts.

(** ** Subtitle import *)

Section ImportFacts.
Import History Pipeline SrtImport.

Lemma processVideo_no_extract (item : VideoQueueItem) (sv : Services) :
  subtitles item <> [] -> ~ In Extract (awaited (processVideo item sv)).
Proof.
  intros Hsubs. unfold processVideo.
  destruct (blurRegions item) as [| region regions]; [cbn; tauto |].
  destruct (fileToBase64 sv) as [base64 | err]; [| cbn; intuition discriminate].
  destruct (subtitles item) as [| first others]; [congruence |].
  destruct (translateSubtitles sv (first :: others)) as [translated | err];
    [| cbn; intuition discriminate].
  pose proof (voiceLoop_spec (generateVoiceover sv) translated 0 []) as Hloop.
  destruct (voiceLoop (generateVoiceover sv) translated 0 []) as [[finalizedSubs | err] steps3];
    destruct Hloop as (_ & Hne & _); cbn [awaited failed];
    intros Hin; apply in_app_or in Hin as [[Hin | [Hin | []]] | Hin];
    try discriminate; exact (Hne Hin).
Qed.

(** X29. Importing a subtitle file replaces the subtitles of the item
    by the entries read from it, whose ids are pairwise distinct, and
    keeps the regions.  A file with no entry in it empties the subtitles
    of an item that had some, as a step of the history, and leaves an
    item without subtitles as it was.  After an import that gave
    entries, processing the item asks for no extraction. *)
Theorem handleSrtImport_replaces
    (item : VideoQueueItem) (now : nat -> Z) (text : string) (sv : Services) :
  let imported := handleSrtImport item now text in
  subtitles imported = Srt.parseSRT now text
  /\ blurRegions imported = blurRegions item
  /\ NoDup (List.map sub_id (subtitles imported))
  /\ (Srt.parseSRT now text = [] -> subtitles item = [] -> imported = item)
  /\ (Srt.parseSRT now text = [] -> subtitles item <> [] ->
        subtitles imported = []
        /\ current imported
           = Some {| hs_subtitles := []; hs_blurRegions := blurRegions item |})
  /\ (Srt.parseSRT now text <> [] -> ~ In Extract (awaited (processVideo imported sv))).
Proof.
  intros imported.
  assert (Es : subtitles imported = Srt.parseSRT now text)
    by (unfold imported, handleSrtImport; apply updateActiveVideo_subtitles).
  assert (Eb : blurRegions imported = blurRegions item)
    by (unfold imported, handleSrtImport; apply updateActiveVideo_blurRegions).
  split; [exact Es |]. split; [exact Eb |]. split.
  { rewrite Es. unfold Srt.parseSRT. apply parseBlocks_ids. }
  split.
  { intros Hnone Hempty.
    apply (setSubtitles_same item (fun _ => Srt.parseSRT now text)). congruence. }
  split.
  { intros Hnone Hsome. split; [congruence |].
    unfold current.
    pose proof (updateActiveVideo_history item
                  {| u_status := None; u_subtitles := Some (Srt.parseSRT now text);
                     u_blurRegions := None; u_fontFamily := None; u_fontSize := None |}) as E.
    fold (handleSrtImport item now text) in E. fold imported in E.
    assert (Hch : changes item
                    {| u_status := None; u_subtitles := Some (Srt.parseSRT now text);
                       u_blurRegions := None; u_fontFamily := None; u_fontSize := None |}
                  = true).
    { unfold changes. cbn. rewrite Hnone.
      destruct (subtitles item) as [| s l]; [congruence | reflexivity]. }
    rewrite Hch in E. cbn [or_else u_subtitles u_blurRegions] in E. rewrite Hnone in E.
    pose proof (pushed_current item [] (blurRegions item)) as Hcur.
    rewrite <- E in Hcur. exact Hcur. }
  intros Hsome. apply processVideo_no_extract. rewrite Es. exact Hsome.
Qed.

End ImportFacts.
